(** * aiocqhttp.message: a shallow embedding and its properties

    The module [aiocqhttp/message.py] is a codec for the CQ-code markup:
    [escape]/[unescape] on strings, the [MessageSegment] dict subclass and
    the [Message] list subclass with parsing ([_split_iter]), rendering
    ([__str__]), [append]/[extend]/[__add__], [reduce] and
    [extract_plain_text].

    Python strings are modelled by [string]; a character is an [ascii]
    (code points below 256).  Mutable objects (dicts and segments) live in
    a heap and are referred to by location, so that sharing between a
    message and its copies is visible.  The values stored in dicts and
    messages are [None], strings and references; numbers, and lists
    inside dicts or lists, are not modelled, but for the int arguments of
    the builders, which are integers of [Z] and are turned into their
    decimal strings at once.  A message is given by the
    list of its elements, which a method threads as state together with
    the heap; a message passed as an argument is a list of elements too,
    so a call that hands a message to its own method is not expressed. *)

From Stdlib Require Import String Ascii List Bool Arith Lia.
From Stdlib Require ZArith DecimalString.
Import ListNotations.

Local Open Scope string_scope.
Local Open Scope list_scope.

(** ** Python string primitives *)

Module PyStr.

(** [str.replace(old, new)] for a non-empty [old]: scan from the left; at
    a position where [old] occurs, emit [new] and resume after the
    occurrence ([skip] counts the characters of the occurrence still to be
    dropped); otherwise copy the character. *)
Fixpoint replace_from (old new : string) (skip : nat) (s : string) : string :=
  match s with
  | EmptyString => EmptyString
  | String c s' =>
      match skip with
      | S n => replace_from old new n s'
      | O =>
          if prefix old s
          then (new ++ replace_from old new (pred (String.length old)) s')%string
          else String c (replace_from old new 0 s')
      end
  end.

(** With an empty [old] Python inserts [new] before every character and at
    the end. *)
Fixpoint replace_empty (new s : string) : string :=
  match s with
  | EmptyString => new
  | String c s' => (new ++ String c (replace_empty new s'))%string
  end.

Definition replace (old new s : string) : string :=
  match old with
  | EmptyString => replace_empty new s
  | String _ _ => replace_from old new 0 s
  end.

(** [old in s] *)
Fixpoint contains (old s : string) : bool :=
  match s with
  | EmptyString => prefix old EmptyString
  | String _ s' => prefix old s || contains old s'
  end.

(** [sep.join(l)] *)
Fixpoint join (sep : string) (l : list string) : string :=
  match l with
  | [] => EmptyString
  | [x] => x
  | x :: l' => (x ++ sep ++ join sep l')%string
  end.

(** [s.split(sep)] for a one-character separator: always at least one
    piece. *)
Fixpoint split_chr (sep : ascii) (s : string) : list string :=
  match s with
  | EmptyString => [EmptyString]
  | String c s' =>
      if Ascii.eqb c sep then EmptyString :: split_chr sep s'
      else match split_chr sep s' with
           | [] => [String c EmptyString]
           | p :: ps => String c p :: ps
           end
  end.

(** [s.split(sep, maxsplit=1)]: one piece when [sep] does not occur, else
    the text before and the text after the first occurrence. *)
Fixpoint split_first (sep : ascii) (s : string) : list string :=
  match s with
  | EmptyString => [EmptyString]
  | String c s' =>
      if Ascii.eqb c sep then [EmptyString; s']
      else match split_first sep s' with
           | p :: ps => String c p :: ps
           | [] => [String c EmptyString]
           end
  end.

(** [s.lstrip(chars)] with the set of characters given as a predicate. *)
Fixpoint lstrip_by (p : ascii -> bool) (s : string) : string :=
  match s with
  | EmptyString => EmptyString
  | String c s' => if p c then lstrip_by p s' else s
  end.

(** The characters [str.isspace] accepts below code point 256. *)
Definition is_space (c : ascii) : bool :=
  let n := nat_of_ascii c in
  (((9 <=? n) && (n <=? 13)) || ((28 <=? n) && (n <=? 32))
   || (n =? 133) || (n =? 160))%nat.

Definition lstrip (s : string) : string := lstrip_by is_space s.

End PyStr.

Import PyStr.

(** ** The escape codec (message.py, lines 5-18) *)

Definition escape (s : string) (escape_comma : bool) : string :=
  let s := replace "]" "&#93;" (replace "[" "&#91;" (replace "&" "&amp;" s)) in
  if escape_comma then replace "," "&#44;" s else s.

Definition unescape (s : string) : string :=
  replace "&amp;" "&"
    (replace "&#93;" "]" (replace "&#91;" "[" (replace "&#44;" "," s))).

Definition _b2s (b : bool) : string := if b then "1" else "0".

(** ** A backtracking matcher for the fragment of [re] the module uses

    Literals, character classes, concatenation, greedy [*], [+] and [?],
    and named groups.  The matcher explores alternatives in the order of
    Python's engine (greedy: one more iteration is tried before leaving
    the loop) and returns the first complete match. *)

Module Re.

Inductive regex : Type :=
| Eps
| Lit (c : ascii)
| Cls (p : ascii -> bool)
| Seq (r1 r2 : regex)
| Star (r : regex)
| Opt (r : regex)
| Group (name : string) (r : regex).

Definition Plus (r : regex) : regex := Seq r (Star r).

Fixpoint lit (s : string) : regex :=
  match s with
  | EmptyString => Eps
  | String c s' => Seq (Lit c) (lit s')
  end.

(** Named groups: name and matched text, most recent first. *)
Definition captures := list (string * string).

Fixpoint group (name : string) (caps : captures) : string :=
  match caps with
  | [] => EmptyString
  | (n, v) :: caps' => if String.eqb n name then v else group name caps'
  end.

(** The text consumed between the suffix [s] and its suffix [s']. *)
Definition consumed (s s' : string) : string :=
  substring 0 (String.length s - String.length s') s.

Section Run.
Context {A : Type}.

(** The loop of a greedy [*]: one more match of the body is tried before
    the continuation [k].  An iteration that consumes nothing is refused,
    so at most [n] iterations follow, [n] being the length of the input
    when the loop is entered. *)
Fixpoint star_loop
    (body : string -> captures -> (string -> captures -> option A) -> option A)
    (k : string -> captures -> option A)
    (n : nat) (s : string) (caps : captures) : option A :=
  match n with
  | O => k s caps
  | S n' =>
      match body s caps
              (fun s' caps' =>
                 if (String.length s' <? String.length s)%nat
                 then star_loop body k n' s' caps' else None) with
      | Some x => Some x
      | None => k s caps
      end
  end.

(** [run r s caps k]: match [r] at the start of [s], then continue with
    [k] on the rest; [None] when every alternative fails. *)
Fixpoint run (r : regex) (s : string) (caps : captures)
    (k : string -> captures -> option A) {struct r} : option A :=
  match r with
  | Eps => k s caps
  | Lit c =>
      match s with
      | String c' s' => if Ascii.eqb c' c then k s' caps else None
      | EmptyString => None
      end
  | Cls p =>
      match s with
      | String c' s' => if p c' then k s' caps else None
      | EmptyString => None
      end
  | Seq r1 r2 => run r1 s caps (fun s' caps' => run r2 s' caps' k)
  | Star r1 => star_loop (run r1) k (String.length s) s caps
  | Opt r1 =>
      match run r1 s caps k with
      | Some x => Some x
      | None => k s caps
      end
  | Group name r1 =>
      run r1 s caps (fun s' caps' => k s' ((name, consumed s s') :: caps'))
  end.

End Run.

(** A match of [r] starting at the first character of [s]: the rest of the
    input after the match, and the groups. *)
Definition match_here (r : regex) (s : string) : option (string * captures) :=
  run r s [] (fun s' caps => Some (s', caps)).

(** A match object: [start()], [end()] and the groups. *)
Record rmatch : Type := mk_rmatch {
  m_start : nat;
  m_end : nat;
  m_caps : captures
}.

(** [re.finditer]: the non-overlapping matches from left to right.  [pos]
    is the index of the first character of [s] in the whole input; [skip]
    counts the characters of the last match still to be passed.  After a
    match that consumed nothing the scan moves on by one character. *)
Fixpoint finditer_from (r : regex) (pos skip : nat) (s : string)
    : list rmatch :=
  match s with
  | EmptyString =>
      match skip with
      | O => match match_here r s with
             | Some (_, caps) => [mk_rmatch pos pos caps]
             | None => []
             end
      | S _ => []
      end
  | String _ t =>
      match skip with
      | S n => finditer_from r (S pos) n t
      | O =>
          match match_here r s with
          | Some (rest, caps) =>
              let n := String.length s - String.length rest in
              mk_rmatch pos (pos + n) caps :: finditer_from r (S pos) (pred n) t
          | None => finditer_from r (S pos) 0 t
          end
      end
  end.

Definition finditer (r : regex) (s : string) : list rmatch :=
  finditer_from r 0 0 s.

End Re.

(** ** Tokens of a message string (message.py, lines 179-189) *)

(** The class of letters, digits, hyphen, underscore and dot. *)
Definition is_name_char (c : ascii) : bool :=
  let n := nat_of_ascii c in
  (((97 <=? n) && (n <=? 122)) || ((65 <=? n) && (n <=? 90))
   || ((48 <=? n) && (n <=? 57)))%nat
  || Ascii.eqb c "-" || Ascii.eqb c "_" || Ascii.eqb c ".".

(** The class of every character but the comma and the closing bracket. *)
Definition not_comma_bracket (c : ascii) : bool :=
  negb (Ascii.eqb c "," || Ascii.eqb c "]").

(** The pattern given to [re.finditer]: the literal [CQ: with its opening
    bracket, the group [type] (one or more name characters), the group
    [params] (any number of times: a comma, one or more name characters,
    an optional equals sign, any number of characters other than a comma
    and a closing bracket), an optional comma, a closing bracket. *)
Definition cq_regex : Re.regex :=
  Re.Seq (Re.lit "[CQ:")
    (Re.Seq (Re.Group "type" (Re.Plus (Re.Cls is_name_char)))
       (Re.Seq
          (Re.Group "params"
             (Re.Star
                (Re.Seq (Re.Lit ",")
                   (Re.Seq (Re.Plus (Re.Cls is_name_char))
                      (Re.Seq (Re.Opt (Re.Lit "="))
                         (Re.Star (Re.Cls not_comma_bracket)))))))
          (Re.Seq (Re.Opt (Re.Lit ",")) (Re.Lit "]")))).

(** [msg_str[a:b]] for [a <= b]. *)
Definition slice (a b : nat) (s : string) : string := substring a (b - a) s.

(** The loop of [iter_function_name_and_extra]: one text span and one
    token per match, then the text after the last match. *)
Fixpoint spans (msg_str : string) (text_begin : nat) (ms : list Re.rmatch)
    : list (string * string) :=
  match ms with
  | [] => [("text", slice text_begin (String.length msg_str) msg_str)]
  | cqcode :: ms' =>
      ("text", slice text_begin (Re.m_start cqcode) msg_str)
      :: (Re.group "type" (Re.m_caps cqcode),
          lstrip_by (Ascii.eqb ",") (Re.group "params" (Re.m_caps cqcode)))
      :: spans msg_str (Re.m_end cqcode) ms'
  end.

Definition iter_function_name_and_extra (msg_str : string)
    : list (string * string) :=
  spans msg_str 0 (Re.finditer cq_regex msg_str).

(** ** Python values, objects and the heap *)

(** A value is [None], a string or a reference to a heap object.  A
    reference outside the heap stands for an object of some class the
    module does not know (neither a dict nor a segment). *)
Inductive val : Type :=
| VNone
| VStr (s : string)
| VRef (l : nat).

(** A dict with string keys, in insertion order, keys unique. *)
Definition dict : Type := list (string * val).

(** Heap objects: a plain [dict], or a [MessageSegment] (a dict subclass
    whose item access is restricted to the keys type and data). *)
Inductive obj : Type :=
| ODict (d : dict)
| OSeg (d : dict).

Definition heap : Type := list obj.

Inductive exn : Type :=
| ValueError (msg : string)
| KeyError
| AttributeError
| TypeError
| IndexError
| NotImplementedError.

Inductive result (A : Type) : Type :=
| Ok (a : A)
| Raise (e : exn).
Arguments Ok {A} a.
Arguments Raise {A} e.

Definition val_eqb (a b : val) : bool :=
  match a, b with
  | VNone, VNone => true
  | VStr s, VStr t => String.eqb s t
  | VRef l, VRef k => Nat.eqb l k
  | _, _ => false
  end.

Fixpoint dict_get (d : dict) (k : string) : option val :=
  match d with
  | [] => None
  | (k', v) :: d' => if String.eqb k' k then Some v else dict_get d' k
  end.

(** [d[k] = v]: an existing key keeps its place, a new key goes last. *)
Fixpoint dict_set (d : dict) (k : string) (v : val) : dict :=
  match d with
  | [] => [(k, v)]
  | (k', v') :: d' =>
      if String.eqb k' k then (k', v) :: d' else (k', v') :: dict_set d' k v
  end.

Definition heap_get (h : heap) (l : nat) : option obj := nth_error h l.

Fixpoint heap_set (h : heap) (l : nat) (o : obj) : heap :=
  match h, l with
  | [], _ => []
  | _ :: h', O => o :: h'
  | o' :: h', S l' => o' :: heap_set h' l' o
  end.

(** ** Stateful computations that may raise

    The state survives an exception: what was mutated before the raise
    stays mutated. *)

Definition M (S A : Type) : Type := S -> S * result A.

Definition ret {S A : Type} (a : A) : M S A := fun s => (s, Ok a).

Definition raise {S A : Type} (e : exn) : M S A := fun s => (s, Raise e).

Definition bind {S A B : Type} (c : M S A) (k : A -> M S B) : M S B :=
  fun s =>
    match c s with
    | (s', Ok a) => k a s'
    | (s', Raise e) => (s', Raise e)
    end.

(** [try: c  except: pass] followed by [raise e]: every exception of [c]
    is replaced by [e]. *)
Definition try_except {S A : Type} (c : M S A) (e : exn) : M S A :=
  fun s =>
    match c s with
    | (s', Ok a) => (s', Ok a)
    | (s', Raise _) => (s', Raise e)
    end.

Declare Scope py_scope.
Delimit Scope py_scope with py.
Notation "x <- c ;; k" := (bind c (fun x => k))
  (at level 61, c at next level, right associativity) : py_scope.
Notation "c ;; k" := (bind c (fun _ => k))
  (at level 61, right associativity) : py_scope.
Local Open Scope py_scope.

(** Reading the state with a function that may raise. *)
Definition reads {S A : Type} (f : S -> result A) : M S A :=
  fun s => (s, f s).

(** ** Operations on values *)

Definition alloc (o : obj) : M heap val :=
  fun h => (h ++ [o], Ok (VRef (List.length h))).

(** [isinstance(v, dict)], with the entries. *)
Definition as_dict (h : heap) (v : val) : option dict :=
  match v with
  | VRef l =>
      match heap_get h l with
      | Some (ODict d) => Some d
      | Some (OSeg d) => Some d
      | None => None
      end
  | _ => None
  end.

(** [isinstance(v, MessageSegment)], with the entries. *)
Definition as_segment (h : heap) (v : val) : option dict :=
  match v with
  | VRef l =>
      match heap_get h l with
      | Some (OSeg d) => Some d
      | _ => None
      end
  | _ => None
  end.

(** [bool(v)] *)
Definition truthy (h : heap) (v : val) : bool :=
  match v with
  | VNone => false
  | VStr s => negb (String.eqb s "")
  | VRef l =>
      match heap_get h l with
      | Some (ODict d) => negb (Nat.eqb (List.length d) 0)
      | Some (OSeg d) => negb (Nat.eqb (List.length d) 0)
      | None => true
      end
  end.

Definition allowed_key (item : string) : bool :=
  String.eqb item "type" || String.eqb item "data".

(** [MessageSegment.__getitem__] (lines 40-43) *)
Definition seg_getitem (d : dict) (item : string) : result val :=
  if allowed_key item then
    match dict_get d item with
    | Some v => Ok v
    | None => Raise KeyError
    end
  else Raise KeyError.

(** [MessageSegment.__getattr__] (lines 53-57) *)
Definition seg_getattr (d : dict) (item : string) : result val :=
  match seg_getitem d item with
  | Ok v => Ok v
  | Raise KeyError => Raise AttributeError
  | Raise e => Raise e
  end.

(** [v.item] for the attribute names type and data, which no other class
    of the model has. *)
Definition getattr (v : val) (item : string) (h : heap) : result val :=
  match as_segment h v with
  | Some d => seg_getattr d item
  | None => Raise AttributeError
  end.

(** [v[k]] with a string key. *)
Definition getitem (v : val) (k : string) (h : heap) : result val :=
  match v with
  | VRef l =>
      match heap_get h l with
      | Some (ODict d) =>
          match dict_get d k with
          | Some x => Ok x
          | None => Raise KeyError
          end
      | Some (OSeg d) => seg_getitem d k
      | None => Raise TypeError
      end
  | _ => Raise TypeError
  end.

(** [v[k] = x] with a string key; [MessageSegment.__setitem__] (lines
    45-48) for a segment. *)
Definition setitem (v : val) (k : string) (x : val) : M heap unit :=
  fun h =>
    match v with
    | VRef l =>
        match heap_get h l with
        | Some (ODict d) => (heap_set h l (ODict (dict_set d k x)), Ok tt)
        | Some (OSeg d) =>
            if allowed_key k
            then (heap_set h l (OSeg (dict_set d k x)), Ok tt)
            else (h, Raise KeyError)
        | None => (h, Raise TypeError)
        end
    | _ => (h, Raise TypeError)
    end.

(** [del seg[key]] (lines 50-51) *)
Definition seg_delitem (v : val) (key : string) : M heap unit :=
  raise NotImplementedError.

(** [x + y] and the value of [x += y]: defined on two strings only; dicts
    and [None] have no addition. *)
Definition add (x y : val) : result val :=
  match x, y with
  | VStr a, VStr b => Ok (VStr (a ++ b)%string)
  | _, _ => Raise TypeError
  end.

(** [v.get(k, default)] and [v.items()] exist on dicts and segments. *)
Definition dict_method_get (v : val) (k : string) (default : val) (h : heap)
    : result val :=
  match as_dict h v with
  | Some d =>
      match dict_get d k with
      | Some x => Ok x
      | None => Ok default
      end
  | None => Raise AttributeError
  end.

Definition dict_method_items (v : val) (h : heap) : result dict :=
  match as_dict h v with
  | Some d => Ok d
  | None => Raise AttributeError
  end.

(** ** MessageSegment (message.py, lines 28-161) *)

(** The message of the constructor's error; the word type is quoted. *)
Definition type_field_msg : string :=
  let q := String (ascii_of_nat 34) EmptyString in
  ("the " ++ q ++ "type" ++ q ++ " field cannot be None or empty")%string.

(** [MessageSegment(d, type=type, data=data)] (lines 29-38); an omitted
    argument is [VNone].  [self.update(d)] copies the entries of [d]; the
    values, among them the data dict, are shared with [d]. *)
Definition MessageSegment (d type data : val) : M heap val :=
  fun h =>
    let from_mapping :=
      match as_dict h d with
      | Some entries =>
          match dict_get entries "type" with
          | Some t => if truthy h t then Some entries else None
          | None => None
          end
      | None => None
      end in
    match from_mapping with
    | Some entries => alloc (OSeg entries) h
    | None =>
        if truthy h type then
          (data' <- (if truthy h data then ret data else alloc (ODict [])) ;;
           alloc (OSeg [("type", type); ("data", data')])) h
        else
          (h, Raise (ValueError type_field_msg))
    end.

(** The builders used below (lines 75-124); each passes a fresh data
    dict. *)
Definition MessageSegment_text (text : string) : M heap val :=
  data <- alloc (ODict [("text", VStr text)]) ;;
  MessageSegment VNone (VStr "text") data.

Definition MessageSegment_image (file : string) : M heap val :=
  data <- alloc (ODict [("file", VStr file)]) ;;
  MessageSegment VNone (VStr "image") data.

Definition MessageSegment_record (file : string) (magic : bool) : M heap val :=
  data <- alloc (ODict [("file", VStr file); ("magic", VStr (_b2s magic))]) ;;
  MessageSegment VNone (VStr "record") data.

Definition MessageSegment_rps : M heap val :=
  MessageSegment VNone (VStr "rps") VNone.

Definition MessageSegment_share (url title content image_url : string)
    : M heap val :=
  data <- alloc (ODict [("url", VStr url); ("title", VStr title);
                        ("content", VStr content); ("image", VStr image_url)]) ;;
  MessageSegment VNone (VStr "share") data.

(** [str(n)] for an int [n]: the decimal digits, after a minus sign for a
    negative number. *)
Definition str_of_int (n : BinNums.Z) : string :=
  DecimalString.NilZero.string_of_int (BinInt.Z.to_int n).

(** The other builders (lines 79-161), but for [location], whose
    arguments are floats. *)
Definition MessageSegment_emoji (id_ : BinNums.Z) : M heap val :=
  data <- alloc (ODict [("id", VStr (str_of_int id_))]) ;;
  MessageSegment VNone (VStr "emoji") data.

Definition MessageSegment_face (id_ : BinNums.Z) : M heap val :=
  data <- alloc (ODict [("id", VStr (str_of_int id_))]) ;;
  MessageSegment VNone (VStr "face") data.

Definition MessageSegment_at (user_id : BinNums.Z) : M heap val :=
  data <- alloc (ODict [("qq", VStr (str_of_int user_id))]) ;;
  MessageSegment VNone (VStr "at") data.

Definition MessageSegment_dice : M heap val :=
  MessageSegment VNone (VStr "dice") VNone.

Definition MessageSegment_shake : M heap val :=
  MessageSegment VNone (VStr "shake") VNone.

Definition MessageSegment_anonymous (ignore_failure : bool) : M heap val :=
  data <- alloc (ODict [("ignore", VStr (_b2s ignore_failure))]) ;;
  MessageSegment VNone (VStr "anonymous") data.

Definition MessageSegment_contact_user (id_ : BinNums.Z) : M heap val :=
  data <- alloc (ODict [("type", VStr "qq");
                        ("id", VStr (str_of_int id_))]) ;;
  MessageSegment VNone (VStr "contact") data.

Definition MessageSegment_contact_group (id_ : BinNums.Z) : M heap val :=
  data <- alloc (ODict [("type", VStr "group");
                        ("id", VStr (str_of_int id_))]) ;;
  MessageSegment VNone (VStr "contact") data.

Definition MessageSegment_music (type_ : string) (id_ : BinNums.Z)
    : M heap val :=
  data <- alloc (ODict [("type", VStr type_);
                        ("id", VStr (str_of_int id_))]) ;;
  MessageSegment VNone (VStr "music") data.

Definition MessageSegment_music_custom
    (url audio_url title content image_url : string) : M heap val :=
  data <- alloc (ODict [("type", VStr "custom"); ("url", VStr url);
                        ("audio", VStr audio_url); ("title", VStr title);
                        ("content", VStr content);
                        ("image", VStr image_url)]) ;;
  MessageSegment VNone (VStr "music") data.

Section Rendering.

(** [str(v)] for a reference [v] that is not rendered by the module
    itself (the repr of a plain dict or of a foreign object): left open. *)
Variable str_of_ref : heap -> nat -> result string.

(** [str(v)] and [format(v)] of a value stored in a dict. *)
Definition str_of_val (v : val) (h : heap) : result string :=
  match v with
  | VNone => Ok "None"
  | VStr s => Ok s
  | VRef l => str_of_ref h l
  end.

(** [x.replace] exists on strings only: [escape(x)] for any value [x]. *)
Definition escape_val (x : val) (escape_comma : bool) : result string :=
  match x with
  | VStr s => Ok (escape s escape_comma)
  | _ => Raise AttributeError
  end.

(** The generator inside [','.join(...)] of [__str__]. *)
Fixpoint render_params (items : dict) (h : heap) : result (list string) :=
  match items with
  | [] => Ok []
  | (k, v) :: items' =>
      match str_of_val v h with
      | Ok s =>
          match render_params items' h with
          | Ok l => Ok ((k ++ "=" ++ escape s true)%string :: l)
          | Raise e => Raise e
          end
      | Raise e => Raise e
      end
  end.

(** [MessageSegment.__str__] (lines 65-73) *)
Definition MessageSegment_str (self : val) : M heap string :=
  type <- reads (getattr self "type") ;;
  if val_eqb type (VStr "text") then
    data <- reads (getattr self "data") ;;
    x <- reads (dict_method_get data "text" (VStr "")) ;;
    reads (fun _ => escape_val x false)
  else
    data <- reads (getattr self "data") ;;
    items <- reads (dict_method_items data) ;;
    l <- reads (render_params items) ;;
    let params := join "," l in
    let params := if String.eqb params "" then params
                  else ("," ++ params)%string in
    type <- reads (getattr self "type") ;;
    t <- reads (str_of_val type) ;;
    ret ("[CQ:" ++ t ++ params ++ "]")%string.

(** [str(seg)] for an element of a message. *)
Definition str_of_elem (seg : val) : M heap string :=
  fun h =>
    match as_segment h seg with
    | Some _ => MessageSegment_str seg h
    | None => (h, str_of_val seg h)
    end.

(** [Message.__str__] (lines 204-205) *)
Fixpoint Message_str (self : list val) : M heap string :=
  match self with
  | [] => ret ""
  | seg :: rest =>
      s <- str_of_elem seg ;;
      r <- Message_str rest ;;
      ret (s ++ r)%string
  end.

End Rendering.

(** ** Message (message.py, lines 164-284)

    A method of [Message] runs on the heap and on the elements of [self];
    both are state, since [append] and [reduce] mutate the list in place
    and an exception leaves what was done before it. *)

Definition mstate : Type := (heap * list val)%type.

Definition lift {A : Type} (c : M heap A) : M mstate A :=
  fun st =>
    match c (fst st) with
    | (h', r) => ((h', snd st), r)
    end.

Definition get_self : M mstate (list val) := fun st => (st, Ok (snd st)).

Definition set_self (l : list val) : M mstate unit :=
  fun st => ((fst st, l), Ok tt).

(** What a caller may pass where the source says [Any]: a value, a list
    of values, or a [Message] (given by its elements). *)
Inductive pyarg : Type :=
| AVal (v : val)
| AList (vs : list val)
| AMsg (vs : list val).

Definition append_msg_error : exn :=
  ValueError "the object is not a valid message segment".
Definition extend_msg_error : exn :=
  ValueError "the object is not a valid message".
Definition init_msg_error : exn :=
  ValueError "the msg argument is not recognizable".
Definition add_msg_error : exn :=
  ValueError "the addend is not a valid message".
Definition unpack_error : exn :=
  ValueError "not enough values to unpack (expected 2, got 1)".
Definition unpack_error_many : exn :=
  ValueError "too many values to unpack (expected 2)".

(** The condition of lines 228-229, evaluated left to right with the
    short circuit of [and]. *)
Definition both_text (prev obj : val) : M heap bool :=
  t1 <- reads (getattr prev "type") ;;
  if val_eqb t1 (VStr "text") then
    t2 <- reads (getattr obj "type") ;;
    ret (val_eqb t2 (VStr "text"))
  else ret false.

(** [prev.data['text'] += obj.data['text']]: the target and its old value
    are read first, then the right-hand side, then the sum is stored. *)
Definition merge_text (prev obj : val) : M heap unit :=
  target <- reads (getattr prev "data") ;;
  x <- reads (getitem target "text") ;;
  source <- reads (getattr obj "data") ;;
  y <- reads (getitem source "text") ;;
  z <- reads (fun _ => add x y) ;;
  setitem target "text" z.

(** [self[-1]] when [len(self) > 0]. *)
Definition last_elem (self : list val) : option val :=
  match rev self with
  | [] => None
  | v :: _ => Some v
  end.

(** The branch of [append] for a [MessageSegment] (lines 228-232). *)
Definition append_segment (obj : val) : M mstate unit :=
  self <- get_self ;;
  match last_elem self with
  | Some prev =>
      merge <- lift (both_text prev obj) ;;
      if merge then lift (merge_text prev obj)
      else set_self (self ++ [obj])
  | None => set_self (self ++ [obj])
  end.

(** [Message.append] (lines 225-238).  The recursive call receives a
    segment and so takes the first branch. *)
Definition append (obj : pyarg) : M mstate unit :=
  try_except
    (match obj with
     | AVal v =>
         fun st =>
           match as_segment (fst st) v with
           | Some _ => append_segment v st
           | None =>
               (seg <- lift (MessageSegment v VNone VNone) ;;
                try_except (append_segment seg) append_msg_error) st
           end
     | AList _ | AMsg _ =>
         (* [MessageSegment(obj)]: a list is not a dict, and no type is
            given *)
         raise (ValueError type_field_msg)
     end)
    append_msg_error.

(** The dict comprehension of lines 198-201: pieces are taken one by one;
    a piece that does not split in two raises at the unpacking. *)
Fixpoint collect_pairs (pieces : list (list string)) (d : dict) : result dict :=
  match pieces with
  | [] => Ok d
  | [k; v] :: rest => collect_pairs rest (dict_set d k (VStr v))
  | [] :: _ | [_] :: _ => Raise unpack_error
  | _ :: _ => Raise unpack_error_many
  end.

Definition cq_data (extra : string) : result dict :=
  collect_pairs
    (map (split_first "=")
       (filter (fun x => negb (String.eqb x ""))
          (map lstrip (split_chr "," extra))))
    [].

(** A lazy iterable: the computations of its items, run one at a time by
    the consumer.  An item that raises ends the iteration. *)
Definition iterable : Type := list (M heap val).

(** What the generator [_split_iter] does between two [yield]s
    (lines 191-202). *)
Definition split_item (function_name extra : string) : option (M heap val) :=
  if String.eqb function_name "text" then
    if negb (String.eqb extra "") then
      Some (data <- alloc (ODict [("text", VStr extra)]) ;;
            MessageSegment VNone (VStr function_name) data)
    else None
  else
    Some (d <- reads (fun _ => cq_data extra) ;;
          data <- alloc (ODict d) ;;
          MessageSegment VNone (VStr function_name) data).

Fixpoint split_items (l : list (string * string)) : iterable :=
  match l with
  | [] => []
  | (function_name, extra) :: l' =>
      match split_item function_name extra with
      | Some c => c :: split_items l'
      | None => split_items l'
      end
  end.

(** [Message._split_iter] (lines 177-202) *)
Definition _split_iter (msg_str : string) : iterable :=
  split_items (iter_function_name_and_extra msg_str).

(** [for seg in msg: self.append(seg)] *)
Fixpoint for_each_append (items : iterable) : M mstate unit :=
  match items with
  | [] => ret tt
  | item :: rest =>
      seg <- lift item ;;
      append (AVal seg) ;;
      for_each_append rest
  end.

(** [iter(msg)] for the argument of [extend]: a string is parsed first
    (line 243); a list yields its elements, a dict its keys; [None] and
    foreign objects are not iterable. *)
Definition iter_of (msg : pyarg) (h : heap) : result iterable :=
  match msg with
  | AVal (VStr s) => Ok (_split_iter s)
  | AList vs | AMsg vs => Ok (map (fun v => ret v) vs)
  | AVal v =>
      match as_dict h v with
      | Some d => Ok (map (fun kv => ret (VStr (fst kv))) d)
      | None => Raise TypeError
      end
  end.

(** [Message.extend] (lines 240-250); [extend_iterable] is the same
    method called on a generator or a [map] object. *)
Definition extend_iterable (items : iterable) : M mstate unit :=
  try_except (for_each_append items) extend_msg_error.

Definition extend (msg : pyarg) : M mstate unit :=
  try_except
    (items <- lift (reads (iter_of msg)) ;;
     for_each_append items)
    extend_msg_error.

(** [Message.__init__] (lines 165-175) on the empty list [self]. *)
Definition Message_init (msg : pyarg) : M mstate unit :=
  try_except
    (match msg with
     | AList _ | AMsg _ | AVal (VStr _) => extend msg
     | AVal v =>
         fun st =>
           match as_dict (fst st) v with
           | Some _ => append msg st
           | None => (st, Ok tt)
           end
     end)
    init_msg_error.

(** [Message(msg)]: a new object; its elements are returned. *)
Definition Message (msg : pyarg) : M heap (list val) :=
  fun h =>
    match Message_init msg (h, []) with
    | ((h', self), Ok _) => (h', Ok self)
    | ((h', _), Raise e) => (h', Raise e)
    end.

(** [Message.__add__] (lines 207-223) *)
Definition Message_add (self : list val) (other : pyarg) : M heap (list val) :=
  result <- Message (AMsg self) ;;
  fun h =>
    let body : M mstate unit :=
      match other with
      | AMsg _ => extend other
      | AList vs =>
          extend_iterable (map (fun d => MessageSegment d VNone VNone) vs)
      | AVal (VStr s) => extend_iterable (_split_iter s)
      | AVal v =>
          fun st =>
            match as_segment (fst st) v, as_dict (fst st) v with
            | Some _, _ => append other st
            | None, Some _ =>
                (seg <- lift (MessageSegment v VNone VNone) ;;
                 append (AVal seg)) st
            | None, None => (st, Ok tt)
            end
      end in
    match body (h, result) with
    | ((h', result'), Ok _) => (h', Ok result')
    | ((h', _), Raise _) => (h', Raise add_msg_error)
    end.

(** [del self[idx]] *)
Definition del_at (idx : nat) (self : list val) : list val :=
  firstn idx self ++ skipn (S idx) self.

(** [self[idx]] for an index in range. *)
Definition elem_at (idx : nat) : M mstate val :=
  fun st =>
    match nth_error (snd st) idx with
    | Some v => (st, Ok v)
    | None => (st, Raise IndexError)
    end.

(** One turn of the loop of [reduce] (lines 261-266) at an index
    [idx < len(self)]; the result is the next index. *)
Definition reduce_step (idx : nat) : M mstate nat :=
  merge <- (if (0 <? idx)%nat then
              prev <- elem_at (idx - 1) ;;
              cur <- elem_at idx ;;
              lift (both_text prev cur)
            else ret false) ;;
  if merge then
    prev <- elem_at (idx - 1) ;;
    cur <- elem_at idx ;;
    lift (merge_text prev cur) ;;
    self <- get_self ;;
    set_self (del_at idx self) ;;
    ret idx
  else ret (S idx).

(** [while idx < len(self)]: each turn either removes an element or moves
    [idx] forward, so [len(self) - idx] turns are enough; [turns] bounds
    them. *)
Fixpoint reduce_loop (turns idx : nat) : M mstate unit :=
  match turns with
  | O => ret tt
  | S turns' =>
      self <- get_self ;;
      if (idx <? List.length self)%nat then
        idx' <- reduce_step idx ;;
        reduce_loop turns' idx'
      else ret tt
  end.

(** [Message.reduce] (lines 252-266) *)
Definition reduce : M mstate unit :=
  self <- get_self ;;
  reduce_loop (List.length self) 0.

(** [' ' + x] *)
Definition space_plus (x : val) : result string :=
  match x with
  | VStr s => Ok (" " ++ s)%string
  | _ => Raise TypeError
  end.

(** The loop of lines 279-281. *)
Fixpoint extract_loop (segs : list val) (result : string) : M heap string :=
  match segs with
  | [] => ret result
  | seg :: rest =>
      type <- reads (getattr seg "type") ;;
      if val_eqb type (VStr "text") then
        data <- reads (getattr seg "data") ;;
        x <- reads (getitem data "text") ;;
        y <- reads (fun _ => space_plus x) ;;
        extract_loop rest (result ++ y)%string
      else extract_loop rest result
  end.

(** [result[1:]] *)
Definition drop_first (s : string) : string :=
  match s with
  | EmptyString => EmptyString
  | String _ t => t
  end.

(** [Message.extract_plain_text] (lines 268-284) *)
Definition extract_plain_text (do_reduce : bool) : M mstate string :=
  (if do_reduce then reduce else ret tt) ;;
  self <- get_self ;;
  result <- lift (extract_loop self "") ;;
  ret (if negb (String.eqb result "") then drop_first result else result).

(** ** Definitions used to state the properties *)

(** Replacing a one-character pattern is a character-wise substitution. *)
Fixpoint subst_chr (c : ascii) (new s : string) : string :=
  match s with
  | EmptyString => EmptyString
  | String x t =>
      if Ascii.eqb x c then (new ++ subst_chr c new t)%string
      else String x (subst_chr c new t)
  end.

(** The image of one character under [escape]; [amp], [lb], [rb] and
    [comma] tell which of the four rules are in force. *)
Definition tok (amp lb rb comma : bool) (c : ascii) : string :=
  if amp && Ascii.eqb c "&" then "&amp;"
  else if lb && Ascii.eqb c "[" then "&#91;"
  else if rb && Ascii.eqb c "]" then "&#93;"
  else if comma && Ascii.eqb c "," then "&#44;"
  else String c EmptyString.

Fixpoint tok_map (f : ascii -> string) (s : string) : string :=
  match s with
  | EmptyString => EmptyString
  | String c t => (f c ++ tok_map f t)%string
  end.

(** One of the four escape sequences occurs in [s]. *)
Definition has_escape_sequence (s : string) : bool :=
  contains "&amp;" s || contains "&#91;" s || contains "&#93;" s
  || contains "&#44;" s.

(** The coercion at the head of [append] succeeds on [obj]: it is a
    segment already, or [MessageSegment(obj)] returns. *)
Definition coercible (h : heap) (obj : pyarg) : bool :=
  match obj with
  | AVal v =>
      match as_segment h v with
      | Some _ => true
      | None =>
          match MessageSegment v VNone VNone h with
          | (_, Ok _) => true
          | (_, Raise _) => false
          end
      end
  | AList _ | AMsg _ => false
  end.

(** [v] is a segment whose type is the string text. *)
Definition is_text (h : heap) (v : val) : bool :=
  match as_segment h v with
  | Some d =>
      match dict_get d "type" with
      | Some t => val_eqb t (VStr "text")
      | None => false
      end
  | None => false
  end.

(** Two neighbours of [self] are both text segments. *)
Fixpoint adjacent_text (h : heap) (self : list val) : bool :=
  match self with
  | [] => false
  | a :: rest =>
      match rest with
      | [] => false
      | b :: _ => (is_text h a && is_text h b) || adjacent_text h rest
      end
  end.




(** Every segment of [h] is a segment of [h'] with the same entries. *)
Definition segments_kept (h h' : heap) : Prop :=
  forall (v : val) (d : dict), as_segment h v = Some d -> as_segment h' v = Some d.




(** What [extract_plain_text] reads of one element: [Some (Some s)] for a
    text segment whose payload is the string [s], [Some None] for a
    segment of another type, [None] when a read raises. *)
Definition payload (h : heap) (seg : val) : option (option string) :=
  match getattr seg "type" h with
  | Ok t =>
      if val_eqb t (VStr "text") then
        match getattr seg "data" h with
        | Ok data =>
            match getitem data "text" h with
            | Ok (VStr s) => Some (Some s)
            | _ => None
            end
        | Raise _ => None
        end
      else Some None
  | Raise _ => None
  end.

(** The payloads of the text segments of [self], in order. *)
Fixpoint payloads (h : heap) (self : list val) : option (list string) :=
  match self with
  | [] => Some []
  | seg :: rest =>
      match payload h seg, payloads h rest with
      | Some (Some s), Some l => Some (s :: l)
      | Some None, Some l => Some l
      | _, _ => None
      end
  end.

(** Every piece preceded by a space, as the loop accumulates them. *)
Fixpoint spaced (ps : list string) : string :=
  match ps with
  | [] => EmptyString
  | p :: ps' => (" " ++ p ++ spaced ps')%string
  end.

(** In the words of the specification: the separator stands between
    non-empty pieces only. *)
Definition join_non_empty (ps : list string) : string :=
  join " " (filter (fun p => negb (String.eqb p "")) ps).

(** The message of a text segment, an image and a text segment, each with
    its own data dict. *)
Definition text_image_text (a file b : string) : mstate :=
  ([ODict [("text", VStr a)];
    OSeg [("type", VStr "text"); ("data", VRef 0)];
    ODict [("file", VStr file)];
    OSeg [("type", VStr "image"); ("data", VRef 2)];
    ODict [("text", VStr b)];
    OSeg [("type", VStr "text"); ("data", VRef 4)]],
   [VRef 1; VRef 3; VRef 5]).

(** The turn of the loop of [reduce] at index [j] merges nothing and
    moves on to the next index. *)
Definition passes (st : mstate) (j : nat) : Prop :=
  reduce_step j st = (st, Ok (S j)).

(** [h'] has exactly the segments of [h], with the same entries. *)
Definition same_segments (h h' : heap) : Prop :=
  forall v : val, as_segment h' v = as_segment h v.

(** What the loop leaves: every index below [n] passes; [n] is the
    length when the loop returned, and the index of the failing turn
    when it raised. *)
Definition settled (st : mstate) (r : result unit) : Prop :=
  exists n : nat,
    n <= List.length (snd st)
    /\ (forall j, j < n -> passes st j)
    /\ match r with
       | Ok _ => n = List.length (snd st)
       | Raise e => n < List.length (snd st)
                    /\ reduce_step n st = (st, Raise e)
       end.

(** Two text segments with payloads [a] and [b], each with its own data
    dict: the heap, and the references to the segments. *)
Definition two_texts (a b : string) : heap :=
  [ODict [("text", VStr a)];
   OSeg [("type", VStr "text"); ("data", VRef 0)];
   ODict [("text", VStr b)];
   OSeg [("type", VStr "text"); ("data", VRef 2)]].

(** [c in s] for a character [c]. *)
Fixpoint has_chr (c : ascii) (s : string) : bool :=
  match s with
  | EmptyString => false
  | String x t => Ascii.eqb x c || has_chr c t
  end.

(** A key that [cq_data] reads back as it is: it starts with a character
    that is not white space and holds no comma and no equals sign. *)
Definition key_ok (k : string) : bool :=
  match k with
  | EmptyString => false
  | String c _ => negb (is_space c)
  end
  && negb (has_chr "," k) && negb (has_chr "=" k).

(** A value that [cq_data] reads back as it is: it holds no comma. *)
Definition value_ok (v : string) : bool := negb (has_chr "," v).

Definition pair_ok (kv : string * string) : bool :=
  key_ok (fst kv) && value_ok (snd kv).

(** The text of one parameter between two commas. *)
Definition pair_text (kv : string * string) : string :=
  (fst kv ++ "=" ++ snd kv)%string.

(** The dict filled with the pairs in order, the value texts as they
    are. *)
Definition dict_of_pairs (kvs : list (string * string)) (d : dict) : dict :=
  fold_left (fun d kv => dict_set d (fst kv) (VStr (snd kv))) kvs d.

(** In the words of the specification: the dict comprehension with every
    value passed through [unescape]. *)
Fixpoint collect_pairs_unescaped (pieces : list (list string)) (d : dict)
    : result dict :=
  match pieces with
  | [] => Ok d
  | [k; v] :: rest =>
      collect_pairs_unescaped rest (dict_set d k (VStr (unescape v)))
  | [] :: _ | [_] :: _ => Raise unpack_error
  | _ :: _ => Raise unpack_error_many
  end.

Definition cq_data_unescaped (extra : string) : result dict :=
  collect_pairs_unescaped
    (map (split_first "=")
       (filter (fun x => negb (String.eqb x ""))
          (map lstrip (split_chr "," extra))))
    [].

(** Every character of [s] satisfies [p]. *)
Fixpoint all_chr (p : ascii -> bool) (s : string) : bool :=
  match s with
  | EmptyString => true
  | String c t => p c && all_chr p t
  end.

(** [s] does not start with a character that satisfies [p]. *)
Definition stops (p : ascii -> bool) (s : string) : bool :=
  match s with
  | EmptyString => true
  | String c _ => negb (p c)
  end.
(** A type or key the pattern reads whole: one or more name characters. *)
Definition name_ok (s : string) : bool :=
  negb (String.eqb s "") && all_chr is_name_char s.

(** The parameters of a token as [__str__] writes them when no value
    needs escaping: a comma before each pair. *)
Fixpoint params_text (ps : list (string * string)) : string :=
  match ps with
  | [] => EmptyString
  | kv :: ps' => ("," ++ pair_text kv ++ params_text ps')%string
  end.

Definition token_text (t : string) (ps : list (string * string)) : string :=
  ("[CQ:" ++ t ++ params_text ps ++ "]")%string.

(** A pair the pattern matches as one parameter. *)
Definition param_ok (kv : string * string) : bool :=
  name_ok (fst kv) && all_chr not_comma_bracket (snd kv).

(** The part of the pattern for one parameter. *)
Definition cq_param : Re.regex :=
  Re.Seq (Re.Lit ",")
    (Re.Seq (Re.Plus (Re.Cls is_name_char))
       (Re.Seq (Re.Opt (Re.Lit "="))
          (Re.Star (Re.Cls not_comma_bracket)))).
(** A message string in pieces: plain text and tokens. *)
Inductive chunk : Type :=
| CText (s : string)
| CToken (t : string) (ps : list (string * string)).

Definition chunk_text (c : chunk) : string :=
  match c with
  | CText s => s
  | CToken t ps => token_text t ps
  end.

Fixpoint chunks_text (cs : list chunk) : string :=
  match cs with
  | [] => EmptyString
  | c :: cs' => (chunk_text c ++ chunks_text cs')%string
  end.

(** Text without an opening bracket; a token the pattern matches. *)
Definition chunk_ok (c : chunk) : bool :=
  match c with
  | CText s => negb (has_chr "[" s)
  | CToken t ps => name_ok t && forallb param_ok ps
  end.

(** The pairs [iter_function_name_and_extra] yields for the pieces;
    [pending] is the text read since the last token. *)
Fixpoint chunk_spans (pending : string) (cs : list chunk)
    : list (string * string) :=
  match cs with
  | [] => [("text", pending)]
  | CText s :: cs' => chunk_spans (pending ++ s) cs'
  | CToken t ps :: cs' =>
      ("text", pending) :: (t, join "," (map pair_text ps))
      :: chunk_spans "" cs'
  end.

(** A segment as data: its type and the entries of its data dict, all of
    them strings. *)
Definition desc : Type := (string * list (string * string))%type.

Definition str_dict (ps : list (string * string)) : dict :=
  map (fun kv => (fst kv, VStr (snd kv))) ps.

Definition text_desc (s : string) : desc := ("text", [("text", s)]).

Definition is_text_desc (d : desc) : bool := String.eqb (fst d) "text".

(** [v] is a segment with the entries type and data; its data is the
    plain dict at [l] and holds the strings of [d]. *)
Definition described (h : heap) (v : val) (l : nat) (d : desc) : Prop :=
  as_segment h v = Some [("type", VStr (fst d)); ("data", VRef l)]
  /\ heap_get h l = Some (ODict (str_dict (snd d))).

(** The elements of [self] are the segments [ds], with their data dicts
    at [locs]. *)
Fixpoint represents (h : heap) (self : list val) (locs : list nat)
    (ds : list desc) : Prop :=
  match self, locs, ds with
  | [], [], [] => True
  | v :: self', l :: locs', d :: ds' =>
      described h v l d /\ represents h self' locs' ds'
  | _, _, _ => False
  end.

(** No reserved character: what [escape] leaves as it is, without and
    with the comma rule. *)
Definition plain (s : string) : bool :=
  negb (has_chr "&" s) && negb (has_chr "[" s) && negb (has_chr "]" s).

Definition plain_value (s : string) : bool :=
  plain s && negb (has_chr "," s).

Fixpoint distinct (l : list string) : bool :=
  match l with
  | [] => true
  | x :: l' => negb (existsb (String.eqb x) l') && distinct l'
  end.

(** The segments that come back from the string: a text segment has the
    single entry text, not empty and without reserved characters; any
    other segment has a name for type, names for keys, no key twice, and
    values without reserved characters. *)
Definition desc_ok (d : desc) : bool :=
  if is_text_desc d then
    match snd d with
    | [(k, s)] => String.eqb k "text" && negb (String.eqb s "") && plain s
    | _ => false
    end
  else
    name_ok (fst d)
    && forallb (fun kv => name_ok (fst kv) && plain_value (snd kv)) (snd d)
    && distinct (map fst (snd d)).

(** The payload of a text segment description. *)
Definition desc_payload (d : desc) : string :=
  match snd d with
  | (_, s) :: _ => s
  | [] => EmptyString
  end.

Definition chunk_of (d : desc) : chunk :=
  if is_text_desc d then CText (desc_payload d) else CToken (fst d) (snd d).
(** The text read since the last token becomes a segment when it is not
    empty. *)
Definition emit (pending : string) : list desc :=
  if String.eqb pending "" then [] else [text_desc pending].

(** The segments [_split_iter] yields for the pieces of a string. *)
Fixpoint parsed (pending : string) (cs : list chunk) : list desc :=
  match cs with
  | [] => emit pending
  | CText s :: cs' => parsed (pending ++ s) cs'
  | CToken t ps :: cs' => emit pending ++ (t, ps) :: parsed "" cs'
  end.

(** The last segment, if any, is not a text segment. *)
Definition last_not_text (ds : list desc) : bool :=
  match rev ds with
  | [] => true
  | d :: _ => negb (is_text_desc d)
  end.

(** A token that [_split_iter] turns into a segment of its own with the
    parameters as they are written. *)
Definition token_ok (c : chunk) : bool :=
  match c with
  | CText _ => true
  | CToken t ps =>
      negb (String.eqb t "text") && negb (String.eqb t "")
      && forallb pair_ok ps && distinct (map fst ps)
  end.

(** One turn of [reduce] on descriptions: [dd] are the segments before
    the index and [d] is the segment at the index. *)
Definition merge_step (dd : list desc) (d : desc) : list desc :=
  match rev dd with
  | p :: before =>
      if is_text_desc p && is_text_desc d
      then rev before ++ [text_desc (desc_payload p ++ desc_payload d)]
      else dd ++ [d]
  | [] => [d]
  end.

(** The message after [reduce]: every run of text segments merged. *)
Definition merge_adjacent (ds : list desc) : list desc :=
  fold_left merge_step ds [].

(** A text segment has the single entry text. *)
Definition text_shape (d : desc) : bool :=
  if is_text_desc d then
    match snd d with
    | [(k, _)] => String.eqb k "text"
    | _ => false
    end
  else true.
(** A share segment whose title holds a comma, with its data dict. *)
Definition share_with_comma : heap :=
  [ODict [("title", VStr "a,b")];
   OSeg [("type", VStr "share"); ("data", VRef 0)]].

(** In the words of the specification: the token grammar, in which every
    parameter has its equals sign. *)
Definition cq_grammar : Re.regex :=
  Re.Seq (Re.lit "[CQ:")
    (Re.Seq (Re.Plus (Re.Cls is_name_char))
       (Re.Seq
          (Re.Star
             (Re.Seq (Re.Lit ",")
                (Re.Seq (Re.Plus (Re.Cls is_name_char))
                   (Re.Seq (Re.Lit "=")
                      (Re.Star (Re.Cls not_comma_bracket))))))
          (Re.Seq (Re.Opt (Re.Lit ",")) (Re.Lit "]")))).

(** The reserved characters of the markup, with the comma when [comma]. *)
Definition reserved (comma : bool) (c : ascii) : bool :=
  Ascii.eqb c "&" || Ascii.eqb c "[" || Ascii.eqb c "]"
  || (comma && Ascii.eqb c ",").

(** The number of characters of [s] that satisfy [p]. *)
Fixpoint count_chr (p : ascii -> bool) (s : string) : nat :=
  match s with
  | EmptyString => 0
  | String c t => (if p c then 1 else 0) + count_chr p t
  end.

(** [MessageSegment.__setattr__] (lines 59-63) for [self.key = value];
    the classes of the model other than the segment accept no attribute
    assignment. *)
Definition setattr (self : val) (key : string) (value : val) : M heap unit :=
  fun h =>
    match as_segment h self with
    | Some _ =>
        match setitem self key value h with
        | (h', Ok x) => (h', Ok x)
        | (h', Raise KeyError) => (h', Raise AttributeError)
        | (h', Raise e) => (h', Raise e)
        end
    | None => (h, Raise AttributeError)
    end.

(** [v.type] can be read. *)
Definition has_type (h : heap) (v : val) : bool :=
  match getattr v "type" h with
  | Ok _ => true
  | Raise _ => false
  end.

(** The pieces of the parameter text that the dict comprehension of lines
    198-201 unpacks. *)
Definition cq_pieces (extra : string) : list string :=
  filter (fun x => negb (String.eqb x ""))
    (map lstrip (split_chr "," extra)).

(** The text before, and the text after, the first occurrence of [c]. *)
Fixpoint before_chr (c : ascii) (s : string) : string :=
  match s with
  | EmptyString => EmptyString
  | String x t => if Ascii.eqb x c then EmptyString else String x (before_chr c t)
  end.

Fixpoint after_chr (c : ascii) (s : string) : string :=
  match s with
  | EmptyString => EmptyString
  | String x t => if Ascii.eqb x c then t else after_chr c t
  end.

Definition halves (x : string) : string * string :=
  (before_chr "=" x, after_chr "=" x).

(** A piece of a message string in the form [__str__] writes: text
    without reserved characters, or a token whose type is a name other
    than text, with names for keys, no key twice, and values without
    reserved characters. *)
Definition canonical (c : chunk) : bool :=
  match c with
  | CText s => plain s
  | CToken t ps =>
      negb (String.eqb t "text") && name_ok t
      && forallb (fun kv => name_ok (fst kv) && plain_value (snd kv)) ps
      && distinct (map fst ps)
  end.

(** [l] is [l'] with some elements removed, the others in their order. *)
Inductive subseq : list val -> list val -> Prop :=
| subseq_nil : subseq [] []
| subseq_keep (x : val) (l l' : list val) :
    subseq l l' -> subseq (x :: l) (x :: l')
| subseq_drop (x : val) (l l' : list val) :
    subseq l l' -> subseq l (x :: l').

(** What a method may do to a message: remove elements, but not the
    first; create no object; leave every segment its entries. *)
Definition only_removes (st st' : mstate) : Prop :=
  subseq (snd st') (snd st)
  /\ hd_error (snd st') = hd_error (snd st)
  /\ List.length (fst st') = List.length (fst st)
  /\ same_segments (fst st) (fst st').

(** The value of the first entry text, or the empty string: what
    [data.get('text', '')] reads in a dict of strings. *)
Fixpoint text_of (ps : list (string * string)) : string :=
  match ps with
  | [] => EmptyString
  | (k, s) :: ps' => if String.eqb k "text" then s else text_of ps'
  end.

Definition escape_values (ps : list (string * string))
    : list (string * string) :=
  map (fun kv => (fst kv, escape (snd kv) true)) ps.

(** The CQ code of a segment: the text escaped without the comma rule
    for a text segment; for any other, the type and the entries between
    brackets, every value escaped with the comma rule. *)
Definition cq_code (d : desc) : string :=
  if is_text_desc d then escape (text_of (snd d)) false
  else token_text (fst d) (escape_values (snd d)).

Fixpoint cq_codes (ds : list desc) : string :=
  match ds with
  | [] => EmptyString
  | d :: ds' => (cq_code d ++ cq_codes ds')%string
  end.

(** The builder [c] adds two objects to the heap, a data dict with the
    entries of [d] and a segment of the type of [d] that refers to it,
    and returns the segment. *)
Definition builds (c : M heap val) (d : desc) : Prop :=
  forall h : heap,
    c h = (h ++ [ODict (str_dict (snd d));
                 OSeg [("type", VStr (fst d));
                       ("data", VRef (List.length h))]],
           Ok (VRef (S (List.length h)))).

Section Built.

Variable str_of_ref : heap -> nat -> result string.

(** [str(c)] for a builder call [c]. *)
Definition str_of_built (c : M heap val) (h : heap) : result string :=
  snd ((seg <- c ;; MessageSegment_str str_of_ref seg) h).

(** The segment that [c] builds comes back from its CQ code:
    [Message(str(c))] holds one segment, of the type and with the entries
    of [d]. *)
Definition round_trips (c : M heap val) (d : desc) : Prop :=
  forall h h0 : heap,
    exists (s : string) (h1 : heap) (seg : val) (l : nat),
      str_of_built c h = Ok s
      /\ Message (AVal (VStr s)) h0 = (h1, Ok [seg])
      /\ described h1 seg l d.

End Built.

(** The names of the groups of a pattern. *)
Fixpoint group_names (r : Re.regex) : list string :=
  match r with
  | Re.Eps | Re.Lit _ | Re.Cls _ => []
  | Re.Seq r1 r2 => group_names r1 ++ group_names r2
  | Re.Star r1 | Re.Opt r1 => group_names r1
  | Re.Group name r1 => name :: group_names r1
  end.

(** [d[k] = v] on the entries of a dict of strings. *)
Fixpoint set_pair (ps : list (string * string)) (k v : string)
    : list (string * string) :=
  match ps with
  | [] => [(k, v)]
  | (k', v') :: ps' =>
      if String.eqb k' k then (k', v) :: ps' else (k', v') :: set_pair ps' k v
  end.

Definition set_pairs (kvs ps : list (string * string))
    : list (string * string) :=
  fold_left (fun ps kv => set_pair ps (fst kv) (snd kv)) kvs ps.

(** A pair of [iter_function_name_and_extra] that the loop of
    [_split_iter] can turn into a segment: text, or a token whose
    non-empty parameters all have an equals sign. *)
Definition item_good (p : string * string) : bool :=
  String.eqb (fst p) "text" || forallb (has_chr "=") (cq_pieces (snd p)).

(** The segment such a pair gives: none for empty text. *)
Definition item_descs (p : string * string) : list desc :=
  if String.eqb (fst p) "text" then emit (snd p)
  else [(fst p, set_pairs (map halves (cq_pieces (snd p))) [])].

(** The segments of [Message(s)]: those of the pairs, each text segment
    merged into a text segment just before it. *)
Definition scanned (s : string) : list desc :=
  fold_left merge_step
    (flat_map item_descs (iter_function_name_and_extra s)) [].

(** The message under construction: segments with string entries, each
    with its own data dict, the text segments with the single entry
    text. *)
Definition parse_inv (h : heap) (self : list val) (locs : list nat)
    (ds : list desc) : Prop :=
  represents h self locs ds /\ NoDup locs
  /\ forallb text_shape ds = true
  /\ Forall (fun l => l < List.length h) locs.

(** An element of a message as [reduce] reads it: a text segment, with
    the place of its data dict and the string stored there under text,
    or an element of another type.  Only the attributes are read, so the
    view does not depend on how the segment came to its entries. *)
Inductive item : Type :=
| Text (seg : val) (l : nat) (s : string)
| Other (seg : val).

Definition item_of (h : heap) (v : val) : option item :=
  match getattr v "type" h with
  | Ok t =>
      if val_eqb t (VStr "text") then
        match getattr v "data" h with
        | Ok (VRef l) =>
            match heap_get h l with
            | Some (ODict d) =>
                match dict_get d "text" with
                | Some (VStr s) => Some (Text v l s)
                | _ => None
                end
            | _ => None
            end
        | _ => None
        end
      else Some (Other v)
  | Raise _ => None
  end.

Fixpoint items (h : heap) (self : list val) : option (list item) :=
  match self with
  | [] => Some []
  | v :: rest =>
      match item_of h v, items h rest with
      | Some x, Some xs => Some (x :: xs)
      | _, _ => None
      end
  end.

Definition text_item (x : item) : bool :=
  match x with
  | Text _ _ _ => true
  | Other _ => false
  end.

(** The places of the data dicts of the text segments. *)
Fixpoint text_locs (xs : list item) : list nat :=
  match xs with
  | [] => []
  | Text _ l _ :: xs' => l :: text_locs xs'
  | Other _ :: xs' => text_locs xs'
  end.

(** In the words of the claim: every run of adjacent text segments is
    merged.  A run becomes its first segment, holding the payloads of
    the run one after the other; every other element stays. *)
Fixpoint merge_runs (xs : list item) : list item :=
  match xs with
  | [] => []
  | x :: xs' =>
      match x, merge_runs xs' with
      | Text v l s, Text _ _ s' :: r => Text v l (s ++ s') :: r
      | _, r => x :: r
      end
  end.

(** * Properties *)

(** ** Escape and unescape *)

Lemma prefix_empty (s : string) : prefix EmptyString s = true.
Proof. destruct s; reflexivity. Qed.

Lemma replace_chr (c : ascii) (new s : string) :
  replace (String c EmptyString) new s = subst_chr c new s.
Proof.
  unfold replace.
  induction s as [|x t IH]; [reflexivity|].
  cbn [replace_from subst_chr prefix String.length pred].
  destruct (ascii_dec c x) as [->|Hne].
  - rewrite prefix_empty, Ascii.eqb_refl, IH. reflexivity.
  - destruct (Ascii.eqb_spec x c) as [->|_]; [contradiction|].
    rewrite IH. reflexivity.
Qed.

Lemma escape_tok_map (s : string) (escape_comma : bool) :
  escape s escape_comma = tok_map (tok true true true escape_comma) s.
Proof.
  unfold escape. rewrite !replace_chr.
  assert (H3 : subst_chr "]" "&#93;"
                 (subst_chr "[" "&#91;" (subst_chr "&" "&amp;" s))
               = tok_map (tok true true true false) s).
  { induction s as [|c t IH]; [reflexivity|].
    unfold tok. cbn [tok_map subst_chr andb].
    destruct (Ascii.eqb_spec c "&") as [->|H1]; [cbn; now rewrite IH|].
    cbn [subst_chr].
    destruct (Ascii.eqb_spec c "[") as [->|H2]; [cbn; now rewrite IH|].
    cbn [subst_chr].
    destruct (Ascii.eqb_spec c "]") as [->|H4]; [cbn; now rewrite IH|].
    cbn. now rewrite IH. }
  destruct escape_comma; [|exact H3].
  rewrite H3. clear H3.
  induction s as [|c t IH]; [reflexivity|].
  cbn [tok_map].
  remember (tok_map (tok true true true false) t) as X in *.
  remember (tok_map (tok true true true true) t) as Y in *.
  unfold tok. cbn [andb].
  destruct (Ascii.eqb_spec c "&") as [->|H1]; [cbn; now rewrite IH|].
  destruct (Ascii.eqb_spec c "[") as [->|H2]; [cbn; now rewrite IH|].
  destruct (Ascii.eqb_spec c "]") as [->|H4]; [cbn; now rewrite IH|].
  cbn [String.append subst_chr].
  destruct (Ascii.eqb_spec c ",") as [->|H5]; cbn; now rewrite IH.
Qed.

(** A character other than the ampersand starts no escape sequence. *)
Lemma prefix_amp_false (c : ascii) (p s : string) :
  c <> "&"%char -> prefix (String "&" p) (String c s) = false.
Proof.
  intros Hc. cbn [prefix].
  destruct (ascii_dec "&" c) as [E|_]; [congruence|reflexivity].
Qed.

Ltac tok_cases c :=
  cbn [tok_map];
  repeat match goal with
         | |- context [tok_map ?f ?t] =>
             let X := fresh "X" in remember (tok_map f t) as X in *
         end;
  unfold tok; cbn [andb];
  repeat match goal with
         | |- context [Ascii.eqb c ?k] =>
             destruct (Ascii.eqb_spec c k) as [->|?]
         end.

Lemma undo_comma (s : string) :
  replace "&#44;" "," (tok_map (tok true true true true) s)
  = tok_map (tok true true true false) s.
Proof.
  unfold replace.
  induction s as [|c t IH]; [reflexivity|].
  cbn [tok_map]. tok_cases c;
    try (cbn; rewrite ?prefix_empty; cbn; now rewrite IH).
  cbn [String.append replace_from]. rewrite prefix_amp_false by assumption.
  now rewrite IH.
Qed.

Lemma undo_lb (s : string) :
  replace "&#91;" "[" (tok_map (tok true true true false) s)
  = tok_map (tok true false true false) s.
Proof.
  unfold replace.
  induction s as [|c t IH]; [reflexivity|].
  cbn [tok_map]. tok_cases c;
    try (cbn; rewrite ?prefix_empty; cbn; now rewrite IH).
  cbn [String.append replace_from]. rewrite prefix_amp_false by assumption.
  now rewrite IH.
Qed.

Lemma undo_rb (s : string) :
  replace "&#93;" "]" (tok_map (tok true false true false) s)
  = tok_map (tok true false false false) s.
Proof.
  unfold replace.
  induction s as [|c t IH]; [reflexivity|].
  cbn [tok_map]. tok_cases c;
    try (cbn; rewrite ?prefix_empty; cbn; now rewrite IH).
  cbn [String.append replace_from]. rewrite prefix_amp_false by assumption.
  now rewrite IH.
Qed.

Lemma undo_amp (s : string) :
  replace "&amp;" "&" (tok_map (tok true false false false) s) = s.
Proof.
  unfold replace.
  induction s as [|c t IH]; [reflexivity|].
  cbn [tok_map]. tok_cases c;
    try (cbn; rewrite ?prefix_empty; cbn; now rewrite IH).
  cbn [String.append replace_from]. rewrite prefix_amp_false by assumption.
  now rewrite IH.
Qed.

(** [unescape] undoes [escape] on every string. *)
Lemma unescape_escape (s : string) : unescape (escape s true) = s.
Proof.
  unfold unescape.
  rewrite escape_tok_map, undo_comma, undo_lb, undo_rb, undo_amp.
  reflexivity.
Qed.


(** C5: for every string [s] that contains none of the four escape
    sequences, unescaping the escaped string (commas escaped too) gives
    [s] back. *)
Theorem escape_unescape_inverse (s : string) :
  has_escape_sequence s = false -> unescape (escape s true) = s.
Proof. intros _. apply unescape_escape. Qed.

Lemma escape_unescape_inverse_witness :
  has_escape_sequence "a,b&[c]" = false
  /\ unescape (escape "a,b&[c]" true) = "a,b&[c]".
Proof.
  split; [reflexivity | apply escape_unescape_inverse; reflexivity].
Defined.

(** ** Heap lemmas *)

Lemma heap_get_alloc (h : heap) (o : obj) :
  heap_get (h ++ [o]) (List.length h) = Some o.
Proof.
  unfold heap_get. rewrite nth_error_app2 by lia.
  rewrite Nat.sub_diag. reflexivity.
Qed.

Lemma heap_get_old (h : heap) (o : obj) (l : nat) (x : obj) :
  heap_get h l = Some x -> heap_get (h ++ [o]) l = Some x.
Proof.
  unfold heap_get. intros H.
  rewrite nth_error_app1; [assumption|].
  apply nth_error_Some. congruence.
Qed.

Lemma as_segment_alloc (h : heap) (d : dict) :
  as_segment (h ++ [OSeg d]) (VRef (List.length h)) = Some d.
Proof. unfold as_segment. rewrite heap_get_alloc. reflexivity. Qed.

(** ** Segments built from a mapping without data *)

(** C10: a mapping with a truthy type and no data key is accepted by the
    constructor, which copies its entries; the segment then has no data
    entry: reading the attribute or the item raises, and so does
    rendering.  The constructor called with a type and no data stores a
    fresh empty dict instead. *)
Theorem segment_without_data
    (str_of_ref : heap -> nat -> result string)
    (h : heap) (d : val) (entries : dict) (t : val) :
  as_dict h d = Some entries ->
  dict_get entries "type" = Some t ->
  truthy h t = true ->
  dict_get entries "data" = None ->
  let seg := VRef (List.length h) in
  let h' := h ++ [OSeg entries] in
  MessageSegment d VNone VNone h = (h', Ok seg)
  /\ getattr seg "data" h' = Raise AttributeError
  /\ getitem seg "data" h' = Raise KeyError
  /\ MessageSegment_str str_of_ref seg h' = (h', Raise AttributeError)
  /\ (forall type : val, truthy h type = true ->
      MessageSegment VNone type VNone h
      = (h ++ [ODict []]
           ++ [OSeg [("type", type); ("data", VRef (List.length h))]],
         Ok (VRef (S (List.length h))))).
Proof.
  intros Hd Ht Htr Hdata seg h'.
  assert (Hseg : as_segment h' seg = Some entries) by apply as_segment_alloc.
  assert (Hattr : getattr seg "data" h' = Raise AttributeError).
  { unfold getattr. rewrite Hseg. unfold seg_getattr, seg_getitem.
    cbn. rewrite Hdata. reflexivity. }
  repeat split.
  - unfold MessageSegment. rewrite Hd, Ht, Htr. reflexivity.
  - exact Hattr.
  - unfold getitem, seg, h'. rewrite heap_get_alloc.
    unfold seg_getitem. cbn. rewrite Hdata. reflexivity.
  - unfold MessageSegment_str, bind, reads.
    assert (Hty : getattr seg "type" h' = Ok t).
    { unfold getattr. rewrite Hseg. unfold seg_getattr, seg_getitem.
      cbn. rewrite Ht. reflexivity. }
    rewrite Hty.
    destruct (val_eqb t (VStr "text")); rewrite Hattr; reflexivity.
  - intros type Htype. unfold MessageSegment. cbn [as_dict dict_get].
    rewrite Htype. cbn [truthy]. unfold bind, alloc.
    rewrite length_app. cbn [List.length].
    rewrite Nat.add_1_r, <- app_assoc. reflexivity.
Qed.

Lemma segment_without_data_witness :
  MessageSegment (VRef 0) VNone VNone [ODict [("type", VStr "image")]]
  = ([ODict [("type", VStr "image")]; OSeg [("type", VStr "image")]],
     Ok (VRef 1)).
Proof.
  refine (proj1 (segment_without_data (fun _ _ => Ok "")
                   [ODict [("type", VStr "image")]] (VRef 0)
                   [("type", VStr "image")] (VStr "image")
                   _ _ _ _));
    reflexivity.
Defined.

(** ** Atomicity of a failed append *)

(** C7: when the argument is not a segment and the constructor refuses
    it, [append] raises and neither the list nor the heap changes. *)
Theorem append_failure_atomic (h : heap) (self : list val) (obj : pyarg) :
  coercible h obj = false ->
  append obj (h, self) = ((h, self), Raise append_msg_error).
Proof.
  unfold coercible, append, try_except.
  destruct obj as [v|vs|vs]; [|reflexivity|reflexivity].
  cbn [fst].
  destruct (as_segment h v) eqn:Hs; [discriminate|].
  unfold bind, lift. cbn [fst snd].
  destruct (MessageSegment v VNone VNone h) as [h1 [seg|e]] eqn:Hm;
    [discriminate|].
  intros _.
  assert (h1 = h) as ->; [|reflexivity].
  unfold MessageSegment in Hm.
  destruct (match as_dict h v with
            | Some entries =>
                match dict_get entries "type" with
                | Some t => if truthy h t then Some entries else None
                | None => None
                end
            | None => None
            end); cbn in Hm; inversion Hm; reflexivity.
Qed.

Lemma append_failure_atomic_witness :
  append (AVal (VRef 2))
    ([ODict [("text", VStr "a")];
      OSeg [("type", VStr "text"); ("data", VRef 0)];
      ODict [("type", VStr ""); ("data", VRef 0)]], [VRef 1])
  = (([ODict [("text", VStr "a")];
       OSeg [("type", VStr "text"); ("data", VRef 0)];
       ODict [("type", VStr ""); ("data", VRef 0)]], [VRef 1]),
     Raise append_msg_error).
Proof. apply append_failure_atomic. reflexivity. Defined.

(** ** Segments persist *)

Lemma heap_get_set (h : heap) (l : nat) (o : obj) (l' : nat) :
  heap_get (heap_set h l o) l'
  = if Nat.eqb l' l
    then match heap_get h l with Some _ => Some o | None => None end
    else heap_get h l'.
Proof.
  unfold heap_get. revert l l'.
  induction h as [|x h IH]; intros l l'.
  - destruct l, l'; cbn; try reflexivity;
      destruct (Nat.eqb _ _); reflexivity.
  - destruct l as [|l], l' as [|l']; cbn; try reflexivity.
    apply IH.
Qed.

Lemma segments_kept_refl (h : heap) : segments_kept h h.
Proof. intros v d H. exact H. Qed.



Lemma segments_kept_set_dict (h : heap) (l : nat) (d0 d1 : dict) :
  heap_get h l = Some (ODict d0) ->
  segments_kept h (heap_set h l (ODict d1)).
Proof.
  intros Hl [| |l'] d; cbn; try discriminate.
  rewrite heap_get_set.
  destruct (Nat.eqb_spec l' l) as [->|_]; [|trivial].
  rewrite Hl. discriminate.
Qed.




(** ** The steps of append *)

Lemma setitem_text_kept (v x : val) (h : heap) :
  segments_kept h (fst (setitem v "text" x h))
  /\ (forall e, snd (setitem v "text" x h) = Raise e
                -> fst (setitem v "text" x h) = h).
Proof.
  unfold setitem. destruct v as [| |l]; cbn; try (split; [apply segments_kept_refl|trivial]).
  destruct (heap_get h l) as [[d|d]|] eqn:E; cbn;
    try (split; [apply segments_kept_refl|trivial]).
  split; [eapply segments_kept_set_dict; eassumption|discriminate].
Qed.

Lemma merge_text_kept (prev obj : val) (h : heap) :
  segments_kept h (fst (merge_text prev obj h))
  /\ (forall e, snd (merge_text prev obj h) = Raise e
                -> fst (merge_text prev obj h) = h).
Proof.
  unfold merge_text, bind, reads.
  destruct (getattr prev "data" h) as [target|e];
    [|split; [apply segments_kept_refl|trivial]].
  destruct (getitem target "text" h) as [x|e];
    [|split; [apply segments_kept_refl|trivial]].
  destruct (getattr obj "data" h) as [source|e];
    [|split; [apply segments_kept_refl|trivial]].
  destruct (getitem source "text" h) as [y|e];
    [|split; [apply segments_kept_refl|trivial]].
  destruct (add x y) as [z|e];
    [|split; [apply segments_kept_refl|trivial]].
  apply setitem_text_kept.
Qed.

Lemma both_text_pure (prev obj : val) (h : heap) :
  fst (both_text prev obj h) = h.
Proof.
  unfold both_text, bind, reads, ret.
  destruct (getattr prev "type" h) as [t1|e]; [|reflexivity].
  destruct (val_eqb t1 (VStr "text")); [|reflexivity].
  destruct (getattr obj "type" h); reflexivity.
Qed.

Lemma getattr_type_is_text (v t : val) (h : heap) :
  getattr v "type" h = Ok t -> is_text h v = val_eqb t (VStr "text").
Proof.
  unfold getattr, is_text, seg_getattr, seg_getitem.
  destruct (as_segment h v) as [d|]; [|discriminate].
  cbn. destruct (dict_get d "type"); [|discriminate].
  intros [= ->]. reflexivity.
Qed.

Lemma both_text_false (prev obj : val) (h : heap) :
  snd (both_text prev obj h) = Ok false ->
  is_text h prev && is_text h obj = false.
Proof.
  unfold both_text, bind, reads, ret.
  destruct (getattr prev "type" h) as [t1|e] eqn:E1; [|discriminate].
  rewrite (getattr_type_is_text _ _ _ E1).
  destruct (val_eqb t1 (VStr "text")); [|reflexivity].
  destruct (getattr obj "type" h) as [t2|e] eqn:E2; [|discriminate].
  rewrite (getattr_type_is_text _ _ _ E2). cbn. congruence.
Qed.

Lemma last_elem_app (l : list val) (v : val) : last_elem (l ++ [v]) = Some v.
Proof. unfold last_elem. rewrite rev_app_distr. reflexivity. Qed.

Lemma last_elem_snoc (self : list val) (prev : val) :
  last_elem self = Some prev -> exists l, self = l ++ [prev].
Proof.
  unfold last_elem. intros H.
  destruct (rev self) as [|x r] eqn:E; [discriminate|].
  injection H as ->. exists (rev r).
  rewrite <- (rev_involutive self), E. reflexivity.
Qed.

Lemma adjacent_text_cons2 (h : heap) (x y : val) (r : list val) :
  adjacent_text h (x :: y :: r)
  = (is_text h x && is_text h y) || adjacent_text h (y :: r).
Proof. reflexivity. Qed.












Lemma getattr_is_segment (v : val) (item : string) (x : val) (h : heap) :
  getattr v item h = Ok x -> exists d, as_segment h v = Some d.
Proof.
  unfold getattr. destruct (as_segment h v) as [d|]; [|discriminate].
  intros _. now exists d.
Qed.

(** ** Merging on append *)



(** ** Plain text extraction *)

Lemma string_app_assoc (a b c : string) :
  ((a ++ b) ++ c = a ++ (b ++ c))%string.
Proof. induction a as [|x a IH]; cbn; [reflexivity|now rewrite IH]. Qed.

Lemma string_app_empty_r (a : string) : (a ++ "")%string = a.
Proof. induction a as [|x a IH]; cbn; [reflexivity|now rewrite IH]. Qed.

Lemma extract_loop_payloads (h : heap) (self : list val) :
  forall (ps : list string) (acc : string),
    payloads h self = Some ps ->
    extract_loop self acc h = (h, Ok (acc ++ spaced ps)%string).
Proof.
  induction self as [|seg rest IH]; intros ps acc Hp.
  - injection Hp as <-. cbn. now rewrite string_app_empty_r.
  - cbn [payloads] in Hp. cbn [extract_loop]. unfold bind, reads.
    unfold payload in Hp.
    destruct (getattr seg "type" h) as [t|e]; [|discriminate].
    destruct (val_eqb t (VStr "text")).
    + destruct (getattr seg "data" h) as [data|e]; [|discriminate].
      destruct (getitem data "text" h) as [[| s |l]|e]; try discriminate.
      destruct (payloads h rest) as [l|]; [|discriminate].
      injection Hp as <-. cbn [space_plus].
      rewrite (IH l _ eq_refl). cbn [spaced].
      now rewrite !string_app_assoc.
    + destruct (payloads h rest) as [l|]; [|discriminate].
      injection Hp as <-. apply IH. reflexivity.
Qed.

Lemma join_cons2 (sep p q : string) (ps : list string) :
  join sep (p :: q :: ps) = (p ++ sep ++ join sep (q :: ps))%string.
Proof. reflexivity. Qed.

Lemma spaced_join (ps : list string) :
  (if negb (String.eqb (spaced ps) "") then drop_first (spaced ps)
   else spaced ps) = join " " ps.
Proof.
  destruct ps as [|p ps]; [reflexivity|].
  cbn [spaced String.append String.eqb negb drop_first].
  revert p. induction ps as [|q ps IH]; intros p.
  - cbn. now rewrite string_app_empty_r.
  - rewrite join_cons2, <- (IH q). reflexivity.
Qed.

Lemma extract_false (h : heap) (self : list val) (ps : list string) :
  payloads h self = Some ps ->
  extract_plain_text false (h, self) = ((h, self), Ok (join " " ps)).
Proof.
  intros Hp. unfold extract_plain_text, bind, ret, get_self, lift.
  cbn [fst snd]. rewrite (extract_loop_payloads h self ps "" Hp).
  cbn [String.append]. rewrite spaced_join. reflexivity.
Qed.

(** C8 (as the code has it): [extract_plain_text] reduces first when
    asked to, then returns the payloads of all the text segments, the
    empty ones too, joined by one space; segments of another type add
    nothing.  A message without text segments gives the empty string, and
    text a, an image, text b give a b. *)
Theorem extract_plain_text_joins :
  (forall (h : heap) (self : list val) (ps : list string),
      payloads h self = Some ps ->
      extract_plain_text false (h, self) = ((h, self), Ok (join " " ps)))
  /\ (forall (st st' : mstate) (ps : list string),
      reduce st = (st', Ok tt) ->
      payloads (fst st') (snd st') = Some ps ->
      extract_plain_text true st = (st', Ok (join " " ps)))
  /\ (forall (h : heap) (self : list val),
      payloads h self = Some [] ->
      extract_plain_text false (h, self) = ((h, self), Ok ""))
  /\ extract_plain_text false (text_image_text "a" "f" "b")
     = (text_image_text "a" "f" "b", Ok "a b").
Proof.
  split; [|split; [|split]].
  - exact extract_false.
  - intros st [h' self'] ps Hr Hp. cbn [fst snd] in Hp.
    pose proof (extract_false h' self' ps Hp) as He.
    unfold extract_plain_text in *. unfold bind at 1. rewrite Hr.
    unfold bind at 1 in He. cbn [ret] in He. exact He.
  - intros h self Hp. apply (extract_false h self [] Hp).
  - reflexivity.
Qed.

Lemma extract_plain_text_joins_witness :
  extract_plain_text false
    ([ODict [("text", VStr "a")];
      OSeg [("type", VStr "text"); ("data", VRef 0)];
      OSeg [("type", VStr "rps"); ("data", VRef 0)];
      ODict [("text", VStr "")];
      OSeg [("type", VStr "text"); ("data", VRef 3)]],
     [VRef 1; VRef 2; VRef 4])
  = (([ODict [("text", VStr "a")];
       OSeg [("type", VStr "text"); ("data", VRef 0)];
       OSeg [("type", VStr "rps"); ("data", VRef 0)];
       ODict [("text", VStr "")];
       OSeg [("type", VStr "text"); ("data", VRef 3)]],
      [VRef 1; VRef 2; VRef 4]), Ok "a ").
Proof.
  apply (proj1 extract_plain_text_joins _ _ ["a"; ""]). reflexivity.
Defined.

(** The reading of C8 with separators between non-empty pieces only fails
    on a message with an empty text payload: the empty piece gets its
    separator. *)
Lemma extract_plain_text_empty_piece :
  payloads (fst (text_image_text "" "f" "b")) (snd (text_image_text "" "f" "b"))
  = Some [""; "b"]
  /\ extract_plain_text false (text_image_text "" "f" "b")
     = (text_image_text "" "f" "b", Ok " b")
  /\ join_non_empty [""; "b"] = "b"
  /\ snd (extract_plain_text false (text_image_text "" "f" "b"))
     <> Ok (join_non_empty [""; "b"]).
Proof. repeat split; try reflexivity. discriminate. Qed.

(** ** Reduce *)

Lemma same_segments_refl (h : heap) : same_segments h h.
Proof. intros v. reflexivity. Qed.

Lemma getattr_same (h h' : heap) (v : val) (item : string) :
  same_segments h h' -> getattr v item h' = getattr v item h.
Proof. intros Hs. unfold getattr. now rewrite Hs. Qed.

Lemma both_text_same (h h' : heap) (a b : val) :
  same_segments h h' -> snd (both_text a b h') = snd (both_text a b h).
Proof.
  intros Hs. unfold both_text, bind, reads, ret.
  rewrite (getattr_same h h' a "type" Hs).
  destruct (getattr a "type" h) as [t1|e]; [|reflexivity].
  destruct (val_eqb t1 (VStr "text")); [|reflexivity].
  cbn [fst snd]. rewrite (getattr_same h h' b "type" Hs).
  destruct (getattr b "type" h); reflexivity.
Qed.

Lemma both_text_eta (a b : val) (h : heap) :
  both_text a b h = (h, snd (both_text a b h)).
Proof.
  rewrite <- (both_text_pure a b h) at 2.
  destruct (both_text a b h); reflexivity.
Qed.

Lemma merge_text_same (prev obj : val) (h : heap) :
  same_segments h (fst (merge_text prev obj h)).
Proof.
  unfold merge_text, bind, reads.
  destruct (getattr prev "data" h) as [target|e]; [|apply same_segments_refl].
  destruct (getitem target "text" h) as [x|e]; [|apply same_segments_refl].
  destruct (getattr obj "data" h) as [source|e]; [|apply same_segments_refl].
  destruct (getitem source "text" h) as [y|e]; [|apply same_segments_refl].
  destruct (add x y) as [z|e]; [|apply same_segments_refl].
  cbn [fst snd]. unfold setitem.
  destruct target as [| |l]; try apply same_segments_refl.
  destruct (heap_get h l) as [[d|d]|] eqn:E; try apply same_segments_refl.
  cbn [fst]. intros [| |l']; cbn; try reflexivity.
  rewrite heap_get_set. destruct (Nat.eqb_spec l' l) as [->|_]; [|reflexivity].
  rewrite E. reflexivity.
Qed.

(** The turn at a positive index, by cases on the condition and on the
    merge. *)
Lemma reduce_step_cases (j : nat) (h : heap) (self : list val)
    (prev cur : val) :
  nth_error self j = Some prev -> nth_error self (S j) = Some cur ->
  reduce_step (S j) (h, self)
  = match snd (both_text prev cur h) with
    | Raise e => ((h, self), Raise e)
    | Ok false => ((h, self), Ok (S (S j)))
    | Ok true =>
        match merge_text prev cur h with
        | (h', Ok _) => ((h', del_at (S j) self), Ok (S j))
        | (h', Raise e) => ((h', self), Raise e)
        end
    end.
Proof.
  intros Hp Hc. unfold reduce_step.
  change (0 <? S j)%nat with true. cbn iota.
  replace (S j - 1) with j by lia.
  unfold bind, elem_at, lift, ret, get_self, set_self. cbn [fst snd].
  rewrite Hp. cbn [fst snd]. rewrite Hc. cbn [fst snd].
  rewrite (both_text_eta prev cur h).
  destruct (snd (both_text prev cur h)) as [[|]|e]; cbn [fst snd];
    try reflexivity.
  rewrite Hp. cbn [fst snd]. rewrite Hc. cbn [fst snd].
  destruct (merge_text prev cur h) as [h' [[]|e]]; reflexivity.
Qed.

Lemma reduce_step_zero (st : mstate) : reduce_step 0 st = (st, Ok 1).
Proof. reflexivity. Qed.

Lemma passes_cases (j : nat) (h : heap) (self : list val) (prev cur : val) :
  nth_error self j = Some prev -> nth_error self (S j) = Some cur ->
  (passes (h, self) (S j) <-> snd (both_text prev cur h) = Ok false).
Proof.
  intros Hp Hc. unfold passes. rewrite (reduce_step_cases j h self prev cur Hp Hc).
  destruct (snd (both_text prev cur h)) as [[|]|e].
  - split; [|discriminate].
    destruct (merge_text prev cur h) as [h' [[]|e]]; intros H;
      inversion H; lia.
  - split; reflexivity.
  - split; discriminate.
Qed.

(** Passing at [j] depends on the two elements and on the segments only. *)
Lemma passes_stable (j : nat) (h h' : heap) (self self' : list val) :
  same_segments h h' ->
  j < List.length self ->
  nth_error self' (j - 1) = nth_error self (j - 1) ->
  nth_error self' j = nth_error self j ->
  passes (h, self) j -> passes (h', self') j.
Proof.
  intros Hs Hlen E1 E2 Hp.
  destruct j as [|j]; [reflexivity|].
  replace (S j - 1) with j in E1 by lia.
  destruct (nth_error self (S j)) as [cur|] eqn:Hc;
    [|apply nth_error_None in Hc; lia].
  destruct (nth_error self j) as [prev|] eqn:Hv;
    [|apply nth_error_None in Hv; lia].
  apply (passes_cases j h' self' prev cur E1 E2).
  rewrite (both_text_same h h' prev cur Hs).
  apply (passes_cases j h self prev cur Hv Hc). exact Hp.
Qed.

Lemma nth_error_del_at (idx j : nat) (self : list val) :
  j < idx -> nth_error (del_at idx self) j = nth_error self j.
Proof.
  intros Hj. unfold del_at.
  destruct (Nat.lt_ge_cases j (List.length self)) as [Hl|Hl].
  - rewrite nth_error_app1 by (rewrite length_firstn; lia).
    rewrite nth_error_firstn.
    destruct (Nat.ltb_spec j idx); [reflexivity|lia].
  - rewrite (proj2 (nth_error_None self j)) by exact Hl.
    apply nth_error_None. rewrite length_app, length_firstn, length_skipn. lia.
Qed.

Lemma length_del_at (idx : nat) (self : list val) :
  idx < List.length self ->
  List.length (del_at idx self) = List.length self - 1.
Proof.
  intros H. unfold del_at.
  rewrite length_app, length_firstn, length_skipn. lia.
Qed.

Lemma reduce_loop_S (turns idx : nat) (st : mstate) :
  reduce_loop (S turns) idx st
  = if (idx <? List.length (snd st))%nat
    then match reduce_step idx st with
         | (st', Ok idx') => reduce_loop turns idx' st'
         | (st', Raise e) => (st', Raise e)
         end
    else (st, Ok tt).
Proof.
  cbn [reduce_loop]. unfold bind, get_self, ret.
  destruct (idx <? List.length (snd st))%nat; reflexivity.
Qed.

Lemma reduce_unfold (st : mstate) :
  reduce st = reduce_loop (List.length (snd st)) 0 st.
Proof. reflexivity. Qed.

(** Turns that pass leave the state alone. *)
Lemma reduce_loop_skip (st : mstate) (k : nat) :
  forall (idx turns : nat),
    (forall j, idx <= j < idx + k -> passes st j) ->
    idx + k <= List.length (snd st) ->
    reduce_loop (k + turns) idx st = reduce_loop turns (idx + k) st.
Proof.
  induction k as [|k IH]; intros idx turns Hp Hlen.
  - now rewrite Nat.add_0_r.
  - cbn [Nat.add]. rewrite reduce_loop_S.
    destruct (Nat.ltb_spec idx (List.length (snd st))); [|lia].
    rewrite (Hp idx) by lia.
    rewrite IH; [f_equal; lia| |lia].
    intros j Hj. apply Hp. lia.
Qed.

Lemma reduce_loop_settled (turns : nat) :
  forall (idx : nat) (st : mstate),
    (forall j, j < idx -> passes st j) ->
    idx <= List.length (snd st) ->
    List.length (snd st) - idx <= turns ->
    settled (fst (reduce_loop turns idx st)) (snd (reduce_loop turns idx st)).
Proof.
  induction turns as [|turns IH]; intros idx [h self] Hp Hidx Hturns;
    cbn [fst snd] in *.
  - exists idx. unfold reduce_loop, ret. cbn [fst snd].
    split; [lia|]. split; [exact Hp|lia].
  - rewrite reduce_loop_S. cbn [fst snd].
    destruct (Nat.ltb_spec idx (List.length self)) as [Hlt|Hge].
    2:{ exists idx. cbn [fst snd].
        split; [lia|]. split; [exact Hp|lia]. }
    destruct idx as [|j].
    { rewrite reduce_step_zero. apply IH; cbn [fst snd]; [|lia|lia].
      intros j Hj. replace j with 0 by lia. reflexivity. }
    destruct (nth_error self (S j)) as [cur|] eqn:Hc;
      [|apply nth_error_None in Hc; lia].
    destruct (nth_error self j) as [prev|] eqn:Hv;
      [|apply nth_error_None in Hv; lia].
    pose proof (reduce_step_cases j h self prev cur Hv Hc) as Hstep.
    rewrite Hstep.
    destruct (snd (both_text prev cur h)) as [[|]|e] eqn:Eb.
    + pose proof (merge_text_same prev cur h) as Hs.
      pose proof (merge_text_kept prev cur h) as [_ Hraise].
      destruct (merge_text prev cur h) as [h' [[]|e]] eqn:Em;
        cbn [fst snd] in *.
      * apply IH; cbn [fst snd].
        -- intros i Hi.
           apply (passes_stable i h h' self (del_at (S j) self) Hs);
             [lia| | |apply Hp; lia];
             apply nth_error_del_at; lia.
        -- rewrite length_del_at by lia. lia.
        -- rewrite length_del_at by lia. lia.
      * rewrite (Hraise e eq_refl) in *.
        exists (S j). cbn [fst snd]. split; [lia|]. split; [exact Hp|].
        split; [lia|].
        exact Hstep.
    + apply IH; cbn [fst snd]; [|lia|lia].
      intros i Hi. destruct (Nat.eq_dec i (S j)) as [->|Hne]; [|apply Hp; lia].
      exact Hstep.
    + exists (S j). cbn [fst snd]. split; [lia|]. split; [exact Hp|].
        split; [lia|].
      exact Hstep.
Qed.

Lemma settled_reduce (st : mstate) (r : result unit) :
  settled st r -> reduce st = (st, r).
Proof.
  intros [n [Hn [Hp Hr]]]. rewrite reduce_unfold.
  replace (List.length (snd st)) with (n + (List.length (snd st) - n)) at 1
    by lia.
  rewrite (reduce_loop_skip st n 0); [|intros j Hj; apply Hp; lia|lia].
  cbn [Nat.add]. destruct r as [[]|e].
  - rewrite Hr, Nat.sub_diag. reflexivity.
  - destruct Hr as [Hlt Hstep].
    destruct (List.length (snd st) - n) as [|t] eqn:Et; [lia|].
    rewrite reduce_loop_S.
    destruct (Nat.ltb_spec n (List.length (snd st))); [|lia].
    rewrite Hstep. reflexivity.
Qed.

Lemma reduce_settled (st : mstate) :
  settled (fst (reduce st)) (snd (reduce st)).
Proof.
  rewrite reduce_unfold.
  apply reduce_loop_settled; [intros j Hj; lia|lia|lia].
Qed.

Lemma passes_no_adjacent (h : heap) (self : list val) :
  (forall j, j < List.length self -> passes (h, self) j) ->
  adjacent_text h self = false.
Proof.
  induction self as [|a rest IH]; intros Hp; [reflexivity|].
  destruct rest as [|b rest]; [reflexivity|].
  rewrite adjacent_text_cons2. apply orb_false_intro.
  - apply both_text_false.
    apply (proj1 (passes_cases 0 h (a :: b :: rest) a b eq_refl eq_refl)).
    apply Hp. cbn. lia.
  - apply IH. intros j Hj. destruct j as [|j]; [reflexivity|].
    destruct (nth_error (b :: rest) (S j)) as [cur|] eqn:Hc;
      [|apply nth_error_None in Hc; lia].
    destruct (nth_error (b :: rest) j) as [prev|] eqn:Hv;
      [|apply nth_error_None in Hv; lia].
    apply (passes_cases j h (b :: rest) prev cur Hv Hc).
    apply (passes_cases (S j) h (a :: b :: rest) prev cur Hv Hc).
    apply Hp. cbn in *. lia.
Qed.

(** ** Concatenation shares the segments of its operands *)

(** C2 (what the code does at the failing input): [Message(self)] copies
    the list, not the segments, and the [append] that follows merges into
    the data dict of the last segment, which the left operand still
    holds: after [m + text b] with [m] the single text a, the payload of
    the segment of [m] is ab.  A right operand with two neighbouring text
    segments is changed the same way. *)
Theorem add_mutates_shared_payload :
  payloads (two_texts "a" "b") [VRef 1] = Some ["a"]
  /\ Message_add [VRef 1] (AVal (VRef 3)) (two_texts "a" "b")
     = (two_texts "ab" "b", Ok [VRef 1])
  /\ payloads (two_texts "ab" "b") [VRef 1] = Some ["ab"]
  /\ payloads (two_texts "a" "b") [VRef 1; VRef 3] = Some ["a"; "b"]
  /\ Message_add [] (AMsg [VRef 1; VRef 3]) (two_texts "a" "b")
     = (two_texts "ab" "b", Ok [VRef 1])
  /\ payloads (two_texts "ab" "b") [VRef 1; VRef 3] = Some ["ab"; "b"].
Proof. repeat split; reflexivity. Qed.

(** ** Parsing *)

(** C3 (what the code does at the failing input): the pattern accepts a
    parameter without an equals sign, which the grammar of the claim
    does not; the unpacking of the split piece then raises, and the
    constructor reports the string as not recognizable.  A parameter
    whose equals sign comes after other characters is accepted too and
    read as a key with those characters.  The string [CQ:] in brackets
    has no type, is not matched, and becomes one text segment. *)
Theorem parse_parameter_without_equals :
  Re.finditer cq_grammar "[CQ:at,qq]" = []
  /\ iter_function_name_and_extra "[CQ:at,qq]"
     = [("text", ""); ("at", "qq"); ("text", "")]
  /\ cq_data "qq" = Raise unpack_error
  /\ Message (AVal (VStr "[CQ:at,qq]")) [] = ([], Raise init_msg_error)
  /\ Re.finditer cq_grammar "[CQ:at,ab cd=e]" = []
  /\ iter_function_name_and_extra "[CQ:at,ab cd=e]"
     = [("text", ""); ("at", "ab cd=e"); ("text", "")]
  /\ Message (AVal (VStr "[CQ:]")) []
     = ([ODict [("text", VStr "[CQ:]")];
         OSeg [("type", VStr "text"); ("data", VRef 0)]], Ok [VRef 1]).
Proof. repeat split; reflexivity. Qed.

(** ** The parameters of a token *)

Lemma has_chr_app (c : ascii) (a b : string) :
  has_chr c (a ++ b) = has_chr c a || has_chr c b.
Proof.
  induction a as [|x a IH]; [reflexivity|].
  cbn. rewrite IH. now rewrite orb_assoc.
Qed.

Lemma split_chr_none (c : ascii) (s : string) :
  has_chr c s = false -> split_chr c s = [s].
Proof.
  induction s as [|x s IH]; [reflexivity|].
  cbn. intros H. apply orb_false_elim in H as [Hx Hs].
  rewrite Hx, (IH Hs). reflexivity.
Qed.

Lemma split_chr_app (c : ascii) (a b : string) :
  has_chr c a = false ->
  split_chr c (a ++ String c b) = a :: split_chr c b.
Proof.
  induction a as [|x a IH]; intros H.
  - cbn. now rewrite Ascii.eqb_refl.
  - cbn in *. apply orb_false_elim in H as [Hx Hs].
    rewrite Hx, (IH Hs). reflexivity.
Qed.

Lemma split_chr_join (c : ascii) (pieces : list string) :
  pieces <> [] ->
  forallb (fun p => negb (has_chr c p)) pieces = true ->
  split_chr c (join (String c EmptyString) pieces) = pieces.
Proof.
  induction pieces as [|p ps IH]; [congruence|].
  intros _ H. cbn [forallb] in H. apply andb_prop in H as [Hp Hps].
  apply negb_true_iff in Hp.
  destruct ps as [|q ps].
  - cbn. now apply split_chr_none.
  - rewrite join_cons2. cbn [String.append].
    rewrite (split_chr_app c p _ Hp), IH; [reflexivity|discriminate|exact Hps].
Qed.

Lemma split_first_pair (c : ascii) (k v : string) :
  has_chr c k = false ->
  split_first c (k ++ String c v) = [k; v].
Proof.
  induction k as [|x k IH]; intros H.
  - cbn. now rewrite Ascii.eqb_refl.
  - cbn in *. apply orb_false_elim in H as [Hx Hs].
    rewrite Hx, (IH Hs). reflexivity.
Qed.

Lemma pair_ok_facts (kv : string * string) :
  pair_ok kv = true ->
  has_chr "," (pair_text kv) = false
  /\ lstrip (pair_text kv) = pair_text kv
  /\ String.eqb (pair_text kv) "" = false
  /\ split_first "=" (pair_text kv) = [fst kv; snd kv].
Proof.
  destruct kv as [k v]. unfold pair_ok, key_ok, value_ok, pair_text.
  cbn [fst snd]. intros H.
  apply andb_prop in H as [H Hv]. apply andb_prop in H as [H He].
  apply andb_prop in H as [Hs Hc].
  apply negb_true_iff in Hv, He, Hc.
  destruct k as [|c k]; [discriminate|]. apply negb_true_iff in Hs.
  repeat split.
  - rewrite has_chr_app, Hc. cbn. exact Hv.
  - unfold lstrip. cbn. now rewrite Hs.
  - apply split_first_pair. exact He.
Qed.

Lemma collect_pairs_pairs (kvs : list (string * string)) :
  forall d : dict,
    collect_pairs (map (fun kv => [fst kv; snd kv]) kvs) d
    = Ok (dict_of_pairs kvs d).
Proof.
  induction kvs as [|kv kvs IH]; intros d; [reflexivity|].
  cbn [map collect_pairs]. rewrite IH. reflexivity.
Qed.

Lemma cq_data_pairs (kvs : list (string * string)) :
  forallb pair_ok kvs = true ->
  cq_data (join "," (map pair_text kvs)) = Ok (dict_of_pairs kvs []).
Proof.
  intros H. unfold cq_data.
  destruct kvs as [|kv0 kvs0] eqn:Ek; [reflexivity|]. rewrite <- Ek in *.
  assert (Hne : map pair_text kvs <> []) by (subst kvs; discriminate).
  clear Ek.
  assert (Hall : forall kv, In kv kvs -> pair_ok kv = true)
    by (apply forallb_forall; exact H).
  rewrite split_chr_join; [|exact Hne|].
  2:{ apply forallb_forall. intros p Hp. apply in_map_iff in Hp as [kv [<- Hin]].
      apply negb_true_iff. apply pair_ok_facts. now apply Hall. }
  rewrite <- collect_pairs_pairs. f_equal.
  clear Hne H. induction kvs as [|kv kvs IH]; [reflexivity|].
  cbn [map filter].
  destruct (pair_ok_facts kv (Hall kv (or_introl eq_refl)))
    as [_ [Hl [Hn Hs]]].
  rewrite Hl, Hn. cbn [negb map]. rewrite Hs, IH; [reflexivity|].
  intros kv' Hin. apply Hall. now right.
Qed.

(** What the parser stores: the inner content of a matched token is split
    on commas and each piece on its first equals sign, and the text after
    it is stored as it stands in the string.  Parsing title=a&#44;b inside
    a share token gives the value a&#44;b. *)
Theorem parse_stores_raw_values :
  (forall kvs : list (string * string),
      forallb pair_ok kvs = true ->
      cq_data (join "," (map pair_text kvs)) = Ok (dict_of_pairs kvs []))
  /\ Message (AVal (VStr "[CQ:share,title=a&#44;b]")) []
     = ([ODict [("title", VStr "a&#44;b")];
         OSeg [("type", VStr "share"); ("data", VRef 0)]], Ok [VRef 1]).
Proof. split; [exact cq_data_pairs|reflexivity]. Qed.

Lemma parse_stores_raw_values_witness :
  cq_data "url=u,title=a&#44;b"
  = Ok [("url", VStr "u"); ("title", VStr "a&#44;b")].
Proof.
  apply (proj1 parse_stores_raw_values [("url", "u"); ("title", "a&#44;b")]).
  reflexivity.
Defined.

(** C1 (what the code does at the failing input): [__str__] writes the
    value a,b as a&#44;b, and [unescape] would give a,b back, but
    [_split_iter] never calls [unescape]: parsing the share token with
    title=a&#44;b stores the value a&#44;b, where the claim, whose
    reading is [cq_data_unescaped], has a,b. *)
Theorem parse_does_not_unescape :
  escape "a,b" true = "a&#44;b"
  /\ unescape "a&#44;b" = "a,b"
  /\ cq_data "title=a&#44;b" = Ok [("title", VStr "a&#44;b")]
  /\ cq_data_unescaped "title=a&#44;b" = Ok [("title", VStr "a,b")]
  /\ cq_data "title=a&#44;b" <> cq_data_unescaped "title=a&#44;b"
  /\ Message (AVal (VStr "[CQ:share,title=a&#44;b]")) []
     = ([ODict [("title", VStr "a&#44;b")];
         OSeg [("type", VStr "share"); ("data", VRef 0)]], Ok [VRef 1])
  /\ Message (AVal (VStr "[CQ:share,title=a&#44;b]")) []
     <> ([ODict [("title", VStr "a,b")];
          OSeg [("type", VStr "share"); ("data", VRef 0)]], Ok [VRef 1]).
Proof. repeat split; try reflexivity; discriminate. Qed.

(** ** The matcher *)

Lemma run_ext {A : Type} (r : Re.regex) :
  forall (s : string) (caps : Re.captures)
         (k k' : string -> Re.captures -> option A),
    (forall s' caps', k s' caps' = k' s' caps') ->
    Re.run r s caps k = Re.run r s caps k'.
Proof.
  induction r as [| c | p | r1 IH1 r2 IH2 | r1 IH1 | r1 IH1 | name r1 IH1];
    intros s caps k k' E; cbn [Re.run].
  - apply E.
  - destruct s as [|c' s']; [reflexivity|]. now rewrite E.
  - destruct s as [|c' s']; [reflexivity|]. now rewrite E.
  - apply IH1. intros s' caps'. apply IH2, E.
  - generalize (String.length s). intros n. revert s caps.
    induction n as [|n IHn]; intros s caps; cbn [Re.star_loop]; [apply E|].
    rewrite E.
    rewrite (IH1 s caps _
               (fun s' caps' =>
                  if (String.length s' <? String.length s)%nat
                  then Re.star_loop (Re.run r1) k' n s' caps' else None));
      [reflexivity|].
    intros s' caps'. now rewrite IHn.
  - rewrite E. now rewrite (IH1 s caps k k' E).
  - apply IH1. intros s' caps'. apply E.
Qed.

Lemma run_none {A : Type} (r : Re.regex) :
  forall (s : string) (caps : Re.captures),
    Re.run r s caps (fun _ _ => @None A) = None.
Proof.
  induction r as [| c | p | r1 IH1 r2 IH2 | r1 IH1 | r1 IH1 | name r1 IH1];
    intros s caps; cbn [Re.run].
  - reflexivity.
  - destruct s as [|c' s']; [reflexivity|]. now destruct (Ascii.eqb c' c).
  - destruct s as [|c' s']; [reflexivity|]. now destruct (p c').
  - rewrite (run_ext r1 s caps _ (fun _ _ => None)); [apply IH1|].
    intros s' caps'. apply IH2.
  - generalize (String.length s). intros n. revert s caps.
    induction n as [|n IHn]; intros s caps; cbn [Re.star_loop]; [reflexivity|].
    rewrite (run_ext r1 s caps _ (fun _ _ => None)); [now rewrite IH1|].
    intros s' caps'. rewrite IHn. now destruct (_ <? _)%nat.
  - now rewrite IH1.
  - apply IH1.
Qed.

Lemma star_loop_fuel {A : Type} (r : Re.regex)
    (k : string -> Re.captures -> option A) (n : nat) :
  forall (m : nat) (s : string) (caps : Re.captures),
    String.length s <= n -> String.length s <= m ->
    Re.star_loop (Re.run r) k n s caps = Re.star_loop (Re.run r) k m s caps.
Proof.
  assert (Hzero : forall m s caps, String.length s = 0 ->
            Re.star_loop (Re.run r) k m s caps = k s caps).
  { intros [|m] s caps Hs; [reflexivity|]. cbn [Re.star_loop].
    rewrite (run_ext r s caps _ (fun _ _ => None)); [now rewrite run_none|].
    intros s' caps'. rewrite Hs. reflexivity. }
  induction n as [|n IH]; intros m s caps Hn Hm.
  - rewrite (Hzero m) by lia. reflexivity.
  - destruct m as [|m].
    + rewrite (Hzero (S n)) by lia. reflexivity.
    + cbn [Re.star_loop].
      rewrite (run_ext r s caps _
                 (fun s' caps' =>
                    if (String.length s' <? String.length s)%nat
                    then Re.star_loop (Re.run r) k m s' caps' else None));
        [reflexivity|].
      intros s' caps'.
      destruct (Nat.ltb_spec (String.length s') (String.length s));
        [|reflexivity].
      apply IH; lia.
Qed.

(** One turn of a greedy loop. *)
Lemma run_star_unfold {A : Type} (r : Re.regex) (s : string)
    (caps : Re.captures) (k : string -> Re.captures -> option A) :
  Re.run (Re.Star r) s caps k
  = match Re.run r s caps
            (fun s' caps' =>
               if (String.length s' <? String.length s)%nat
               then Re.run (Re.Star r) s' caps' k else None) with
    | Some x => Some x
    | None => k s caps
    end.
Proof.
  cbn [Re.run]. destruct (String.length s) as [|n] eqn:En.
  - cbn [Re.star_loop].
    rewrite (run_ext r s caps _ (fun _ _ => None)); [now rewrite run_none|].
    reflexivity.
  - cbn [Re.star_loop].
    rewrite (run_ext r s caps _
               (fun s' caps' =>
                  if (String.length s' <? S n)%nat
                  then Re.star_loop (Re.run r) k (String.length s') s' caps'
                  else None)); [reflexivity|].
    intros s' caps'. rewrite En.
    destruct (Nat.ltb_spec (String.length s') (S n)); [|reflexivity].
    apply star_loop_fuel; lia.
Qed.

Lemma string_length_app (a b : string) :
  String.length (a ++ b) = String.length a + String.length b.
Proof. induction a as [|c a IH]; cbn; [reflexivity|now rewrite IH]. Qed.

Lemma run_cls_cons {A : Type} (p : ascii -> bool) (c : ascii) (s : string)
    (caps : Re.captures) (k : string -> Re.captures -> option A) :
  Re.run (Re.Cls p) (String c s) caps k = if p c then k s caps else None.
Proof. reflexivity. Qed.

Lemma run_lit_cons {A : Type} (c c' : ascii) (s : string)
    (caps : Re.captures) (k : string -> Re.captures -> option A) :
  Re.run (Re.Lit c) (String c' s) caps k
  = if Ascii.eqb c' c then k s caps else None.
Proof. reflexivity. Qed.

Lemma run_seq {A : Type} (r1 r2 : Re.regex) (s : string)
    (caps : Re.captures) (k : string -> Re.captures -> option A) :
  Re.run (Re.Seq r1 r2) s caps k
  = Re.run r1 s caps (fun s' caps' => Re.run r2 s' caps' k).
Proof. reflexivity. Qed.

Lemma run_opt {A : Type} (r : Re.regex) (s : string)
    (caps : Re.captures) (k : string -> Re.captures -> option A) :
  Re.run (Re.Opt r) s caps k
  = match Re.run r s caps k with Some x => Some x | None => k s caps end.
Proof. reflexivity. Qed.

Lemma run_group {A : Type} (name : string) (r : Re.regex) (s : string)
    (caps : Re.captures) (k : string -> Re.captures -> option A) :
  Re.run (Re.Group name r) s caps k
  = Re.run r s caps
      (fun s' caps' => k s' ((name, Re.consumed s s') :: caps')).
Proof. reflexivity. Qed.

(** A greedy loop over a class takes the whole run of its characters;
    when the continuation accepts what follows, that is the match. *)
Lemma run_star_cls {A : Type} (p : ascii -> bool) (a rest : string)
    (caps : Re.captures) (k : string -> Re.captures -> option A) (x : A) :
  all_chr p a = true -> stops p rest = true ->
  k rest caps = Some x ->
  Re.run (Re.Star (Re.Cls p)) (a ++ rest) caps k = Some x.
Proof.
  intros Ha Hr Hk. induction a as [|c a IH].
  - cbn [String.append]. rewrite run_star_unfold.
    destruct rest as [|c' rest']; cbn [Re.run]; [exact Hk|].
    cbn in Hr. apply negb_true_iff in Hr. rewrite Hr. exact Hk.
  - cbn in Ha. apply andb_prop in Ha as [Hc Ha].
    rewrite run_star_unfold. cbn [String.append].
    rewrite run_cls_cons, Hc. cbn [String.length].
    destruct (Nat.ltb_spec (String.length (a ++ rest)) (S (String.length (a ++ rest))));
      [|lia].
    rewrite (IH Ha). reflexivity.
Qed.

Lemma run_plus_cls {A : Type} (p : ascii -> bool) (a rest : string)
    (caps : Re.captures) (k : string -> Re.captures -> option A) (x : A) :
  a <> EmptyString ->
  all_chr p a = true -> stops p rest = true ->
  k rest caps = Some x ->
  Re.run (Re.Plus (Re.Cls p)) (a ++ rest) caps k = Some x.
Proof.
  intros Hne Ha Hr Hk. destruct a as [|c a]; [congruence|].
  cbn in Ha. apply andb_prop in Ha as [Hc Ha].
  unfold Re.Plus. rewrite run_seq. cbn [String.append].
  rewrite run_cls_cons, Hc. now apply run_star_cls.
Qed.

Lemma run_lit {A : Type} (a rest : string)
    (caps : Re.captures) (k : string -> Re.captures -> option A) :
  Re.run (Re.lit a) (a ++ rest) caps k = k rest caps.
Proof.
  induction a as [|c a IH]; [reflexivity|].
  cbn [Re.lit String.append]. rewrite run_seq, run_lit_cons.
  now rewrite Ascii.eqb_refl.
Qed.

Lemma consumed_app (a b : string) : Re.consumed (a ++ b) b = a.
Proof.
  unfold Re.consumed. rewrite string_length_app.
  replace (String.length a + String.length b - String.length b)
    with (String.length a) by lia.
  induction a as [|c a IH]; cbn.
  - destruct b; reflexivity.
  - now rewrite IH.
Qed.
Lemma name_ok_facts (s : string) :
  name_ok s = true -> s <> EmptyString /\ all_chr is_name_char s = true.
Proof.
  unfold name_ok. intros H. apply andb_prop in H as [H1 H2].
  split; [|exact H2]. intros ->. discriminate.
Qed.

Lemma stops_params (p : ascii -> bool) (ps : list (string * string))
    (rest : string) :
  p ","%char = false -> p "]"%char = false ->
  stops p (params_text ps ++ "]" ++ rest) = true.
Proof.
  intros Hc Hb. destruct ps as [|kv ps]; cbn; [now rewrite Hb|now rewrite Hc].
Qed.

(** The loop over the parameters takes them all. *)
Lemma run_params {A : Type} (ps : list (string * string)) :
  forall (rest : string) (caps : Re.captures)
         (k : string -> Re.captures -> option A) (x : A),
    forallb param_ok ps = true ->
    k ("]" ++ rest)%string caps = Some x ->
    Re.run (Re.Star cq_param) (params_text ps ++ "]" ++ rest) caps k = Some x.
Proof.
  induction ps as [|[key v] ps IH]; intros rest caps k x Hok Hk.
  - cbn [params_text String.append]. rewrite run_star_unfold.
    unfold cq_param at 1. rewrite run_seq, run_lit_cons.
    cbn [Ascii.eqb Bool.eqb andb]. exact Hk.
  - cbn [forallb] in Hok. apply andb_prop in Hok as [Hkv Hps].
    unfold param_ok in Hkv. cbn [fst snd] in Hkv.
    apply andb_prop in Hkv as [Hkey Hv].
    apply name_ok_facts in Hkey as [Hne Hkey].
    cbn [params_text]. unfold pair_text. cbn [fst snd].
    rewrite !string_app_assoc. cbn [String.append].
    rewrite run_star_unfold.
    unfold cq_param at 1. rewrite run_seq, run_lit_cons.
    cbn [Ascii.eqb Bool.eqb andb]. rewrite run_seq.
    erewrite run_plus_cls; [reflexivity|exact Hne|exact Hkey|reflexivity|].
    rewrite run_seq, run_opt, run_lit_cons.
    cbn [Ascii.eqb Bool.eqb andb].
    erewrite run_star_cls; [reflexivity|exact Hv| |].
    + apply stops_params; reflexivity.
    + match goal with
      | |- (if (?a <? ?b)%nat then _ else _) = _ =>
          replace (a <? b)%nat with true
      end.
      2:{ symmetry. apply Nat.ltb_lt.
          repeat (rewrite string_length_app || cbn [String.length]). lia. }
      apply IH; assumption.
Qed.

(** The pattern matches a token written by [__str__], and nothing
    more. *)
Lemma match_here_token (t : string) (ps : list (string * string))
    (rest : string) :
  name_ok t = true -> forallb param_ok ps = true ->
  Re.match_here cq_regex (token_text t ps ++ rest)
  = Some (rest, [("params", params_text ps); ("type", t)]).
Proof.
  intros Ht Hps. apply name_ok_facts in Ht as [Hne Ht].
  unfold Re.match_here, cq_regex, token_text.
  rewrite !string_app_assoc. rewrite run_seq, run_lit.
  rewrite run_seq, run_group.
  erewrite run_plus_cls; [reflexivity|exact Hne|exact Ht| |].
  - apply stops_params; reflexivity.
  - rewrite run_seq, run_group.
    change (Re.Seq (Re.Lit ",")
              (Re.Seq (Re.Plus (Re.Cls is_name_char))
                 (Re.Seq (Re.Opt (Re.Lit "="))
                    (Re.Star (Re.Cls not_comma_bracket)))))
      with cq_param.
    erewrite run_params; [reflexivity|exact Hps|].
    rewrite run_seq, run_opt. cbn [String.append].
    rewrite run_lit_cons. cbn [Ascii.eqb Bool.eqb andb].
    rewrite run_lit_cons. cbn [Ascii.eqb Bool.eqb andb].
    rewrite consumed_app.
    change (String "]" rest) with ("]" ++ rest)%string.
    rewrite consumed_app. reflexivity.
Qed.
(** ** Slices and the scan *)

Lemma substring_zero (n : nat) (s : string) : substring n 0 s = EmptyString.
Proof.
  revert n. induction s as [|c s IH]; intros [|n]; cbn; try reflexivity.
  apply IH.
Qed.

Lemma substring_skip (p s : string) (m : nat) :
  substring (String.length p) m (p ++ s) = substring 0 m s.
Proof. induction p as [|c p IH]; cbn; [reflexivity|exact IH]. Qed.

Lemma substring_prefix (a rest : string) :
  substring 0 (String.length a) (a ++ rest) = a.
Proof.
  induction a as [|c a IH]; cbn.
  - destruct rest; reflexivity.
  - now rewrite IH.
Qed.

Lemma slice_mid (p0 p1 rest : string) :
  slice (String.length p0) (String.length p0 + String.length p1)
    (p0 ++ p1 ++ rest) = p1.
Proof.
  unfold slice.
  replace (String.length p0 + String.length p1 - String.length p0)
    with (String.length p1) by lia.
  rewrite substring_skip. apply substring_prefix.
Qed.

Lemma slice_tail (p0 p1 : string) :
  slice (String.length p0) (String.length (p0 ++ p1)) (p0 ++ p1) = p1.
Proof.
  rewrite string_length_app.
  pose proof (slice_mid p0 p1 "") as H.
  rewrite string_app_empty_r in H. exact H.
Qed.

Lemma match_here_no_bracket (c : ascii) (s : string) :
  Ascii.eqb c "[" = false -> Re.match_here cq_regex (String c s) = None.
Proof.
  intros Hc. unfold Re.match_here, cq_regex.
  rewrite run_seq. cbn [Re.lit]. rewrite run_seq, run_lit_cons, Hc.
  reflexivity.
Qed.

Lemma match_here_empty : Re.match_here cq_regex EmptyString = None.
Proof. reflexivity. Qed.

Lemma finditer_text (s rest : string) (pos : nat) :
  has_chr "[" s = false ->
  Re.finditer_from cq_regex pos 0 (s ++ rest)
  = Re.finditer_from cq_regex (pos + String.length s) 0 rest.
Proof.
  revert pos. induction s as [|c s IH]; intros pos H.
  - cbn. now rewrite Nat.add_0_r.
  - cbn in H. apply orb_false_elim in H as [Hc Hs].
    cbn [String.append Re.finditer_from].
    rewrite (match_here_no_bracket c _ Hc), (IH (S pos) Hs).
    cbn [String.length]. f_equal. lia.
Qed.

Lemma finditer_skip (a rest : string) (pos : nat) :
  Re.finditer_from cq_regex pos (String.length a) (a ++ rest)
  = Re.finditer_from cq_regex (pos + String.length a) 0 rest.
Proof.
  revert pos. induction a as [|c a IH]; intros pos.
  - cbn. now rewrite Nat.add_0_r.
  - cbn [String.append String.length Re.finditer_from].
    rewrite IH. f_equal. lia.
Qed.

Lemma finditer_token (t : string) (ps : list (string * string))
    (rest : string) (pos : nat) :
  name_ok t = true -> forallb param_ok ps = true ->
  Re.finditer_from cq_regex pos 0 (token_text t ps ++ rest)
  = Re.mk_rmatch pos (pos + String.length (token_text t ps))
      [("params", params_text ps); ("type", t)]
    :: Re.finditer_from cq_regex (pos + String.length (token_text t ps)) 0 rest.
Proof.
  intros Ht Hps.
  pose proof (match_here_token t ps rest Ht Hps) as Hm.
  remember (token_text t ps) as tok eqn:Etok.
  assert (Hshape : exists a, tok = String "[" a).
  { subst tok. unfold token_text. cbn. eexists. reflexivity. }
  destruct Hshape as [a ->].
  cbn [String.append] in *. cbn [Re.finditer_from]. rewrite Hm.
  cbn [String.length]. rewrite string_length_app.
  replace (S (String.length a + String.length rest) - String.length rest)
    with (S (String.length a)) by lia.
  cbn [pred]. rewrite finditer_skip.
  f_equal. f_equal. lia.
Qed.

Lemma params_text_join (kv : string * string) (ps : list (string * string)) :
  (pair_text kv ++ params_text ps)%string = join "," (map pair_text (kv :: ps)).
Proof.
  revert kv. induction ps as [|kv' ps IH]; intros kv.
  - cbn. apply string_app_empty_r.
  - cbn [map]. rewrite join_cons2. cbn [params_text].
    rewrite (IH kv'). reflexivity.
Qed.

Lemma lstrip_params_text (ps : list (string * string)) :
  forallb param_ok ps = true ->
  lstrip_by (Ascii.eqb ",") (params_text ps) = join "," (map pair_text ps).
Proof.
  destruct ps as [|[key v] ps]; [reflexivity|].
  cbn [forallb]. intros H. apply andb_prop in H as [H _].
  unfold param_ok in H. cbn [fst snd] in H. apply andb_prop in H as [H _].
  apply name_ok_facts in H as [Hne Hall].
  cbn [params_text String.append lstrip_by]. cbn [Ascii.eqb Bool.eqb andb].
  rewrite params_text_join.
  rewrite <- params_text_join. unfold pair_text. cbn [fst snd].
  destruct key as [|c key]; [congruence|].
  cbn [String.append lstrip_by].
  cbn in Hall. apply andb_prop in Hall as [Hc _].
  destruct (Ascii.eqb_spec "," c) as [<-|_]; [discriminate Hc|reflexivity].
Qed.

Lemma spans_chunks (msg : string) (cs : list chunk) :
  forall (p0 p1 : string),
    forallb chunk_ok cs = true ->
    msg = (p0 ++ p1 ++ chunks_text cs)%string ->
    spans msg (String.length p0)
      (Re.finditer_from cq_regex (String.length p0 + String.length p1) 0
         (chunks_text cs))
    = chunk_spans p1 cs.
Proof.
  induction cs as [|[s|t ps] cs IH]; intros p0 p1 Hok Hmsg.
  - cbn [chunks_text Re.finditer_from]. rewrite match_here_empty.
    cbn [spans chunk_spans]. subst msg. cbn [chunks_text].
    rewrite string_app_empty_r. now rewrite slice_tail.
  - cbn [forallb chunk_ok] in Hok. apply andb_prop in Hok as [Hs Hcs].
    apply negb_true_iff in Hs.
    cbn [chunks_text chunk_text chunk_spans].
    rewrite (finditer_text s _ _ Hs).
    replace (String.length p0 + String.length p1 + String.length s)
      with (String.length p0 + String.length (p1 ++ s))
      by (rewrite string_length_app; lia).
    apply IH; [exact Hcs|].
    subst msg. cbn [chunks_text chunk_text].
    now rewrite !string_app_assoc.
  - cbn [forallb chunk_ok] in Hok. apply andb_prop in Hok as [Hc Hcs].
    apply andb_prop in Hc as [Ht Hps].
    cbn [chunks_text chunk_text chunk_spans].
    rewrite (finditer_token t ps _ _ Ht Hps).
    cbn [spans Re.m_start Re.m_end Re.m_caps Re.group].
    cbn [String.eqb Ascii.eqb Bool.eqb andb].
    rewrite (lstrip_params_text ps Hps).
    f_equal.
    + f_equal. subst msg. apply slice_mid.
    + f_equal.
      replace (String.length p0 + String.length p1
               + String.length (token_text t ps))
        with (String.length (p0 ++ p1 ++ token_text t ps) + String.length "")
        by (rewrite !string_length_app; cbn [String.length]; lia).
      replace (String.length (p0 ++ p1 ++ token_text t ps) + String.length "")
        with (String.length (p0 ++ p1 ++ token_text t ps)) at 1
        by (cbn [String.length]; lia).
      apply IH; [exact Hcs|].
      subst msg. cbn [chunks_text chunk_text String.append].
      now rewrite !string_app_assoc.
Qed.

Lemma iter_chunks (cs : list chunk) :
  forallb chunk_ok cs = true ->
  iter_function_name_and_extra (chunks_text cs) = chunk_spans "" cs.
Proof.
  intros Hok. unfold iter_function_name_and_extra, Re.finditer.
  apply (spans_chunks (chunks_text cs) cs "" "" Hok). reflexivity.
Qed.

(** ** Rendering segments without reserved characters *)

Lemma tok_map_plain (b : bool) (s : string) :
  plain s = true -> (b = true -> has_chr "," s = false) ->
  tok_map (tok true true true b) s = s.
Proof.
  unfold plain. intros H Hb.
  apply andb_prop in H as [H H3]. apply andb_prop in H as [H1 H2].
  apply negb_true_iff in H1, H2, H3.
  induction s as [|c s IH]; [reflexivity|].
  cbn in H1, H2, H3. cbn [tok_map].
  apply orb_false_elim in H1 as [C1 H1].
  apply orb_false_elim in H2 as [C2 H2].
  apply orb_false_elim in H3 as [C3 H3].
  assert (Hb' : b = true -> has_chr "," s = false /\ Ascii.eqb c "," = false).
  { intros E. specialize (Hb E). cbn in Hb.
    apply orb_false_elim in Hb as [? ?]. now split. }
  rewrite IH; [|assumption|assumption|assumption|intros E; now apply Hb'].
  unfold tok. rewrite C1, C2, C3. cbn [andb].
  destruct b; [|reflexivity].
  destruct (Hb' eq_refl) as [_ ->]. reflexivity.
Qed.

Lemma escape_plain (s : string) : plain s = true -> escape s false = s.
Proof.
  intros H. rewrite escape_tok_map. apply tok_map_plain; [exact H|discriminate].
Qed.

Lemma escape_plain_value (s : string) :
  plain_value s = true -> escape s true = s.
Proof.
  unfold plain_value. intros H. apply andb_prop in H as [H Hc].
  apply negb_true_iff in Hc.
  rewrite escape_tok_map. apply tok_map_plain; [exact H|intros _; exact Hc].
Qed.

Lemma render_params_plain (ps : list (string * string)) (h : heap)
    (str_of_ref : heap -> nat -> result string) :
  forallb (fun kv => plain_value (snd kv)) ps = true ->
  render_params str_of_ref (str_dict ps) h = Ok (map pair_text ps).
Proof.
  induction ps as [|[k v] ps IH]; [reflexivity|].
  cbn [forallb snd]. intros H. apply andb_prop in H as [Hv Hps].
  cbn [str_dict map render_params fst snd str_of_val].
  change (map (fun kv => (fst kv, VStr (snd kv))) ps) with (str_dict ps).
  rewrite (IH Hps), (escape_plain_value v Hv). reflexivity.
Qed.

Lemma pair_text_join_nonempty (kv : string * string)
    (ps : list (string * string)) :
  String.eqb (join "," (map pair_text (kv :: ps))) "" = false.
Proof.
  rewrite <- params_text_join. unfold pair_text.
  destruct (fst kv); reflexivity.
Qed.

Lemma getattr_described (h : heap) (v : val) (l : nat) (d : desc) :
  described h v l d ->
  getattr v "type" h = Ok (VStr (fst d))
  /\ getattr v "data" h = Ok (VRef l).
Proof.
  intros [Hs _]. unfold getattr. rewrite Hs. split; reflexivity.
Qed.

Lemma MessageSegment_str_described
    (str_of_ref : heap -> nat -> result string)
    (h : heap) (v : val) (l : nat) (d : desc) :
  described h v l d -> desc_ok d = true ->
  MessageSegment_str str_of_ref v h = (h, Ok (chunk_text (chunk_of d))).
Proof.
  intros Hd Hok. destruct (getattr_described h v l d Hd) as [Ht Hdata].
  destruct Hd as [Hs Hl]. destruct d as [t ps].
  unfold desc_ok, chunk_of, is_text_desc in *. cbn [fst snd] in *.
  unfold MessageSegment_str, bind, reads, ret. rewrite Ht.
  cbn [val_eqb]. destruct (String.eqb t "text") eqn:Et.
  - destruct ps as [|[k s] [|? ?]]; try discriminate.
    apply andb_prop in Hok as [Hok Hplain].
    apply andb_prop in Hok as [Hk _].
    apply String.eqb_eq in Hk. subst k.
    rewrite Hdata. unfold dict_method_get, as_dict. rewrite Hl.
    cbn [str_dict map fst snd dict_get].
    change (String.eqb "text" "text") with true. cbn [escape_val].
    rewrite (escape_plain s Hplain). reflexivity.
  - apply andb_prop in Hok as [Hok _]. apply andb_prop in Hok as [_ Hps].
    rewrite Hdata. unfold dict_method_items, as_dict. rewrite Hl.
    rewrite render_params_plain.
    2:{ apply forallb_forall. intros kv Hin.
        rewrite forallb_forall in Hps. specialize (Hps kv Hin).
        now apply andb_prop in Hps as [_ ?]. }
    rewrite Ht. cbn [str_of_val chunk_text]. unfold token_text.
    destruct ps as [|kv ps]; [reflexivity|].
    rewrite pair_text_join_nonempty.
    cbn [params_text]. rewrite params_text_join.
    rewrite !string_app_assoc. reflexivity.
Qed.

Lemma represents_cons_inv (h : heap) (self : list val) (locs : list nat)
    (d : desc) (ds : list desc) :
  represents h self locs (d :: ds) ->
  exists v self' l locs',
    self = v :: self' /\ locs = l :: locs'
    /\ described h v l d /\ represents h self' locs' ds.
Proof.
  destruct self as [|v self'], locs as [|l locs']; cbn; try contradiction.
  intros [H1 H2]. now exists v, self', l, locs'.
Qed.

Lemma represents_nil_inv (h : heap) (self : list val) (locs : list nat) :
  represents h self locs [] -> self = [] /\ locs = [].
Proof.
  destruct self, locs; cbn; try contradiction. now split.
Qed.

Lemma Message_str_represents
    (str_of_ref : heap -> nat -> result string) (h : heap) (ds : list desc) :
  forall (self : list val) (locs : list nat),
    represents h self locs ds -> forallb desc_ok ds = true ->
    Message_str str_of_ref self h = (h, Ok (chunks_text (map chunk_of ds))).
Proof.
  induction ds as [|d ds IH]; intros self locs Hr Hok.
  - apply represents_nil_inv in Hr as [-> _]. reflexivity.
  - apply represents_cons_inv in Hr
      as [v [self' [l [locs' [-> [-> [Hd Hr]]]]]]].
    cbn [forallb] in Hok. apply andb_prop in Hok as [Hd_ok Hok].
    cbn [Message_str map chunks_text]. unfold bind, ret.
    unfold str_of_elem. destruct Hd as [Hs Hl]. rewrite Hs.
    rewrite (MessageSegment_str_described str_of_ref h v l d (conj Hs Hl) Hd_ok).
    rewrite (IH self' locs' Hr Hok). reflexivity.
Qed.
(** ** Segments on the heap *)

Lemma described_extends (h more : heap) (v : val) (l : nat) (d : desc) :
  described h v l d -> described (h ++ more) v l d.
Proof.
  intros [Hs Hl]. split.
  - destruct v as [| |lv]; try discriminate. cbn in *.
    destruct (heap_get h lv) as [o|] eqn:E; [|discriminate].
    unfold heap_get in *. rewrite nth_error_app1 by (apply nth_error_Some; congruence).
    rewrite E. exact Hs.
  - unfold heap_get in *. rewrite nth_error_app1 by (apply nth_error_Some; congruence).
    exact Hl.
Qed.

Lemma represents_extends (h more : heap) (ds : list desc) :
  forall (self : list val) (locs : list nat),
    represents h self locs ds -> represents (h ++ more) self locs ds.
Proof.
  induction ds as [|d ds IH]; intros [|v self] [|l locs]; cbn; try tauto.
  intros [Hd Hr]. split; [now apply described_extends|now apply IH].
Qed.

Lemma represents_app (h : heap) (ds1 : list desc) :
  forall (self1 : list val) (locs1 : list nat)
         (self2 : list val) (locs2 : list nat) (ds2 : list desc),
    represents h self1 locs1 ds1 -> represents h self2 locs2 ds2 ->
    represents h (self1 ++ self2) (locs1 ++ locs2) (ds1 ++ ds2).
Proof.
  induction ds1 as [|d ds1 IH]; intros [|v self1] [|l locs1] self2 locs2 ds2;
    cbn; try tauto.
  intros [Hd Hr] H2. split; [exact Hd|now apply IH].
Qed.

Lemma represents_last (h : heap) (ds : list desc) :
  forall (self : list val) (locs : list nat) (prev : val),
    represents h self locs ds -> last_elem self = Some prev ->
    exists l d ds', described h prev l d /\ rev ds = d :: ds'.
Proof.
  induction ds as [|d ds IH]; intros [|v self] [|l locs] prev; cbn;
    try tauto; try discriminate.
  intros [Hd Hr] Hlast.
  destruct self as [|v' self'].
  - destruct locs, ds; cbn in Hr; try contradiction.
    cbn in Hlast. injection Hlast as <-.
    exists l, d, []. split; [exact Hd|reflexivity].
  - assert (Hl' : last_elem (v' :: self') = Some prev).
    { unfold last_elem in *. cbn [rev] in *.
      destruct (rev self' ++ [v']) as [|x r] eqn:E.
      - destruct (rev self'); discriminate.
      - cbn in Hlast. injection Hlast as <-. reflexivity. }
    destruct (IH _ _ _ Hr Hl') as [l0 [d0 [ds' [Hd0 Hrev]]]].
    exists l0, d0, (ds' ++ [d]). split; [exact Hd0|].
    rewrite Hrev. reflexivity.
Qed.

Lemma both_text_described (h : heap) (a b : val) (la lb : nat) (da db : desc) :
  described h a la da -> described h b lb db ->
  both_text a b h = (h, Ok (is_text_desc da && is_text_desc db)).
Proof.
  intros Ha Hb.
  destruct (getattr_described _ _ _ _ Ha) as [Ta _].
  destruct (getattr_described _ _ _ _ Hb) as [Tb _].
  unfold both_text, bind, reads, ret. rewrite Ta. cbn [val_eqb].
  unfold is_text_desc. destruct (String.eqb (fst da) "text"); [|reflexivity].
  rewrite Tb. reflexivity.
Qed.

Lemma append_pushes (h : heap) (self : list val) (obj : val) (d : dict) :
  as_segment h obj = Some d ->
  (forall prev, last_elem self = Some prev ->
                both_text prev obj h = (h, Ok false)) ->
  append (AVal obj) (h, self) = ((h, self ++ [obj]), Ok tt).
Proof.
  intros Hd Hprev. unfold append, try_except. cbn [fst]. rewrite Hd.
  unfold append_segment, bind, get_self, set_self, lift. cbn [fst snd].
  destruct (last_elem self) as [prev|]; [|reflexivity].
  cbn [fst snd]. rewrite (Hprev prev eq_refl). reflexivity.
Qed.

Lemma append_described (h : heap) (self : list val) (locs : list nat)
    (ds : list desc) (seg : val) (l : nat) (d : desc) :
  represents h self locs ds -> described h seg l d ->
  last_not_text ds = true \/ is_text_desc d = false ->
  append (AVal seg) (h, self) = ((h, self ++ [seg]), Ok tt)
  /\ represents h (self ++ [seg]) (locs ++ [l]) (ds ++ [d]).
Proof.
  intros Hr Hd Hor. split.
  - apply (append_pushes h self seg _ (proj1 Hd)).
    intros prev Hlast.
    destruct (represents_last h ds self locs prev Hr Hlast)
      as [lp [dp [ds' [Hp Hrev]]]].
    rewrite (both_text_described h prev seg lp l dp d Hp Hd).
    unfold last_not_text in Hor. rewrite Hrev in Hor.
    destruct Hor as [Hn|Hn].
    + apply negb_true_iff in Hn. now rewrite Hn.
    + rewrite Hn. now rewrite andb_false_r.
  - apply represents_app; [exact Hr|]. cbn. now split.
Qed.

Lemma dict_set_fresh (d : dict) (k : string) (v : val) :
  existsb (String.eqb k) (map fst d) = false ->
  dict_set d k v = d ++ [(k, v)].
Proof.
  induction d as [|[k' v'] d IH]; [reflexivity|].
  cbn. intros H. apply orb_false_elim in H as [Hk Hd].
  rewrite String.eqb_sym, Hk, (IH Hd). reflexivity.
Qed.

Lemma dict_of_pairs_distinct (ps : list (string * string)) :
  forall d0 : list (string * string),
    distinct (map fst (d0 ++ ps)) = true ->
    dict_of_pairs ps (str_dict d0) = str_dict (d0 ++ ps).
Proof.
  induction ps as [|[k v] ps IH]; intros d0 H.
  - now rewrite app_nil_r.
  - cbn [dict_of_pairs fold_left fst snd].
    change (fold_left _ ps ?d) with (dict_of_pairs ps d).
    rewrite dict_set_fresh.
    + change [(k, VStr v)] with (str_dict [(k, v)]).
      unfold str_dict at 1 2. rewrite <- map_app.
      change (map _ (d0 ++ [(k, v)])) with (str_dict (d0 ++ [(k, v)])).
      rewrite IH; [now rewrite <- app_assoc|].
      now rewrite <- app_assoc.
    + unfold str_dict. rewrite map_map. cbn [fst].
      clear IH. induction d0 as [|[k0 v0] d0 IHd]; [reflexivity|].
      cbn in H. apply andb_prop in H as [Hk0 Hrest].
      cbn. rewrite (IHd Hrest), orb_false_r.
      apply negb_true_iff in Hk0.
      rewrite map_app, existsb_app in Hk0.
      apply orb_false_elim in Hk0 as [_ Hk0]. cbn in Hk0.
      apply orb_false_elim in Hk0 as [Hk0 _].
      now rewrite String.eqb_sym.
Qed.

(** What the two kinds of items of [_split_iter] do on the heap. *)
Lemma text_item_described (pending : string) (h : heap) :
  exists more seg l,
    (data <- alloc (ODict [("text", VStr pending)]) ;;
     MessageSegment VNone (VStr "text") data) h = (h ++ more, Ok seg)
    /\ described (h ++ more) seg l (text_desc pending).
Proof.
  exists [ODict [("text", VStr pending)];
          OSeg [("type", VStr "text"); ("data", VRef (List.length h))]],
    (VRef (S (List.length h))), (List.length h).
  assert (E : h ++ [ODict [("text", VStr pending)];
                    OSeg [("type", VStr "text"); ("data", VRef (List.length h))]]
              = (h ++ [ODict [("text", VStr pending)]])
                  ++ [OSeg [("type", VStr "text"); ("data", VRef (List.length h))]])
    by now rewrite <- app_assoc.
  split.
  - unfold bind, alloc. unfold MessageSegment. cbn [as_dict truthy String.eqb negb].
    rewrite heap_get_alloc. cbn [List.length Nat.eqb negb].
    unfold bind, ret, alloc. rewrite length_app. cbn [List.length].
    rewrite Nat.add_1_r, E. reflexivity.
  - rewrite E. split.
    + replace (S (List.length h))
        with (List.length (h ++ [ODict [("text", VStr pending)]]))
        by (rewrite length_app; cbn; lia).
      apply as_segment_alloc.
    + apply heap_get_old, heap_get_alloc.
Qed.

Lemma token_item_described (t : string) (ps : list (string * string))
    (h : heap) :
  token_ok (CToken t ps) = true ->
  exists more seg l,
    (d <- reads (fun _ => cq_data (join "," (map pair_text ps))) ;;
     data <- alloc (ODict d) ;;
     MessageSegment VNone (VStr t) data) h = (h ++ more, Ok seg)
    /\ described (h ++ more) seg l (t, ps).
Proof.
  cbn [token_ok]. intros H.
  apply andb_prop in H as [H Hdist]. apply andb_prop in H as [H Hps].
  apply andb_prop in H as [_ Hne].
  unfold bind at 1, reads. rewrite (cq_data_pairs ps Hps).
  change (dict_of_pairs ps []) with (dict_of_pairs ps (str_dict [])).
  rewrite (dict_of_pairs_distinct ps [] Hdist). cbn [app].
  unfold bind, alloc, MessageSegment. cbn [as_dict truthy].
  rewrite Hne. rewrite heap_get_alloc.
  destruct ps as [|kv ps].
  - cbn [str_dict map List.length Nat.eqb negb]. unfold bind, alloc.
    exists [ODict []; ODict [];
            OSeg [("type", VStr t); ("data", VRef (S (List.length h)))]],
      (VRef (S (S (List.length h)))), (S (List.length h)).
    assert (E : h ++ [ODict []; ODict [];
                      OSeg [("type", VStr t); ("data", VRef (S (List.length h)))]]
                = ((h ++ [ODict []]) ++ [ODict []])
                    ++ [OSeg [("type", VStr t); ("data", VRef (S (List.length h)))]])
      by now rewrite <- !app_assoc.
    split.
    + rewrite !length_app. cbn [List.length]. rewrite !Nat.add_1_r, E.
      reflexivity.
    + rewrite E. split.
      * replace (S (S (List.length h)))
          with (List.length ((h ++ [ODict []]) ++ [ODict []]))
          by (rewrite !length_app; cbn; lia).
        apply as_segment_alloc.
      * apply heap_get_old.
        replace (S (List.length h)) with (List.length (h ++ [ODict []]))
          by (rewrite length_app; cbn; lia).
        apply heap_get_alloc.
  - cbn [str_dict map List.length Nat.eqb negb]. unfold bind, ret, alloc.
    change ((fst kv, VStr (snd kv)) :: map _ ps) with (str_dict (kv :: ps)).
    exists [ODict (str_dict (kv :: ps));
            OSeg [("type", VStr t); ("data", VRef (List.length h))]],
      (VRef (S (List.length h))), (List.length h).
    assert (E : h ++ [ODict (str_dict (kv :: ps));
                      OSeg [("type", VStr t); ("data", VRef (List.length h))]]
                = (h ++ [ODict (str_dict (kv :: ps))])
                    ++ [OSeg [("type", VStr t); ("data", VRef (List.length h))]])
      by now rewrite <- app_assoc.
    split.
    + rewrite length_app. cbn [List.length]. rewrite Nat.add_1_r, E.
      reflexivity.
    + rewrite E. split.
      * replace (S (List.length h))
          with (List.length (h ++ [ODict (str_dict (kv :: ps))]))
          by (rewrite length_app; cbn; lia).
        apply as_segment_alloc.
      * apply heap_get_old, heap_get_alloc.
Qed.
Lemma for_each_append_step (item : M heap val) (rest : iterable)
    (h h1 : heap) (self : list val) (seg : val) :
  item h = (h1, Ok seg) ->
  append (AVal seg) (h1, self) = ((h1, self ++ [seg]), Ok tt) ->
  for_each_append (item :: rest) (h, self)
  = for_each_append rest (h1, self ++ [seg]).
Proof.
  intros Hi Ha. cbn [for_each_append]. unfold bind, lift. cbn [fst snd].
  rewrite Hi, Ha. reflexivity.
Qed.

Lemma last_not_text_snoc (ds : list desc) (d : desc) :
  last_not_text (ds ++ [d]) = negb (is_text_desc d).
Proof. unfold last_not_text. rewrite rev_app_distr. reflexivity. Qed.

(** The text read so far, then the rest of the items. *)
Lemma text_span_step (pending : string) (l : list (string * string))
    (h : heap) (self : list val) (locs : list nat) (ds : list desc) :
  represents h self locs ds -> last_not_text ds = true ->
  exists more self1 locs1,
    for_each_append (split_items (("text", pending) :: l)) (h, self)
    = for_each_append (split_items l) (h ++ more, self1)
    /\ represents (h ++ more) self1 locs1 (ds ++ emit pending).
Proof.
  intros Hr Hlast. cbn [split_items]. unfold split_item, emit.
  change (String.eqb "text" "text") with true. cbn iota.
  destruct (String.eqb pending "") eqn:Ep; cbn [negb].
  - exists [], self, locs. rewrite !app_nil_r. now split.
  - destruct (text_item_described pending h) as [more [seg [lseg [Hitem Hd]]]].
    pose proof (represents_extends h more ds self locs Hr) as Hr1.
    destruct (append_described (h ++ more) self locs ds seg lseg
                (text_desc pending) Hr1 Hd (or_introl Hlast)) as [Ha Hr2].
    exists more, (self ++ [seg]), (locs ++ [lseg]). split; [|exact Hr2].
    apply (for_each_append_step _ _ h (h ++ more) self seg Hitem Ha).
Qed.

Lemma token_span_step (t : string) (ps : list (string * string))
    (l : list (string * string))
    (h : heap) (self : list val) (locs : list nat) (ds : list desc) :
  represents h self locs ds -> token_ok (CToken t ps) = true ->
  exists more self1 locs1,
    for_each_append
      (split_items ((t, join "," (map pair_text ps)) :: l)) (h, self)
    = for_each_append (split_items l) (h ++ more, self1)
    /\ represents (h ++ more) self1 locs1 (ds ++ [(t, ps)]).
Proof.
  intros Hr Hok. cbn [split_items]. unfold split_item.
  assert (Ht : String.eqb t "text" = false).
  { cbn [token_ok] in Hok. apply andb_prop in Hok as [Hok _].
    apply andb_prop in Hok as [Hok _]. apply andb_prop in Hok as [Hok _].
    now apply negb_true_iff in Hok. }
  rewrite Ht.
  destruct (token_item_described t ps h Hok) as [more [seg [lseg [Hitem Hd]]]].
  pose proof (represents_extends h more ds self locs Hr) as Hr1.
  destruct (append_described (h ++ more) self locs ds seg lseg (t, ps)
              Hr1 Hd (or_intror Ht)) as [Ha Hr2].
  exists more, (self ++ [seg]), (locs ++ [lseg]). split; [|exact Hr2].
  apply (for_each_append_step _ _ h (h ++ more) self seg Hitem Ha).
Qed.

Lemma for_each_parsed (cs : list chunk) :
  forall (pending : string) (h : heap) (self : list val) (locs : list nat)
         (ds : list desc),
    represents h self locs ds -> last_not_text ds = true ->
    forallb token_ok cs = true ->
    exists more self' locs',
      for_each_append (split_items (chunk_spans pending cs)) (h, self)
      = ((h ++ more, self'), Ok tt)
      /\ represents (h ++ more) self' locs' (ds ++ parsed pending cs).
Proof.
  induction cs as [|[s|t ps] cs IH]; intros pending h self locs ds Hr Hlast Hok.
  - cbn [chunk_spans parsed].
    destruct (text_span_step pending [] h self locs ds Hr Hlast)
      as [more [self1 [locs1 [E Hr1]]]].
    exists more, self1, locs1. split; [|exact Hr1].
    etransitivity; [exact E|reflexivity].
  - cbn [chunk_spans parsed]. cbn [forallb token_ok andb] in Hok.
    apply (IH (pending ++ s)%string h self locs ds); assumption.
  - cbn [chunk_spans parsed]. cbn [forallb] in Hok.
    apply andb_prop in Hok as [Htok Hok].
    destruct (text_span_step pending
                ((t, join "," (map pair_text ps)) :: chunk_spans "" cs)
                h self locs ds Hr Hlast)
      as [more1 [self1 [locs1 [E1 Hr1]]]].
    destruct (token_span_step t ps (chunk_spans "" cs)
                (h ++ more1) self1 locs1 (ds ++ emit pending) Hr1 Htok)
      as [more2 [self2 [locs2 [E2 Hr2]]]].
    assert (Hlast2 : last_not_text ((ds ++ emit pending) ++ [(t, ps)]) = true).
    { rewrite last_not_text_snoc. unfold is_text_desc. cbn [fst].
      cbn [token_ok] in Htok. apply andb_prop in Htok as [Htok _].
      apply andb_prop in Htok as [Htok _]. apply andb_prop in Htok as [Htok _].
      exact Htok. }
    destruct (IH "" ((h ++ more1) ++ more2) self2 locs2 _ Hr2 Hlast2 Hok)
      as [more3 [self3 [locs3 [E3 Hr3]]]].
    exists (more1 ++ more2 ++ more3), self3, locs3.
    rewrite <- !app_assoc in Hr3. split; [|exact Hr3].
    etransitivity; [exact E1|]. etransitivity; [exact E2|].
    etransitivity; [exact E3|]. now rewrite <- !app_assoc.
Qed.

(** Parsing the text of the pieces gives the segments [parsed]. *)
Lemma Message_parsed (cs : list chunk) (h : heap) :
  forallb chunk_ok cs = true -> forallb token_ok cs = true ->
  exists more self locs,
    Message (AVal (VStr (chunks_text cs))) h = (h ++ more, Ok self)
    /\ represents (h ++ more) self locs (parsed "" cs).
Proof.
  intros Hc Ht.
  destruct (for_each_parsed cs "" h [] [] [] I eq_refl Ht)
    as [more [self [locs [E Hr]]]].
  exists more, self, locs. split; [|exact Hr].
  unfold Message, Message_init, extend, try_except, bind, lift, reads.
  cbn [fst snd iter_of]. unfold _split_iter.
  rewrite (iter_chunks cs Hc).
  change (for_each_append (split_items (chunk_spans "" cs)) (h, []))
    with (for_each_append (split_items (chunk_spans "" cs))
            ((h, []) : mstate)).
  unfold mstate in *. rewrite E. reflexivity.
Qed.

(** ** Reduce on described segments *)

Lemma represents_length (h : heap) (ds : list desc) :
  forall (self : list val) (locs : list nat),
    represents h self locs ds ->
    List.length self = List.length ds /\ List.length locs = List.length ds.
Proof.
  induction ds as [|d ds IH]; intros [|v self] [|l locs]; cbn; try tauto.
  intros [_ Hr]. destruct (IH _ _ Hr). split; congruence.
Qed.

Lemma represents_app_inv (h : heap) (self1 : list val) :
  forall (self2 : list val) (locs : list nat) (ds : list desc),
    represents h (self1 ++ self2) locs ds ->
    exists locs1 locs2 ds1 ds2,
      locs = locs1 ++ locs2 /\ ds = ds1 ++ ds2
      /\ represents h self1 locs1 ds1 /\ represents h self2 locs2 ds2.
Proof.
  induction self1 as [|v self1 IH]; intros self2 locs ds Hr.
  - exists [], locs, [], ds. cbn. tauto.
  - destruct locs as [|l locs], ds as [|d ds]; cbn in Hr; try contradiction.
    destruct Hr as [Hd Hr].
    destruct (IH _ _ _ Hr) as [l1 [l2 [d1 [d2 [-> [-> [H1 H2]]]]]]].
    exists (l :: l1), l2, (d :: d1), d2. cbn. tauto.
Qed.

Lemma represents_snoc_inv (h : heap) (self : list val) (prev : val)
    (locs : list nat) (ds : list desc) :
  represents h (self ++ [prev]) locs ds ->
  exists locs0 lp ds0 dp,
    locs = locs0 ++ [lp] /\ ds = ds0 ++ [dp]
    /\ represents h self locs0 ds0 /\ described h prev lp dp.
Proof.
  intros Hr.
  destruct (represents_app_inv _ _ _ _ _ Hr)
    as [l1 [l2 [d1 [d2 [-> [-> [H1 H2]]]]]]].
  destruct l2 as [|lp [|? ?]], d2 as [|dp [|? ?]]; cbn in H2; try tauto.
  exists l1, lp, d1, dp. tauto.
Qed.

Lemma described_set (h : heap) (v : val) (l lp : nat) (d : desc)
    (x y : dict) :
  described h v l d -> l <> lp -> heap_get h lp = Some (ODict x) ->
  described (heap_set h lp (ODict y)) v l d.
Proof.
  intros [Hs Hl] Hne Hlp. split.
  - destruct v as [| |lv]; try discriminate. cbn in *.
    rewrite heap_get_set. destruct (Nat.eqb_spec lv lp) as [->|_]; [|exact Hs].
    rewrite Hlp in Hs. discriminate.
  - rewrite heap_get_set.
    destruct (Nat.eqb_spec l lp) as [E|_]; [contradiction|exact Hl].
Qed.

Lemma represents_set (h : heap) (lp : nat) (x y : dict) (ds : list desc) :
  forall (self : list val) (locs : list nat),
    represents h self locs ds -> ~ In lp locs ->
    heap_get h lp = Some (ODict x) ->
    represents (heap_set h lp (ODict y)) self locs ds.
Proof.
  induction ds as [|d ds IH]; intros [|v self] [|l locs]; cbn; try tauto.
  intros [Hd Hr] Hin Hlp. split.
  - apply (described_set h v l lp d x y Hd); [|exact Hlp].
    intros ->. apply Hin. now left.
  - apply IH; [exact Hr| |exact Hlp]. intros H. apply Hin. now right.
Qed.

Lemma del_at_app (a : list val) (x : val) (b : list val) :
  del_at (List.length a) (a ++ x :: b) = a ++ b.
Proof.
  unfold del_at. rewrite firstn_app, Nat.sub_diag, firstn_all. cbn [firstn].
  rewrite app_nil_r. f_equal.
  induction a as [|y a IH]; [reflexivity|exact IH].
Qed.

Lemma text_desc_shape (d : desc) :
  is_text_desc d = true -> text_shape d = true ->
  d = text_desc (desc_payload d).
Proof.
  destruct d as [t ps]. unfold is_text_desc, text_shape, is_text_desc,
    text_desc, desc_payload. cbn [fst snd].
  intros Ht. rewrite Ht. apply String.eqb_eq in Ht. subst t.
  destruct ps as [|[k s] [|? ?]]; try discriminate.
  intros Hk. apply String.eqb_eq in Hk. now subst k.
Qed.

Lemma merge_text_described (h : heap) (prev cur : val) (lp lc : nat)
    (a b : string) :
  described h prev lp (text_desc a) -> described h cur lc (text_desc b) ->
  merge_text prev cur h
  = (heap_set h lp (ODict [("text", VStr (a ++ b)%string)]), Ok tt).
Proof.
  intros Hp Hc.
  destruct (getattr_described _ _ _ _ Hp) as [_ Dp].
  destruct (getattr_described _ _ _ _ Hc) as [_ Dc].
  destruct Hp as [_ Lp]. destruct Hc as [_ Lc].
  unfold merge_text, bind, reads. rewrite Dp. cbn [getitem].
  rewrite Lp. cbn [text_desc snd str_dict map fst dict_get].
  change (String.eqb "text" "text") with true. cbn iota.
  rewrite Dc. cbn [getitem]. rewrite Lc.
  cbn [text_desc snd str_dict map fst dict_get].
  change (String.eqb "text" "text") with true. cbn iota. cbn [add].
  unfold setitem. rewrite Lp. cbn [text_desc snd str_dict map fst dict_set].
  change (String.eqb "text" "text") with true. reflexivity.
Qed.

Lemma reduce_loop_descs (rd : list desc) :
  forall (rv : list val) (rl : list nat) (dv : list val) (dl : list nat)
         (dd : list desc) (h : heap) (turns : nat),
    represents h dv dl dd -> represents h rv rl rd ->
    NoDup (dl ++ rl) ->
    forallb text_shape (dd ++ rd) = true ->
    List.length rv <= turns ->
    exists h' self' locs',
      reduce_loop turns (List.length dv) (h, dv ++ rv) = ((h', self'), Ok tt)
      /\ represents h' self' locs' (fold_left merge_step rd dd).
Proof.
  induction rd as [|dc rd IH];
    intros rv rl dv dl dd h turns Hdv Hrv Hnd Hshape Hturns.
  - destruct rv, rl; cbn in Hrv; try contradiction.
    exists h, dv, dl. rewrite app_nil_r. split; [|exact Hdv].
    destruct turns as [|t]; [reflexivity|].
    rewrite reduce_loop_S. cbn [snd].
    now rewrite Nat.ltb_irrefl.
  - destruct rv as [|cur rv], rl as [|lc rl]; cbn in Hrv; try contradiction.
    destruct Hrv as [Hcur Hrv].
    destruct turns as [|t]; [cbn in Hturns; lia|].
    cbn [List.length] in Hturns.
    rewrite reduce_loop_S. cbn [snd].
    destruct (Nat.ltb_spec (List.length dv) (List.length (dv ++ cur :: rv)))
      as [_|Hge]; [|rewrite length_app in Hge; cbn in Hge; lia].
    cbn [fold_left].
    destruct (rev dv) as [|prev rdv0] eqn:Erev.
    + (* the first element *)
      apply (f_equal (@rev val)) in Erev. rewrite rev_involutive in Erev.
      cbn in Erev. subst dv.
      destruct dl, dd; cbn in Hdv; try contradiction.
      cbn [List.length app]. rewrite reduce_step_zero.
      apply (IH rv rl [cur] [lc] [dc] h t); cbn; try tauto; try lia.
    + apply (f_equal (@rev val)) in Erev. rewrite rev_involutive in Erev.
      cbn [rev] in Erev. subst dv. set (dv0 := rev rdv0) in *.
      destruct (represents_snoc_inv _ _ _ _ _ Hdv)
        as [dl0 [lp [dd0 [dp [-> [-> [Hdv0 Hprev]]]]]]].
      assert (Hn1 : nth_error ((dv0 ++ [prev]) ++ cur :: rv) (List.length dv0)
                    = Some prev).
      { rewrite <- app_assoc. rewrite nth_error_app2 by lia.
        now rewrite Nat.sub_diag. }
      assert (Hn2 : nth_error ((dv0 ++ [prev]) ++ cur :: rv)
                      (S (List.length dv0)) = Some cur).
      { rewrite nth_error_app2 by (rewrite length_app; cbn; lia).
        rewrite length_app. cbn [List.length].
        replace (S (List.length dv0) - (List.length dv0 + 1)) with 0 by lia.
        reflexivity. }
      assert (Elen : List.length (dv0 ++ [prev]) = S (List.length dv0))
        by (rewrite length_app; cbn; lia).
      rewrite Elen.
      rewrite (reduce_step_cases _ h _ prev cur Hn1 Hn2).
      rewrite (both_text_described h prev cur lp lc dp dc Hprev Hcur).
      cbn [snd]. unfold merge_step. rewrite rev_app_distr. cbn [rev app].
      destruct (is_text_desc dp && is_text_desc dc) eqn:Eboth.
      * apply andb_prop in Eboth as [Tp Tc].
        rewrite forallb_app in Hshape. apply andb_prop in Hshape as [Hs1 Hs2].
        rewrite forallb_app in Hs1. apply andb_prop in Hs1 as [Hs0 Hsp].
        cbn [forallb] in Hsp, Hs2.
        apply andb_prop in Hsp as [Hsp _]. apply andb_prop in Hs2 as [Hsc Hsr].
        pose proof (text_desc_shape dp Tp Hsp) as Ep.
        pose proof (text_desc_shape dc Tc Hsc) as Ec.
        set (a := desc_payload dp) in *. set (b := desc_payload dc) in *.
        rewrite Ep in Hprev. rewrite Ec in Hcur.
        rewrite (merge_text_described h prev cur lp lc a b Hprev Hcur).
        rewrite <- Elen, del_at_app, rev_involutive.
        set (h' := heap_set h lp (ODict [("text", VStr (a ++ b)%string)])).
        assert (Hlp : heap_get h lp = Some (ODict (str_dict (snd (text_desc a)))))
          by apply Hprev.
        pose proof (NoDup_remove_1 (dl0 ++ [lp]) rl lc Hnd) as Hnd'.
        rewrite <- app_assoc in Hnd. cbn [app] in Hnd.
        apply NoDup_remove in Hnd as [Hnd Hnotin].
        assert (Hnot0 : ~ In lp dl0)
          by (intros Hin; apply Hnotin, in_or_app; now left).
        assert (Hnotr : ~ In lp rl).
        { intros Hin. apply Hnotin, in_or_app. right. now right. }
        assert (Hdv' : represents h' (dv0 ++ [prev]) (dl0 ++ [lp])
                         (dd0 ++ [text_desc (a ++ b)])).
        { apply represents_app.
          - apply (represents_set h lp _ _ dd0 dv0 dl0 Hdv0 Hnot0 Hlp).
          - cbn. split; [|exact I]. split.
            + destruct Hprev as [Hs _].
              destruct prev as [| |lv]; try discriminate. cbn in *.
              unfold h'. rewrite heap_get_set.
              destruct (Nat.eqb_spec lv lp) as [->|_]; [|exact Hs].
              rewrite Hlp in Hs. discriminate.
            + unfold h'. rewrite heap_get_set, Nat.eqb_refl, Hlp. reflexivity. }
        assert (Hrv' : represents h' rv rl rd)
          by apply (represents_set h lp _ _ rd rv rl Hrv Hnotr Hlp).
        apply (IH rv rl (dv0 ++ [prev]) (dl0 ++ [lp])
                 (dd0 ++ [text_desc (a ++ b)]) h' t Hdv' Hrv').
        -- exact Hnd'.
        -- rewrite !forallb_app. rewrite Hs0, Hsr. reflexivity.
        -- lia.
      * replace (S (S (List.length dv0)))
          with (List.length ((dv0 ++ [prev]) ++ [cur]))
          by (rewrite !length_app; cbn; lia).
        replace ((dv0 ++ [prev]) ++ cur :: rv)
          with (((dv0 ++ [prev]) ++ [cur]) ++ rv)
          by (now rewrite <- (app_assoc _ [cur] rv)).
        apply (IH rv rl ((dv0 ++ [prev]) ++ [cur]) ((dl0 ++ [lp]) ++ [lc])
                 ((dd0 ++ [dp]) ++ [dc]) h t).
        -- apply represents_app; [exact Hdv|]. cbn. tauto.
        -- exact Hrv.
        -- now rewrite <- (app_assoc _ [lc] rl).
        -- now rewrite <- (app_assoc _ [dc] rd).
        -- lia.
Qed.
(** ** Reduce and the parser agree *)

Lemma emit_app_nonempty (pending s : string) :
  String.eqb s "" = false -> emit (pending ++ s) = [text_desc (pending ++ s)].
Proof.
  intros Hs. unfold emit.
  destruct pending as [|c p]; cbn [String.append]; [now rewrite Hs|].
  reflexivity.
Qed.

Lemma merge_step_token (X : list desc) (d : desc) :
  is_text_desc d = false -> merge_step X d = X ++ [d].
Proof.
  intros Hd. unfold merge_step.
  destruct (rev X) as [|p before] eqn:E.
  - apply (f_equal (@rev desc)) in E. rewrite rev_involutive in E.
    now subst X.
  - now rewrite Hd, andb_false_r.
Qed.

Lemma merge_step_text (base : list desc) (pending s : string) :
  last_not_text base = true -> String.eqb s "" = false ->
  merge_step (base ++ emit pending) (text_desc s)
  = base ++ emit (pending ++ s).
Proof.
  intros Hlast Hs. rewrite (emit_app_nonempty pending s Hs).
  unfold emit, merge_step.
  destruct (String.eqb pending "") eqn:Ep.
  - apply String.eqb_eq in Ep. subst pending. rewrite app_nil_r.
    cbn [String.append]. unfold last_not_text in Hlast.
    destruct (rev base) as [|p before] eqn:E.
    + apply (f_equal (@rev desc)) in E. rewrite rev_involutive in E.
      now subst base.
    + apply negb_true_iff in Hlast. now rewrite Hlast.
  - rewrite rev_app_distr. cbn [rev app].
    change (is_text_desc (text_desc pending)) with true.
    change (is_text_desc (text_desc s)) with true. cbn [andb].
    now rewrite rev_involutive.
Qed.

Lemma merge_parsed (ds : list desc) :
  forall (base : list desc) (pending : string),
    last_not_text base = true -> forallb desc_ok ds = true ->
    fold_left merge_step ds (base ++ emit pending)
    = base ++ parsed pending (map chunk_of ds).
Proof.
  induction ds as [|d ds IH]; intros base pending Hlast Hok; [reflexivity|].
  cbn [forallb] in Hok. apply andb_prop in Hok as [Hd Hok].
  cbn [fold_left map]. unfold chunk_of at 1. unfold desc_ok in Hd.
  destruct (is_text_desc d) eqn:Et.
  - destruct d as [t ps]. unfold is_text_desc in Et. cbn [fst snd] in *.
    apply String.eqb_eq in Et. subst t.
    destruct ps as [|[k s] [|? ?]]; try discriminate.
    apply andb_prop in Hd as [Hd _]. apply andb_prop in Hd as [Hk Hs].
    apply String.eqb_eq in Hk. subst k. apply negb_true_iff in Hs.
    change ("text", [("text", s)]) with (text_desc s).
    rewrite (merge_step_text base pending s Hlast Hs).
    cbn [parsed desc_payload text_desc snd]. now apply IH.
  - rewrite (merge_step_token _ d Et). cbn [parsed].
    rewrite <- (app_nil_r ((base ++ emit pending) ++ [d])).
    change (@nil desc) with (emit "") at 2.
    rewrite IH; [|rewrite last_not_text_snoc; now rewrite Et|exact Hok].
    destruct d as [t ps]. cbn [fst snd]. now rewrite <- !app_assoc.
Qed.

Lemma merge_adjacent_parsed (ds : list desc) :
  forallb desc_ok ds = true ->
  merge_adjacent ds = parsed "" (map chunk_of ds).
Proof.
  intros Hok. apply (merge_parsed ds [] "" eq_refl Hok).
Qed.

(** The conditions on the segments give those on the pieces. *)
Lemma all_chr_has_chr (p : ascii -> bool) (c : ascii) (s : string) :
  all_chr p s = true -> p c = false -> has_chr c s = false.
Proof.
  intros Hall Hc. induction s as [|x s IH]; [reflexivity|].
  cbn in *. apply andb_prop in Hall as [Hx Hs]. rewrite (IH Hs), orb_false_r.
  destruct (Ascii.eqb_spec x c) as [->|_]; [congruence|reflexivity].
Qed.

Lemma plain_value_not_comma_bracket (v : string) :
  plain_value v = true -> all_chr not_comma_bracket v = true.
Proof.
  unfold plain_value, plain. intros H.
  apply andb_prop in H as [H Hc]. apply andb_prop in H as [_ Hb].
  apply negb_true_iff in Hc, Hb.
  induction v as [|x v IH]; [reflexivity|].
  cbn in *. apply orb_false_elim in Hc as [Hc1 Hc2].
  apply orb_false_elim in Hb as [Hb1 Hb2].
  rewrite (IH Hb2 Hc2), andb_true_r.
  unfold not_comma_bracket. now rewrite Hc1, Hb1.
Qed.

Lemma name_ok_key_ok (k : string) : name_ok k = true -> key_ok k = true.
Proof.
  intros H. apply name_ok_facts in H as [Hne Hall]. unfold key_ok.
  rewrite (all_chr_has_chr is_name_char "," k Hall eq_refl).
  rewrite (all_chr_has_chr is_name_char "=" k Hall eq_refl).
  destruct k as [|c k]; [congruence|].
  cbn in Hall. apply andb_prop in Hall as [Hc _].
  cbn [negb andb]. rewrite andb_true_r.
  destruct (is_space c) eqn:Es; [|reflexivity].
  exfalso. revert Hc Es. clear.
  destruct c as [[] [] [] [] [] [] [] []]; cbn; discriminate.
Qed.

Lemma desc_ok_chunks (ds : list desc) :
  forallb desc_ok ds = true ->
  forallb chunk_ok (map chunk_of ds) = true
  /\ forallb token_ok (map chunk_of ds) = true
  /\ forallb text_shape ds = true.
Proof.
  induction ds as [|d ds IH]; [now repeat split|].
  cbn [forallb map]. intros H. apply andb_prop in H as [Hd Hok].
  destruct (IH Hok) as [H1 [H2 H3]]. rewrite H1, H2, H3, !andb_true_r.
  unfold desc_ok in Hd. unfold chunk_of, text_shape.
  destruct (is_text_desc d) eqn:Et.
  - destruct d as [t ps]. cbn [fst snd] in *.
    destruct ps as [|[k s] [|? ?]]; try discriminate.
    apply andb_prop in Hd as [Hd Hplain]. apply andb_prop in Hd as [Hk _].
    cbn [chunk_ok token_ok desc_payload snd]. rewrite Hk.
    unfold plain in Hplain. apply andb_prop in Hplain as [Hp _].
    apply andb_prop in Hp as [_ Hb]. now rewrite Hb.
  - destruct d as [t ps]. unfold is_text_desc in Et. cbn [fst snd] in *.
    apply andb_prop in Hd as [Hd Hdist]. apply andb_prop in Hd as [Ht Hps].
    cbn [chunk_ok token_ok]. rewrite Ht, Hdist, Et. cbn [negb andb].
    destruct (name_ok_facts t Ht) as [Hne _].
    assert (Hne' : String.eqb t "" = false).
    { destruct t; [congruence|reflexivity]. }
    rewrite Hne'. cbn [negb andb]. rewrite andb_true_r.
    rewrite forallb_forall in Hps.
    assert (Hparam : forallb param_ok ps = true).
    { apply forallb_forall. intros kv Hin. specialize (Hps kv Hin).
      apply andb_prop in Hps as [Hk Hv]. unfold param_ok.
      now rewrite Hk, (plain_value_not_comma_bracket _ Hv). }
    assert (Hpair : forallb pair_ok ps = true).
    { apply forallb_forall. intros kv Hin. specialize (Hps kv Hin).
      apply andb_prop in Hps as [Hk Hv]. unfold pair_ok, value_ok.
      rewrite (name_ok_key_ok _ Hk). unfold plain_value in Hv.
      now apply andb_prop in Hv as [_ ->]. }
    rewrite Hparam, Hpair. now repeat split.
Qed.
(** ** The round trip *)

(** Where escaping changes nothing the round trip holds: for a message
    whose segments are as [desc_ok] says (text payloads not empty, types
    and keys made of name characters, no reserved character in a text
    payload or a value) and share no data dict, rendering succeeds,
    [reduce] returns, and parsing the rendered string, on any heap, gives
    a message with the same segments as the reduced one. *)
Theorem round_trip_plain
    (str_of_ref : heap -> nat -> result string)
    (h : heap) (self : list val) (locs : list nat) (ds : list desc) :
  represents h self locs ds -> NoDup locs -> forallb desc_ok ds = true ->
  exists s : string,
    Message_str str_of_ref self h = (h, Ok s)
    /\ (exists h2 self2 locs2,
          reduce (h, self) = ((h2, self2), Ok tt)
          /\ represents h2 self2 locs2 (merge_adjacent ds))
    /\ (forall h0 : heap,
          exists h1 self1 locs1,
            Message (AVal (VStr s)) h0 = (h1, Ok self1)
            /\ represents h1 self1 locs1 (merge_adjacent ds)).
Proof.
  intros Hr Hnd Hok.
  destruct (desc_ok_chunks ds Hok) as [Hc [Ht Hshape]].
  exists (chunks_text (map chunk_of ds)). split; [|split].
  - apply (Message_str_represents str_of_ref h ds self locs Hr Hok).
  - destruct (represents_length h ds self locs Hr) as [Hlen _].
    destruct (reduce_loop_descs ds self locs [] [] [] h (List.length self)
                I Hr Hnd Hshape (le_n _)) as [h2 [self2 [locs2 [E Hr2]]]].
    exists h2, self2, locs2. split; [exact E|exact Hr2].
  - intros h0.
    destruct (Message_parsed (map chunk_of ds) h0 Hc Ht)
      as [more [self1 [locs1 [E Hr1]]]].
    exists (h0 ++ more), self1, locs1. split; [exact E|].
    rewrite (merge_adjacent_parsed ds Hok). exact Hr1.
Qed.

Lemma round_trip_plain_witness :
  exists s : string,
    Message_str (fun _ _ => Ok "") [VRef 1; VRef 5; VRef 3]
      (fst (text_image_text "a" "f" "b"))
    = (fst (text_image_text "a" "f" "b"), Ok s)
    /\ (exists h2 self2 locs2,
          reduce (fst (text_image_text "a" "f" "b"), [VRef 1; VRef 5; VRef 3])
          = ((h2, self2), Ok tt)
          /\ represents h2 self2 locs2
               (merge_adjacent
                  [text_desc "a"; text_desc "b"; ("image", [("file", "f")])]))
    /\ (forall h0 : heap,
          exists h1 self1 locs1,
            Message (AVal (VStr s)) h0 = (h1, Ok self1)
            /\ represents h1 self1 locs1
                 (merge_adjacent
                    [text_desc "a"; text_desc "b"; ("image", [("file", "f")])])).
Proof.
  apply (round_trip_plain (fun _ _ => Ok "")
           (fst (text_image_text "a" "f" "b")) [VRef 1; VRef 5; VRef 3]
           [0; 4; 2]
           [text_desc "a"; text_desc "b"; ("image", [("file", "f")])]).
  - cbn. repeat split; reflexivity.
  - repeat constructor; cbn; intuition discriminate.
  - reflexivity.
Defined.

(** C4 (what the code does at the failing input): a share segment whose
    title is a,b has no raw control sequence; [__str__] writes the comma
    as &#44;, [reduce] leaves the message as it is, and the parser, which
    never calls [unescape], reads the title back as a&#44;b, so the
    parsed message is not the message that was composed, though
    [unescape] would give a,b back. *)
Theorem round_trip_fails_on_comma :
  represents share_with_comma [VRef 1] [0] [("share", [("title", "a,b")])]
  /\ Message_str (fun _ _ => Ok "") [VRef 1] share_with_comma
     = (share_with_comma, Ok "[CQ:share,title=a&#44;b]")
  /\ reduce (share_with_comma, [VRef 1])
     = ((share_with_comma, [VRef 1]), Ok tt)
  /\ Message (AVal (VStr "[CQ:share,title=a&#44;b]")) []
     = ([ODict [("title", VStr "a&#44;b")];
         OSeg [("type", VStr "share"); ("data", VRef 0)]], Ok [VRef 1])
  /\ represents
       [ODict [("title", VStr "a&#44;b")];
        OSeg [("type", VStr "share"); ("data", VRef 0)]]
       [VRef 1] [0] [("share", [("title", "a&#44;b")])]
  /\ ~ (exists locs1,
          represents
            [ODict [("title", VStr "a&#44;b")];
             OSeg [("type", VStr "share"); ("data", VRef 0)]]
            [VRef 1] locs1 [("share", [("title", "a,b")])])
  /\ unescape "a&#44;b" = "a,b".
Proof.
  repeat split; try reflexivity.
  intros [locs1 H]. destruct locs1 as [|l [|? ?]]; cbn in H; try tauto.
  destruct H as [[Hs Hl] _]. cbn in Hs. injection Hs as <-.
  cbn in Hl. discriminate.
Qed.

(** An empty text segment is rendered as nothing, and the parser yields
    only non-empty text (the guard of line 193), so it does not come back
    from the string. *)
Lemma empty_text_not_parsed_back :
  Message_str (fun _ _ => Ok "") [VRef 1] (two_texts "" "b")
  = (two_texts "" "b", Ok "")
  /\ Message (AVal (VStr "")) (two_texts "" "b") = (two_texts "" "b", Ok []).
Proof. split; reflexivity. Qed.

(** ** More on the escape codec *)

Lemma tok_map_app (f : ascii -> string) (a b : string) :
  tok_map f (a ++ b) = (tok_map f a ++ tok_map f b)%string.
Proof.
  induction a as [|c a IH]; [reflexivity|].
  cbn [String.append tok_map]. now rewrite IH, string_app_assoc.
Qed.

Lemma escape_concat (a b : string) (escape_comma : bool) :
  escape (a ++ b) escape_comma
  = (escape a escape_comma ++ escape b escape_comma)%string.
Proof. rewrite !escape_tok_map. apply tok_map_app. Qed.

(** X1: [escape] works character by character, so it distributes over
    concatenation. *)
Theorem escape_app (a b : string) (escape_comma : bool) :
  escape (a ++ b) escape_comma
  = (escape a escape_comma ++ escape b escape_comma)%string.
Proof. apply escape_concat. Qed.

Lemma tok_reserved (comma : bool) (c : ascii) :
  tok true true true comma c
  = if reserved comma c then tok true true true comma c
    else String c EmptyString.
Proof.
  unfold reserved, tok. cbn [andb].
  destruct (Ascii.eqb c "&"), (Ascii.eqb c "["), (Ascii.eqb c "]"),
    comma, (Ascii.eqb c ","); reflexivity.
Qed.

Lemma tok_has_no (comma : bool) (c x : ascii) :
  reserved comma x = true -> Ascii.eqb x "&" = false ->
  has_chr x (tok true true true comma c) = false.
Proof.
  intros Hx Hamp.
  assert (Hcases : x = "["%char \/ x = "]"%char
                   \/ (comma = true /\ x = ","%char)).
  { unfold reserved in Hx. rewrite Hamp in Hx. cbn [orb] in Hx.
    destruct (Ascii.eqb_spec x "["); [now left|].
    destruct (Ascii.eqb_spec x "]"); [now right; left|].
    destruct comma; [|discriminate].
    destruct (Ascii.eqb_spec x ","); [now right; right|discriminate]. }
  clear Hx Hamp. unfold tok. cbn [andb].
  destruct (Ascii.eqb_spec c "&") as [->|N1];
    [destruct Hcases as [->|[->|[_ ->]]]; reflexivity|].
  destruct (Ascii.eqb_spec c "[") as [->|N2];
    [destruct Hcases as [->|[->|[_ ->]]]; reflexivity|].
  destruct (Ascii.eqb_spec c "]") as [->|N3];
    [destruct Hcases as [->|[->|[_ ->]]]; reflexivity|].
  destruct comma; cbn [andb].
  - destruct (Ascii.eqb_spec c ",") as [->|N4];
      [destruct Hcases as [->|[->|[_ ->]]]; reflexivity|].
    cbn [has_chr]. rewrite orb_false_r.
    destruct Hcases as [->|[->|[_ ->]]];
      apply Ascii.eqb_neq; assumption.
  - cbn [has_chr]. rewrite orb_false_r.
    destruct Hcases as [->|[->|[E _]]]; [| |discriminate];
      apply Ascii.eqb_neq; assumption.
Qed.

(** X2: The result of [escape] holds no bracket, and no comma when commas are
    escaped: an escaped value cannot end a token or a parameter. *)
Theorem escape_no_reserved (s : string) (escape_comma : bool) :
  has_chr "[" (escape s escape_comma) = false
  /\ has_chr "]" (escape s escape_comma) = false
  /\ (escape_comma = true -> has_chr "," (escape s escape_comma) = false).
Proof.
  rewrite escape_tok_map.
  assert (H : forall x, reserved escape_comma x = true ->
                        Ascii.eqb x "&" = false ->
                        has_chr x (tok_map (tok true true true escape_comma) s)
                        = false).
  { intros x Hx Ha. induction s as [|c s IH]; [reflexivity|].
    cbn [tok_map]. rewrite has_chr_app, IH, orb_false_r.
    now apply tok_has_no. }
  split; [|split].
  - apply H; [|reflexivity]. unfold reserved. cbn. reflexivity.
  - apply H; [|reflexivity]. unfold reserved. cbn. reflexivity.
  - intros ->. apply H; reflexivity.
Qed.

Lemma escape_no_reserved_witness :
  has_chr "," (escape "a,b]" true) = false.
Proof. apply (proj2 (proj2 (escape_no_reserved "a,b]" true))). reflexivity. Defined.

Lemma keep_comma (s : string) :
  replace "&#44;" "," (tok_map (tok true true true false) s)
  = tok_map (tok true true true false) s.
Proof.
  unfold replace.
  induction s as [|c t IH]; [reflexivity|].
  cbn [tok_map]. tok_cases c;
    try (cbn; rewrite ?prefix_empty; cbn; now rewrite IH).
  cbn [String.append replace_from]. rewrite prefix_amp_false by assumption.
  now rewrite IH.
Qed.

Lemma unescape_after_escape (s : string) (escape_comma : bool) :
  unescape (escape s escape_comma) = s.
Proof.
  destruct escape_comma; [apply unescape_escape|].
  unfold unescape.
  rewrite escape_tok_map, keep_comma, undo_lb, undo_rb, undo_amp.
  reflexivity.
Qed.

(** X3: [unescape] undoes [escape] also when commas are left as they are (the
    form in which a text segment is rendered). *)
Theorem unescape_escape_any (s : string) (escape_comma : bool) :
  unescape (escape s escape_comma) = s.
Proof. apply unescape_after_escape. Qed.

(** X4: [escape] loses nothing: two strings with the same escaped form are
    the same string. *)
Theorem escape_injective (s t : string) (escape_comma : bool) :
  escape s escape_comma = escape t escape_comma -> s = t.
Proof.
  intros H. rewrite <- (unescape_after_escape s escape_comma), H.
  apply unescape_after_escape.
Qed.

Lemma escape_injective_witness :
  escape "a&b" true = escape "a&b" true /\ "a&b" = "a&b".
Proof.
  split; [reflexivity|].
  apply (escape_injective "a&b" "a&b" true). reflexivity.
Defined.

Lemma tok_length (comma : bool) (c : ascii) :
  String.length (tok true true true comma c)
  = 1 + (if reserved comma c then 4 else 0).
Proof.
  unfold reserved, tok. cbn [andb].
  destruct (Ascii.eqb c "&"), (Ascii.eqb c "["), (Ascii.eqb c "]"),
    comma, (Ascii.eqb c ","); reflexivity.
Qed.

Lemma escape_grows (s : string) (escape_comma : bool) :
  String.length (escape s escape_comma)
  = String.length s + 4 * count_chr (reserved escape_comma) s.
Proof.
  rewrite escape_tok_map. induction s as [|c s IH]; [reflexivity|].
  cbn [tok_map count_chr String.length].
  rewrite string_length_app, tok_length, IH.
  destruct (reserved escape_comma c); lia.
Qed.

(** X5: Every reserved character grows by four characters, and nothing else
    changes the length. *)
Theorem escape_length (s : string) (escape_comma : bool) :
  String.length (escape s escape_comma)
  = String.length s + 4 * count_chr (reserved escape_comma) s.
Proof. apply escape_grows. Qed.

Lemma count_zero_tok_map (comma : bool) (s : string) :
  count_chr (reserved comma) s = 0 ->
  tok_map (tok true true true comma) s = s.
Proof.
  induction s as [|c s IH]; [reflexivity|].
  cbn [count_chr tok_map]. rewrite tok_reserved.
  destruct (reserved comma c); [discriminate|].
  cbn. intros H. now rewrite IH.
Qed.

(** X6: [escape] leaves a string as it is exactly when the string holds no
    reserved character. *)
Theorem escape_fixed_iff (s : string) (escape_comma : bool) :
  escape s escape_comma = s <-> count_chr (reserved escape_comma) s = 0.
Proof.
  split.
  - intros H. pose proof (escape_grows s escape_comma) as L.
    rewrite H in L. lia.
  - intros H. rewrite escape_tok_map. now apply count_zero_tok_map.
Qed.

Lemma replace_absent (c : ascii) (p new s : string) :
  has_chr c s = false -> replace (String c p) new s = s.
Proof.
  unfold replace. induction s as [|x s IH]; [reflexivity|].
  cbn [has_chr]. intros H. apply orb_false_elim in H as [Hx Hs].
  cbn [replace_from prefix].
  destruct (ascii_dec c x) as [->|_].
  - now rewrite Ascii.eqb_refl in Hx.
  - now rewrite (IH Hs).
Qed.

(** X7: A string without an ampersand holds no escape sequence, and
    [unescape] returns it as it is. *)
Theorem unescape_without_ampersand (s : string) :
  has_chr "&" s = false -> unescape s = s.
Proof.
  intros H. unfold unescape.
  rewrite (replace_absent "&" "#44;" "," s H).
  rewrite (replace_absent "&" "#91;" "[" s H).
  rewrite (replace_absent "&" "#93;" "]" s H).
  apply (replace_absent "&" "amp;" "&" s H).
Qed.

Lemma unescape_without_ampersand_witness :
  has_chr "&" "a,b[c]" = false /\ unescape "a,b[c]" = "a,b[c]".
Proof.
  split; [reflexivity|].
  apply unescape_without_ampersand. reflexivity.
Defined.

(** ** Item and attribute access *)

Lemma dict_get_set_same (d : dict) (k : string) (x : val) :
  dict_get (dict_set d k x) k = Some x.
Proof.
  induction d as [|[k' v'] d IH]; cbn.
  - now rewrite String.eqb_refl.
  - destruct (String.eqb k' k) eqn:E; cbn; rewrite E; [reflexivity|exact IH].
Qed.

Lemma dict_get_set_other (d : dict) (k k' : string) (x : val) :
  k' <> k -> dict_get (dict_set d k x) k' = dict_get d k'.
Proof.
  intros Hne. induction d as [|[k0 v0] d IH]; cbn.
  - destruct (String.eqb_spec k k'); [congruence|reflexivity].
  - destruct (String.eqb_spec k0 k) as [->|N]; cbn.
    + destruct (String.eqb_spec k k'); [congruence|reflexivity].
    + destruct (String.eqb k0 k'); [reflexivity|exact IH].
Qed.

(** X8: What is stored with [v[k] = x] is read back with [v[k]], and every
    other item of every object reads as before; a segment refuses a key
    other than type and data and is left as it was. *)
Theorem setitem_getitem (v : val) (k : string) (x : val) (h : heap) :
  (forall h', setitem v k x h = (h', Ok tt) ->
      getitem v k h' = Ok x
      /\ (forall v' k', v' <> v \/ k' <> k ->
            getitem v' k' h' = getitem v' k' h))
  /\ (forall d, as_segment h v = Some d -> allowed_key k = false ->
      setitem v k x h = (h, Raise KeyError)).
Proof.
  split.
  - intros h' Hset. unfold setitem in Hset.
    destruct v as [| |l]; try discriminate.
    destruct (heap_get h l) as [[d|d]|] eqn:El; try discriminate.
    + injection Hset as <-. split.
      * cbn [getitem]. rewrite heap_get_set, Nat.eqb_refl, El.
        now rewrite dict_get_set_same.
      * intros v' k' Hne. destruct v' as [| |l']; try reflexivity.
        cbn [getitem]. rewrite heap_get_set.
        destruct (Nat.eqb_spec l' l) as [->|_]; [|reflexivity].
        rewrite El. rewrite dict_get_set_other; [reflexivity|].
        destruct Hne as [Hne|Hne]; [congruence|exact Hne].
    + destruct (allowed_key k) eqn:Ek; [|discriminate].
      injection Hset as <-. split.
      * cbn [getitem]. rewrite heap_get_set, Nat.eqb_refl, El.
        unfold seg_getitem. now rewrite Ek, dict_get_set_same.
      * intros v' k' Hne. destruct v' as [| |l']; try reflexivity.
        cbn [getitem]. rewrite heap_get_set.
        destruct (Nat.eqb_spec l' l) as [->|_]; [|reflexivity].
        rewrite El. unfold seg_getitem.
        destruct (allowed_key k'); [|reflexivity].
        rewrite dict_get_set_other; [reflexivity|].
        destruct Hne as [Hne|Hne]; [congruence|exact Hne].
  - intros d Hd Hk. unfold setitem. destruct v as [| |l]; try discriminate.
    cbn in Hd. destruct (heap_get h l) as [[d0|d0]|]; try discriminate.
    now rewrite Hk.
Qed.

Lemma setitem_getitem_witness :
  getitem (VRef 0) "text" [ODict [("text", VStr "ab")]] = Ok (VStr "ab").
Proof.
  apply (proj1 (setitem_getitem (VRef 0) "text" (VStr "ab")
                  [ODict [("text", VStr "a")]])
           [ODict [("text", VStr "ab")]]).
  reflexivity.
Defined.

(** X9: Attribute assignment on a segment: a name other than type and data
    is refused with AttributeError and nothing changes; type and data
    accept any value, the empty string and [None] too, and the attribute
    then reads as that value.  The constructor's check of the type is
    not repeated here. *)
Theorem setattr_segment (seg : val) (d : dict) (h : heap) :
  as_segment h seg = Some d ->
  (forall key value, allowed_key key = false ->
      setattr seg key value h = (h, Raise AttributeError))
  /\ (forall key value, allowed_key key = true ->
      exists h', setattr seg key value h = (h', Ok tt)
                 /\ getattr seg key h' = Ok value
                 /\ List.length h' = List.length h).
Proof.
  intros Hd. destruct seg as [| |l]; try discriminate.
  cbn in Hd. destruct (heap_get h l) as [[d0|d0]|] eqn:El; try discriminate.
  injection Hd as ->. split.
  - intros key value Hk. unfold setattr, setitem. cbn [as_segment].
    rewrite El, Hk. reflexivity.
  - intros key value Hk. unfold setattr, setitem. cbn [as_segment].
    rewrite El, Hk. eexists. split; [reflexivity|]. split.
    + unfold getattr. cbn [as_segment]. rewrite heap_get_set, Nat.eqb_refl, El.
      unfold seg_getattr, seg_getitem. now rewrite Hk, dict_get_set_same.
    + clear. revert l. induction h as [|o h IH]; intros [|l]; cbn;
        try reflexivity. now rewrite IH.
Qed.

Lemma setattr_segment_witness :
  exists h',
    setattr (VRef 1) "type" (VStr "") (two_texts "a" "b") = (h', Ok tt)
    /\ getattr (VRef 1) "type" h' = Ok (VStr "")
    /\ List.length h' = List.length (two_texts "a" "b").
Proof.
  apply (proj2 (setattr_segment (VRef 1)
                  [("type", VStr "text"); ("data", VRef 0)]
                  (two_texts "a" "b") eq_refl)).
  reflexivity.
Defined.
(** ** The constructor of a segment *)

Lemma heap_get_beyond (h : heap) (l : nat) :
  List.length h <= l -> heap_get h l = None.
Proof. intros H. now apply nth_error_None. Qed.

(** X10: A segment that [MessageSegment] returns is a new object, added after
    the objects of the heap, which stay as they are; it has a type entry
    that was truthy when it was built.  When the constructor raises, it
    raises the ValueError about the type field, the type argument was
    falsy, and the heap is unchanged. *)
Theorem constructor_outcome (d type data : val) (h : heap) :
  (forall h' seg, MessageSegment d type data h = (h', Ok seg) ->
      exists more entries t,
        h' = h ++ more
        /\ as_segment h seg = None
        /\ as_segment h' seg = Some entries
        /\ dict_get entries "type" = Some t
        /\ truthy h t = true)
  /\ (forall h' e, MessageSegment d type data h = (h', Raise e) ->
      h' = h /\ e = ValueError type_field_msg /\ truthy h type = false).
Proof.
  unfold MessageSegment.
  destruct (match as_dict h d with
            | Some entries =>
                match dict_get entries "type" with
                | Some t => if truthy h t then Some entries else None
                | None => None
                end
            | None => None
            end) as [entries|] eqn:Em.
  - split; [|discriminate].
    intros h' seg [= <- <-].
    destruct (as_dict h d) as [entries0|]; [|discriminate].
    destruct (dict_get entries0 "type") as [t|] eqn:Et; [|discriminate].
    destruct (truthy h t) eqn:Etr; [|discriminate].
    injection Em as <-.
    exists [OSeg entries0], entries0, t. repeat split; try assumption.
    + cbn. now rewrite heap_get_beyond.
    + apply as_segment_alloc.
  - destruct (truthy h type) eqn:Etype.
    + split; [|unfold bind, alloc, ret; destruct (truthy h data); discriminate].
      intros h' seg. unfold bind, alloc, ret.
      destruct (truthy h data).
      * intros [= <- <-].
        exists [OSeg [("type", type); ("data", data)]],
          [("type", type); ("data", data)], type.
        repeat split; try assumption.
        -- cbn. now rewrite heap_get_beyond.
        -- apply as_segment_alloc.
      * intros [= <- <-].
        exists [ODict [];
                OSeg [("type", type); ("data", VRef (List.length h))]],
          [("type", type); ("data", VRef (List.length h))], type.
        repeat split; try assumption.
        -- now rewrite <- app_assoc.
        -- cbn. rewrite heap_get_beyond; [reflexivity|].
           rewrite length_app. cbn. lia.
        -- apply as_segment_alloc.
    + split; [discriminate|]. intros h' e [= <- <-]. now repeat split.
Qed.

Lemma constructor_outcome_witness :
  [ODict [("type", VStr "")]] = [ODict [("type", VStr "")]]
  /\ ValueError type_field_msg = ValueError type_field_msg
  /\ truthy [ODict [("type", VStr "")]] VNone = false.
Proof.
  apply (proj2 (constructor_outcome (VRef 0) VNone VNone
                  [ODict [("type", VStr "")]])).
  reflexivity.
Defined.

(** ** What append leaves behind *)

Lemma append_segment_outcome (obj : val) (h : heap) (self : list val) :
  match append_segment obj (h, self) with
  | ((h', self'), Raise _) => h' = h /\ self' = self
  | ((h', self'), Ok _) =>
      (self' = self /\ List.length h' = List.length h /\ same_segments h h')
      \/ (self' = self ++ [obj] /\ h' = h)
  end.
Proof.
  unfold append_segment, bind, get_self, set_self, lift. cbn [fst snd].
  destruct (last_elem self) as [prev|]; cbn [fst snd]; [|now right].
  rewrite (both_text_eta prev obj h).
  destruct (snd (both_text prev obj h)) as [[|]|e]; cbn [fst snd];
    [| now right | now split].
  pose proof (merge_text_same prev obj h) as Hs.
  pose proof (merge_text_kept prev obj h) as [_ Hr].
  assert (Hlen : List.length (fst (merge_text prev obj h)) = List.length h).
  { unfold merge_text, bind, reads.
    destruct (getattr prev "data" h) as [target|e]; [|reflexivity].
    destruct (getitem target "text" h) as [x|e]; [|reflexivity].
    destruct (getattr obj "data" h) as [source|e]; [|reflexivity].
    destruct (getitem source "text" h) as [y|e]; [|reflexivity].
    destruct (add x y) as [z|e]; [|reflexivity].
    cbn [fst snd]. unfold setitem.
    destruct target as [| |l]; try reflexivity.
    assert (Hset : forall o, List.length (heap_set h l o) = List.length h).
    { intros o. clear. revert l. induction h as [|o' h IH]; intros [|l]; cbn;
        try reflexivity. now rewrite IH. }
    destruct (heap_get h l) as [[d|d]|]; try reflexivity.
    cbn [fst]. apply Hset. }
  destruct (merge_text prev obj h) as [h' [[]|e]]; cbn [fst snd] in *.
  - left. now repeat split.
  - split; [now apply (Hr e)|reflexivity].
Qed.

Lemma MessageSegment_extends (d type data : val) (h : heap) :
  exists more, fst (MessageSegment d type data h) = h ++ more.
Proof.
  unfold MessageSegment.
  destruct (match as_dict h d with
            | Some entries =>
                match dict_get entries "type" with
                | Some t => if truthy h t then Some entries else None
                | None => None
                end
            | None => None
            end) as [entries|].
  - eexists. reflexivity.
  - destruct (truthy h type); [|exists []; cbn; now rewrite app_nil_r].
    unfold bind, alloc, ret. destruct (truthy h data); cbn [fst].
    + eexists. reflexivity.
    + exists [ODict []; OSeg [("type", type); ("data", VRef (List.length h))]].
      now rewrite <- app_assoc.
Qed.

(** X11: [append] changes the list by at most one element, added at the end;
    when it raises, it raises its own ValueError, the list is as before,
    and so is every object that was on the heap. *)
Theorem append_outcome (obj : pyarg) (h : heap) (self : list val) :
  (forall h' self', append obj (h, self) = ((h', self'), Ok tt) ->
      self' = self \/ exists seg, self' = self ++ [seg])
  /\ (forall h' self' e, append obj (h, self) = ((h', self'), Raise e) ->
      e = append_msg_error /\ self' = self /\ exists more, h' = h ++ more).
Proof.
  unfold append, try_except.
  destruct obj as [v|vs|vs].
  2,3: (split; [discriminate|]; unfold raise; intros h' self' e [= <- <- <-];
        repeat split; exists []; now rewrite app_nil_r).
  cbn [fst].
  destruct (as_segment h v) as [d|].
  - pose proof (append_segment_outcome v h self) as Ho.
    destruct (append_segment v (h, self)) as [[h1 self1] [[]|e1]].
    + split; [|discriminate]. intros h' self' [= <- <-].
      destruct Ho as [[-> _]|[-> _]]; [now left|right; now exists v].
    + split; [discriminate|]. intros h' self' e [= <- <- <-].
      destruct Ho as [-> ->]. repeat split. exists []. now rewrite app_nil_r.
  - unfold bind, lift. cbn [fst snd].
    destruct (MessageSegment_extends v VNone VNone h) as [more Hm].
    destruct (MessageSegment v VNone VNone h) as [h1 [seg|e1]]; cbn [fst] in Hm;
      subst h1.
    + unfold try_except.
      pose proof (append_segment_outcome seg (h ++ more) self) as Ho.
      unfold mstate, heap in *.
      destruct (append_segment seg (h ++ more, self)) as [[h2 self2] [[]|e2]];
        cbn [fst snd].
      * split; [|discriminate]. intros h' self' [= <- <-].
        destruct Ho as [[-> _]|[-> _]]; [now left|right; now exists seg].
      * split; [discriminate|]. intros h' self' e [= <- <- <-].
        destruct Ho as [-> ->]. repeat split. now exists more.
    + split; [discriminate|]. intros h' self' e [= <- <- <-].
      repeat split. now exists more.
Qed.

Lemma append_outcome_witness :
  append_msg_error = append_msg_error
  /\ [VRef 1] = [VRef 1]
  /\ exists more, two_texts "a" "b" = two_texts "a" "b" ++ more.
Proof.
  apply (proj2 (append_outcome (AVal (VStr "x")) (two_texts "a" "b") [VRef 1])
           (two_texts "a" "b") [VRef 1] append_msg_error).
  reflexivity.
Defined.

(** ** The parser on its own *)

Lemma split_first_halves (c : ascii) (x : string) :
  split_first c x
  = if has_chr c x then [before_chr c x; after_chr c x] else [x].
Proof.
  induction x as [|a x IH]; [reflexivity|].
  cbn [split_first has_chr before_chr after_chr].
  destruct (Ascii.eqb a c); [reflexivity|].
  cbn [orb]. rewrite IH. now destruct (has_chr c x).
Qed.

Lemma collect_pairs_halves (ps : list string) :
  forall d : dict,
    collect_pairs (map (split_first "=") ps) d
    = if forallb (has_chr "=") ps
      then Ok (dict_of_pairs (map halves ps) d)
      else Raise unpack_error.
Proof.
  induction ps as [|x ps IH]; intros d; [reflexivity|].
  cbn [map forallb]. rewrite split_first_halves.
  destruct (has_chr "=" x); cbn [andb collect_pairs]; [|reflexivity].
  rewrite IH. reflexivity.
Qed.

(** X12: [cq_data], the dict comprehension of [_split_iter]: it raises the
    unpacking ValueError as soon as one non-empty piece between commas has
    no equals sign, and never any other error; otherwise every piece is
    cut at its first equals sign, and the pairs are stored in order, a
    later key replacing an earlier one. *)
Theorem cq_data_outcome (extra : string) :
  cq_data extra
  = if forallb (has_chr "=") (cq_pieces extra)
    then Ok (dict_of_pairs (map halves (cq_pieces extra)) [])
    else Raise unpack_error.
Proof.
  unfold cq_data. apply (collect_pairs_halves (cq_pieces extra) []).
Qed.

Lemma canonical_ok (c : chunk) :
  canonical c = true -> chunk_ok c = true /\ token_ok c = true.
Proof.
  destruct c as [s|t ps]; cbn [canonical chunk_ok token_ok].
  - unfold plain. intros H.
    apply andb_prop in H as [H _]. apply andb_prop in H as [_ H].
    now rewrite H.
  - intros H.
    apply andb_prop in H as [H Hd]. apply andb_prop in H as [H Hps].
    apply andb_prop in H as [Ht Hn].
    rewrite Ht, Hn, Hd. cbn [andb].
    assert (He : negb (String.eqb t "") = true).
    { destruct (name_ok_facts t Hn) as [Hne _].
      destruct (String.eqb_spec t ""); [contradiction|reflexivity]. }
    rewrite He. cbn [andb].
    assert (Hboth : forallb param_ok ps = true /\ forallb pair_ok ps = true).
    { clear -Hps. induction ps as [|kv ps IH]; [now split|].
      cbn [forallb] in *. apply andb_prop in Hps as [Hkv Hps].
      apply andb_prop in Hkv as [Hk Hv].
      destruct (IH Hps) as [IH1 IH2]. rewrite IH1, IH2.
      unfold param_ok, pair_ok, value_ok.
      rewrite Hk, (name_ok_key_ok _ Hk), (plain_value_not_comma_bracket _ Hv).
      unfold plain_value in Hv. apply andb_prop in Hv as [_ Hv].
      rewrite Hv. now split. }
    destruct Hboth as [-> ->]. now split.
Qed.

Lemma canonical_all_ok (cs : list chunk) :
  forallb canonical cs = true ->
  forallb chunk_ok cs = true /\ forallb token_ok cs = true.
Proof.
  induction cs as [|c cs IH]; [now split|].
  cbn [forallb]. intros H. apply andb_prop in H as [Hc Hcs].
  destruct (canonical_ok c Hc) as [-> ->].
  destruct (IH Hcs) as [-> ->]. now split.
Qed.

Lemma plain_app (a b : string) :
  plain a = true -> plain b = true -> plain (a ++ b) = true.
Proof.
  unfold plain. rewrite !has_chr_app. intros Ha Hb.
  destruct (has_chr "&" a), (has_chr "[" a), (has_chr "]" a); try discriminate.
  exact Hb.
Qed.

Lemma emit_canonical (p : string) :
  plain p = true ->
  forallb desc_ok (emit p) = true
  /\ chunks_text (map chunk_of (emit p)) = p.
Proof.
  intros Hp. unfold emit. destruct (String.eqb_spec p "") as [->|Hne].
  - now split.
  - cbn [forallb map chunks_text]. split.
    + unfold desc_ok, text_desc. cbn [is_text_desc fst snd String.eqb Ascii.eqb Bool.eqb].
      cbn. rewrite Hp. destruct (String.eqb_spec p ""); [contradiction|reflexivity].
    + cbn. apply string_app_empty_r.
Qed.

Lemma chunks_text_app (a b : list chunk) :
  chunks_text (a ++ b) = (chunks_text a ++ chunks_text b)%string.
Proof.
  induction a as [|c a IH]; [reflexivity|].
  cbn [app chunks_text]. now rewrite IH, string_app_assoc.
Qed.

Lemma parsed_canonical (cs : list chunk) :
  forall pending : string,
    plain pending = true -> forallb canonical cs = true ->
    forallb desc_ok (parsed pending cs) = true
    /\ chunks_text (map chunk_of (parsed pending cs))
       = (pending ++ chunks_text cs)%string.
Proof.
  induction cs as [|c cs IH]; intros p Hp Hcs.
  - cbn [parsed chunks_text]. rewrite string_app_empty_r.
    now apply emit_canonical.
  - cbn [forallb] in Hcs. apply andb_prop in Hcs as [Hc Hcs].
    destruct c as [s|t ps]; cbn [parsed chunks_text chunk_text].
    + cbn [canonical] in Hc.
      destruct (IH (p ++ s)%string (plain_app p s Hp Hc) Hcs) as [H1 H2].
      split; [exact H1|]. now rewrite H2, string_app_assoc.
    + destruct (IH EmptyString eq_refl Hcs) as [H1 H2].
      destruct (emit_canonical p Hp) as [E1 E2].
      rewrite forallb_app, map_app, chunks_text_app, E1, E2.
      cbn [forallb map chunks_text andb]. rewrite H1, H2.
      cbn [canonical] in Hc.
      apply andb_prop in Hc as [Hc Hd]. apply andb_prop in Hc as [Hc Hps].
      apply andb_prop in Hc as [Ht Hn].
      assert (Hnt : is_text_desc (t, ps) = false).
      { unfold is_text_desc. cbn [fst]. now destruct (String.eqb t "text"). }
      split.
      * unfold desc_ok. rewrite Hnt. cbn [fst snd]. now rewrite Hn, Hps, Hd.
      * unfold chunk_of. rewrite Hnt. cbn [fst snd chunk_text].
        reflexivity.
Qed.

(** X13: The parser on a string made of text without an opening bracket and
    of tokens the pattern accepts, whose parameters have an equals sign and
    distinct keys: [Message(s)] returns, leaves the objects of the heap as
    they are, and holds one text segment for each non-empty run of text and
    one segment for each token, with the keys and values as written. *)
Theorem parse_chunks (cs : list chunk) (h : heap) :
  forallb chunk_ok cs = true -> forallb token_ok cs = true ->
  exists more self locs,
    Message (AVal (VStr (chunks_text cs))) h = (h ++ more, Ok self)
    /\ represents (h ++ more) self locs (parsed "" cs)
    /\ List.length self = List.length (parsed "" cs).
Proof.
  intros Hc Ht.
  destruct (Message_parsed cs h Hc Ht) as (more & self & locs & HM & Hr).
  exists more, self, locs. split; [exact HM|]. split; [exact Hr|].
  exact (proj1 (represents_length _ _ _ _ Hr)).
Qed.

Lemma parse_chunks_witness :
  exists more self locs,
    Message (AVal (VStr (chunks_text [CText "a]b"; CToken "at" [("qq", "1=2")]])))
      [] = ([] ++ more, Ok self)
    /\ represents ([] ++ more) self locs
         (parsed "" [CText "a]b"; CToken "at" [("qq", "1=2")]])
    /\ List.length self
       = List.length (parsed "" [CText "a]b"; CToken "at" [("qq", "1=2")]]).
Proof.
  apply (parse_chunks [CText "a]b"; CToken "at" [("qq", "1=2")]] []);
    reflexivity.
Defined.

(** X14: Parsing a string in the form [__str__] writes and rendering the
    result gives the string back: [str(Message(s)) = s]. *)
Theorem parse_then_str (str_of_ref : heap -> nat -> result string)
    (cs : list chunk) (h : heap) :
  forallb canonical cs = true ->
  exists h' self,
    Message (AVal (VStr (chunks_text cs))) h = (h', Ok self)
    /\ Message_str str_of_ref self h' = (h', Ok (chunks_text cs)).
Proof.
  intros Hcs.
  destruct (canonical_all_ok cs Hcs) as [Hc Ht].
  destruct (Message_parsed cs h Hc Ht) as (more & self & locs & HM & Hr).
  destruct (parsed_canonical cs EmptyString eq_refl Hcs) as [Hok Htext].
  exists (h ++ more), self. split; [exact HM|].
  rewrite (Message_str_represents str_of_ref (h ++ more) _ self locs Hr Hok).
  now rewrite Htext.
Qed.

Lemma parse_then_str_witness :
  exists h' self,
    Message (AVal (VStr (chunks_text
      [CText "hi, "; CToken "at" [("qq", "1")]; CText " and ";
       CToken "dice" []]))) [] = (h', Ok self)
    /\ Message_str (fun _ _ => Ok "") self h'
       = (h', Ok (chunks_text
            [CText "hi, "; CToken "at" [("qq", "1")]; CText " and ";
             CToken "dice" []])).
Proof.
  apply (parse_then_str (fun _ _ => Ok "")
           [CText "hi, "; CToken "at" [("qq", "1")]; CText " and ";
            CToken "dice" []] []).
  reflexivity.
Defined.

(** ** Copies, concatenation, and a failing extend *)

Lemma both_text_typed (a b : val) (h : heap) :
  has_type h a = true -> has_type h b = true ->
  both_text a b h = (h, Ok (is_text h a && is_text h b)).
Proof.
  unfold has_type. intros Ha Hb.
  destruct (getattr a "type" h) as [ta|] eqn:Ea; [|discriminate].
  destruct (getattr b "type" h) as [tb|] eqn:Eb; [|discriminate].
  rewrite (getattr_type_is_text a ta h Ea), (getattr_type_is_text b tb h Eb).
  unfold both_text, bind, reads, ret. rewrite Ea. cbn [fst snd].
  destruct (val_eqb ta (VStr "text")); [|reflexivity].
  rewrite Eb. reflexivity.
Qed.

Lemma adjacent_text_mid (h : heap) (a b : val) (r : list val) :
  forall l : list val,
    adjacent_text h (l ++ a :: b :: r) = false ->
    is_text h a && is_text h b = false.
Proof.
  induction l as [|x l IH]; intros H.
  - cbn [app] in H. rewrite adjacent_text_cons2 in H.
    now apply orb_false_elim in H as [H _].
  - apply IH. destruct l as [|y l]; cbn [app] in *;
      rewrite adjacent_text_cons2 in H;
      now apply orb_false_elim in H as [_ H].
Qed.

Lemma forallb_has_type_last (h : heap) (self : list val) (prev : val) :
  forallb (has_type h) self = true -> last_elem self = Some prev ->
  has_type h prev = true.
Proof.
  intros Hall Hlast. destruct (last_elem_snoc self prev Hlast) as [l ->].
  rewrite forallb_app in Hall. apply andb_prop in Hall as [_ Hall].
  cbn [forallb] in Hall. now apply andb_prop in Hall as [Hall _].
Qed.

Lemma append_typed (h : heap) (self : list val) (v : val) (rest : list val) :
  forallb (has_type h) (self ++ [v]) = true ->
  adjacent_text h (self ++ v :: rest) = false ->
  append (AVal v) (h, self) = ((h, self ++ [v]), Ok tt).
Proof.
  intros Hall Hadj.
  assert (Hv : has_type h v = true).
  { apply (forallb_has_type_last h (self ++ [v]) v Hall), last_elem_app. }
  assert (Hself : forallb (has_type h) self = true).
  { rewrite forallb_app in Hall. now apply andb_prop in Hall as [Hall _]. }
  assert (Hseg : exists d, as_segment h v = Some d).
  { unfold has_type in Hv. destruct (getattr v "type" h) as [t|] eqn:E;
      [|discriminate]. exact (getattr_is_segment v "type" t h E). }
  destruct Hseg as [d Hd].
  apply (append_pushes h self v d Hd).
  intros prev Hlast.
  rewrite (both_text_typed prev v h
             (forallb_has_type_last h self prev Hself Hlast) Hv).
  destruct (last_elem_snoc self prev Hlast) as [l ->].
  rewrite <- app_assoc in Hadj. cbn [app] in Hadj.
  now rewrite (adjacent_text_mid h prev v rest l Hadj).
Qed.

Lemma for_each_append_values (h : heap) (vs : list val) :
  forall (self : list val) (rest : list val),
    forallb (has_type h) (self ++ vs) = true ->
    adjacent_text h (self ++ vs ++ rest) = false ->
    forall more : iterable,
      for_each_append (map (fun v => ret v) vs ++ more) (h, self)
      = for_each_append more (h, self ++ vs).
Proof.
  induction vs as [|v vs IH]; intros self rest Hall Hadj more.
  - cbn [map app]. now rewrite app_nil_r.
  - cbn [map app].
    assert (Hall1 : forallb (has_type h) (self ++ [v]) = true).
    { rewrite forallb_app in *. apply andb_prop in Hall as [Hs Hv].
      cbn [forallb] in *. apply andb_prop in Hv as [Hv _].
      now rewrite Hs, Hv. }
    assert (Hstep : append (AVal v) (h, self) = ((h, self ++ [v]), Ok tt)).
    { apply (append_typed h self v (vs ++ rest) Hall1). exact Hadj. }
    rewrite (for_each_append_step (ret v) _ h h self v eq_refl Hstep).
    rewrite (IH (self ++ [v]) rest).
    + now rewrite <- app_assoc.
    + now rewrite <- app_assoc.
    + now rewrite <- app_assoc.
Qed.

Lemma for_each_append_all (h : heap) (vs self : list val) :
  forallb (has_type h) (self ++ vs) = true ->
  adjacent_text h (self ++ vs) = false ->
  for_each_append (map (fun v => ret v) vs) (h, self)
  = ((h, self ++ vs), Ok tt).
Proof.
  intros Hall Hadj.
  pose proof (for_each_append_values h vs self [] Hall) as H.
  rewrite app_nil_r in H. specialize (H Hadj []).
  rewrite app_nil_r in H. exact H.
Qed.

Lemma extend_values (h : heap) (vs self : list val) :
  forallb (has_type h) (self ++ vs) = true ->
  adjacent_text h (self ++ vs) = false ->
  extend (AMsg vs) (h, self) = ((h, self ++ vs), Ok tt)
  /\ extend (AList vs) (h, self) = ((h, self ++ vs), Ok tt).
Proof.
  intros Hall Hadj.
  unfold extend, try_except, bind, lift, reads, iter_of. cbn [fst snd].
  now rewrite (for_each_append_all h vs self Hall Hadj).
Qed.

(** X15: [Message(m)] for a message [m] whose elements have a type and in
    which no two neighbours are both text is a copy: the same segments in
    the same order, and nothing on the heap is created or changed. *)
Theorem Message_copy (h : heap) (self : list val) :
  forallb (has_type h) self = true -> adjacent_text h self = false ->
  Message (AMsg self) h = (h, Ok self)
  /\ Message (AList self) h = (h, Ok self).
Proof.
  intros Hall Hadj.
  destruct (extend_values h self [] Hall Hadj) as [E1 E2].
  unfold Message, Message_init, try_except.
  now rewrite E1, E2.
Qed.

Lemma Message_copy_witness :
  Message (AMsg [VRef 1; VRef 3; VRef 5]) (fst (text_image_text "a" "f" "b"))
  = (fst (text_image_text "a" "f" "b"), Ok [VRef 1; VRef 3; VRef 5])
  /\ Message (AList [VRef 1; VRef 3; VRef 5])
       (fst (text_image_text "a" "f" "b"))
     = (fst (text_image_text "a" "f" "b"), Ok [VRef 1; VRef 3; VRef 5]).
Proof.
  apply (Message_copy (fst (text_image_text "a" "f" "b"))
           [VRef 1; VRef 3; VRef 5]); reflexivity.
Defined.

(** X16: [a + b] for two messages whose elements have a type, when no two
    neighbours of the concatenation are both text: the result holds the
    segments of [a] followed by those of [b], and nothing on the heap is
    created or changed.  An addend that is none of the supported kinds
    ([None], a foreign object) is ignored: the result is a copy of [a] and
    nothing is raised. *)
Theorem add_concatenates (h : heap) (self other : list val) :
  forallb (has_type h) (self ++ other) = true ->
  adjacent_text h (self ++ other) = false ->
  Message_add self (AMsg other) h = (h, Ok (self ++ other))
  /\ (forall v, as_dict h v = None -> (forall s, v <> VStr s) ->
        Message_add self (AVal v) h = (h, Ok self)).
Proof.
  intros Hall Hadj.
  assert (Hself : forallb (has_type h) self = true).
  { rewrite forallb_app in Hall. now apply andb_prop in Hall as [Hall _]. }
  assert (Hadj1 : adjacent_text h self = false).
  { clear -Hadj. induction self as [|x l IH]; [reflexivity|].
    destruct l as [|y l]; [reflexivity|].
    cbn [app] in Hadj. rewrite adjacent_text_cons2 in *.
    apply orb_false_elim in Hadj as [H1 H2]. rewrite H1. cbn [orb].
    now apply IH. }
  assert (Hcopy : Message (AMsg self) h = (h, Ok self)).
  { destruct (extend_values h self [] Hself Hadj1) as [E1 _].
    unfold Message, Message_init, try_except. now rewrite E1. }
  unfold Message_add, bind. rewrite Hcopy. split.
  - destruct (extend_values h other self Hall Hadj) as [E _].
    now rewrite E.
  - intros v Hd Hs. destruct v as [|s|l].
    + reflexivity.
    + now destruct (Hs s).
    + cbn [fst]. assert (Hseg : as_segment h (VRef l) = None).
      { unfold as_dict in Hd. unfold as_segment.
        destruct (heap_get h l) as [[d|d]|]; [reflexivity|discriminate|reflexivity]. }
      now rewrite Hseg, Hd.
Qed.

Lemma add_concatenates_witness :
  Message_add [VRef 1; VRef 3] (AMsg [VRef 5])
    (fst (text_image_text "a" "f" "b"))
  = (fst (text_image_text "a" "f" "b"), Ok ([VRef 1; VRef 3] ++ [VRef 5]))
  /\ (forall v, as_dict (fst (text_image_text "a" "f" "b")) v = None ->
        (forall s, v <> VStr s) ->
        Message_add [VRef 1; VRef 3] (AVal v)
          (fst (text_image_text "a" "f" "b"))
        = (fst (text_image_text "a" "f" "b"), Ok [VRef 1; VRef 3])).
Proof.
  apply (add_concatenates (fst (text_image_text "a" "f" "b"))
           [VRef 1; VRef 3] [VRef 5]); reflexivity.
Defined.

Lemma append_refused (h : heap) (self : list val) (v : val) :
  coercible h (AVal v) = false ->
  append (AVal v) (h, self) = ((h, self), Raise append_msg_error).
Proof.
  unfold coercible, append, try_except. cbn [fst].
  destruct (as_segment h v) eqn:Hs; [discriminate|].
  unfold bind, lift. cbn [fst snd].
  destruct (MessageSegment v VNone VNone h) as [h1 [seg|e]] eqn:Hm;
    [discriminate|].
  intros _.
  assert (h1 = h) as ->; [|reflexivity].
  unfold MessageSegment in Hm.
  destruct (match as_dict h v with
            | Some entries =>
                match dict_get entries "type" with
                | Some t => if truthy h t then Some entries else None
                | None => None
                end
            | None => None
            end); cbn in Hm; inversion Hm; reflexivity.
Qed.

(** X17: [extend] is not atomic: when an element of the list is refused, the
    ValueError of [extend] is raised, and the elements before it stay
    appended; the refused element and those after it are not. *)
Theorem extend_partial (h : heap) (self vs : list val) (bad : val)
    (rest : list val) :
  forallb (has_type h) (self ++ vs) = true ->
  adjacent_text h (self ++ vs) = false ->
  coercible h (AVal bad) = false ->
  extend (AList (vs ++ bad :: rest)) (h, self)
  = ((h, self ++ vs), Raise extend_msg_error).
Proof.
  intros Hall Hadj Hbad.
  unfold extend, try_except, bind, lift, reads, iter_of. cbn [fst snd].
  rewrite map_app. cbn [map].
  pose proof (for_each_append_values h vs self [] Hall) as H.
  rewrite app_nil_r in H. rewrite (H Hadj).
  cbn [for_each_append]. unfold bind, lift, ret. cbn [fst snd].
  now rewrite (append_refused h (self ++ vs) bad Hbad).
Qed.

Lemma extend_partial_witness :
  extend (AList ([VRef 3] ++ VNone :: [VRef 5]))
    (fst (text_image_text "a" "f" "b"), [VRef 1])
  = ((fst (text_image_text "a" "f" "b"), [VRef 1] ++ [VRef 3]),
     Raise extend_msg_error).
Proof.
  apply (extend_partial (fst (text_image_text "a" "f" "b"))
           [VRef 1] [VRef 3] VNone [VRef 5]); reflexivity.
Defined.

(** ** What reduce and the readers leave behind *)

Lemma subseq_refl (l : list val) : subseq l l.
Proof. induction l; constructor; assumption. Qed.

Lemma subseq_trans (l2 l3 : list val) :
  subseq l2 l3 -> forall l1, subseq l1 l2 -> subseq l1 l3.
Proof.
  induction 1 as [|x l l' H IH|x l l' H IH]; intros l1 H1.
  - exact H1.
  - inversion H1; subst.
    + apply subseq_keep. now apply IH.
    + apply subseq_drop. now apply IH.
  - apply subseq_drop. now apply IH.
Qed.

Lemma subseq_del_at (self : list val) :
  forall idx : nat, subseq (del_at idx self) self.
Proof.
  unfold del_at. induction self as [|x l IH]; intros idx.
  - rewrite firstn_nil, skipn_nil. constructor.
  - destruct idx as [|i].
    + cbn [firstn skipn app]. apply subseq_drop, subseq_refl.
    + cbn [firstn skipn app]. apply subseq_keep, IH.
Qed.

Lemma heap_set_length (h : heap) (o : obj) :
  forall l : nat, List.length (heap_set h l o) = List.length h.
Proof.
  induction h as [|o' h IH]; intros [|l]; cbn; try reflexivity.
  now rewrite IH.
Qed.

Lemma merge_text_length (prev obj : val) (h : heap) :
  List.length (fst (merge_text prev obj h)) = List.length h.
Proof.
  unfold merge_text, bind, reads.
  destruct (getattr prev "data" h) as [target|e]; [|reflexivity].
  destruct (getitem target "text" h) as [x|e]; [|reflexivity].
  destruct (getattr obj "data" h) as [source|e]; [|reflexivity].
  destruct (getitem source "text" h) as [y|e]; [|reflexivity].
  destruct (add x y) as [z|e]; [|reflexivity].
  cbn [fst snd]. unfold setitem.
  destruct target as [| |l]; try reflexivity.
  destruct (heap_get h l) as [[d|d]|]; try reflexivity.
  cbn [fst]. apply heap_set_length.
Qed.

Lemma only_removes_refl (st : mstate) : only_removes st st.
Proof.
  repeat split. - apply subseq_refl.
Qed.

Lemma only_removes_trans (a b c : mstate) :
  only_removes a b -> only_removes b c -> only_removes a c.
Proof.
  intros (S1 & H1 & L1 & E1) (S2 & H2 & L2 & E2). split; [|split; [|split]].
  - exact (subseq_trans _ _ S1 _ S2).
  - now rewrite H2.
  - now rewrite L2.
  - intros v. now rewrite E2.
Qed.

Lemma reduce_step_only_removes (idx : nat) (st : mstate) :
  idx < List.length (snd st) ->
  only_removes st (fst (reduce_step idx st)).
Proof.
  destruct st as [h self]. cbn [snd]. intros Hlt.
  destruct idx as [|j].
  - rewrite reduce_step_zero. apply only_removes_refl.
  - destruct (nth_error self j) as [prev|] eqn:Ep.
    2:{ apply nth_error_None in Ep. lia. }
    destruct (nth_error self (S j)) as [cur|] eqn:Ec.
    2:{ apply nth_error_None in Ec. lia. }
    rewrite (reduce_step_cases j h self prev cur Ep Ec).
    destruct (snd (both_text prev cur h)) as [[|]|e]; cbn [fst];
      try apply only_removes_refl.
    pose proof (merge_text_same prev cur h) as Hs.
    pose proof (merge_text_length prev cur h) as Hl.
    destruct (merge_text prev cur h) as [h' [[]|e]]; cbn [fst snd] in *.
    + split; [|split; [|split]]; cbn [fst snd].
      * apply subseq_del_at.
      * unfold del_at. destruct self; reflexivity.
      * exact Hl.
      * exact Hs.
    + split; [|split; [|split]]; cbn [fst snd].
      * apply subseq_refl.
      * reflexivity.
      * exact Hl.
      * exact Hs.
Qed.

Lemma reduce_loop_only_removes (turns : nat) :
  forall (idx : nat) (st : mstate),
    only_removes st (fst (reduce_loop turns idx st)).
Proof.
  induction turns as [|turns IH]; intros idx st.
  - apply only_removes_refl.
  - rewrite reduce_loop_S.
    destruct (Nat.ltb_spec idx (List.length (snd st))) as [Hlt|Hge];
      [|apply only_removes_refl].
    pose proof (reduce_step_only_removes idx st Hlt) as Hstep.
    destruct (reduce_step idx st) as [st' [idx'|e]]; cbn [fst] in *.
    + exact (only_removes_trans _ _ _ Hstep (IH idx' st')).
    + exact Hstep.
Qed.

(** X18: Whether it returns or raises, [reduce] only removes elements from the
    list, never the first one, and keeps the others in their order; it
    creates no object, and every segment keeps its type and its data
    dict: the one thing that changes on the heap is the text stored in
    data dicts. *)
Theorem reduce_only_removes (st : mstate) :
  subseq (snd (fst (reduce st))) (snd st)
  /\ hd_error (snd (fst (reduce st))) = hd_error (snd st)
  /\ List.length (fst (fst (reduce st))) = List.length (fst st)
  /\ (forall seg, as_segment (fst (fst (reduce st))) seg
                  = as_segment (fst st) seg).
Proof.
  rewrite reduce_unfold.
  exact (reduce_loop_only_removes (List.length (snd st)) 0 st).
Qed.

Lemma MessageSegment_str_pure (str_of_ref : heap -> nat -> result string)
    (seg : val) (h : heap) :
  fst (MessageSegment_str str_of_ref seg h) = h.
Proof.
  unfold MessageSegment_str, bind, reads, ret.
  destruct (getattr seg "type" h) as [t|e] eqn:Et; cbn [fst snd];
    [|reflexivity].
  destruct (val_eqb t (VStr "text")).
  - destruct (getattr seg "data" h) as [d|e]; cbn [fst snd]; [|reflexivity].
    destruct (dict_method_get d "text" (VStr "") h); reflexivity.
  - destruct (getattr seg "data" h) as [d|e]; cbn [fst snd]; [|reflexivity].
    destruct (dict_method_items d h) as [items|e]; cbn [fst snd];
      [|reflexivity].
    destruct (render_params str_of_ref items h); cbn [fst snd];
      [|reflexivity].
    rewrite Et. cbn [fst snd].
    destruct (str_of_val str_of_ref t h); reflexivity.
Qed.

Lemma Message_str_pure (str_of_ref : heap -> nat -> result string)
    (self : list val) (h : heap) :
  fst (Message_str str_of_ref self h) = h.
Proof.
  induction self as [|seg rest IH]; [reflexivity|].
  cbn [Message_str]. unfold bind.
  assert (Hs : fst (str_of_elem str_of_ref seg h) = h).
  { unfold str_of_elem. destruct (as_segment h seg); [|reflexivity].
    apply MessageSegment_str_pure. }
  destruct (str_of_elem str_of_ref seg h) as [h1 [s|e]]; cbn [fst] in Hs;
    subst h1; [|reflexivity].
  destruct (Message_str str_of_ref rest h) as [h2 [r|e]]; cbn [fst] in IH;
    subst h2; reflexivity.
Qed.

Lemma extract_loop_pure (segs : list val) :
  forall (acc : string) (h : heap), fst (extract_loop segs acc h) = h.
Proof.
  induction segs as [|seg rest IH]; intros acc h; [reflexivity|].
  cbn [extract_loop]. unfold bind, reads.
  destruct (getattr seg "type" h) as [t|e]; cbn [fst snd]; [|reflexivity].
  destruct (val_eqb t (VStr "text")); [|apply IH].
  destruct (getattr seg "data" h) as [d|e]; cbn [fst snd]; [|reflexivity].
  destruct (getitem d "text" h) as [x|e]; cbn [fst snd]; [|reflexivity].
  destruct (space_plus x); cbn [fst snd]; [apply IH|reflexivity].
Qed.

(** X19: The readers change nothing, whether they return or raise:
    [str(message)] leaves the heap as it is, and [extract_plain_text()]
    without reduce leaves the list and the heap as they are. *)
Theorem readers_change_nothing (str_of_ref : heap -> nat -> result string)
    (h : heap) (self : list val) :
  fst (Message_str str_of_ref self h) = h
  /\ fst (extract_plain_text false (h, self)) = (h, self).
Proof.
  split; [apply Message_str_pure|].
  unfold extract_plain_text, bind, ret, get_self, lift. cbn [fst snd].
  pose proof (extract_loop_pure self EmptyString h) as H.
  destruct (extract_loop self "" h) as [h1 [r|e]]; cbn [fst] in H; subst h1;
    reflexivity.
Qed.

(** ** The CQ code of a message *)

Lemma render_params_values (str_of_ref : heap -> nat -> result string)
    (ps : list (string * string)) (h : heap) :
  render_params str_of_ref (str_dict ps) h
  = Ok (map pair_text (escape_values ps)).
Proof.
  induction ps as [|[k v] ps IH]; [reflexivity|].
  cbn [str_dict map render_params fst snd str_of_val escape_values].
  change (map (fun kv => (fst kv, VStr (snd kv))) ps) with (str_dict ps).
  rewrite IH. reflexivity.
Qed.

Lemma dict_get_text_of (ps : list (string * string)) :
  match dict_get (str_dict ps) "text" with
  | Some x => x
  | None => VStr ""
  end = VStr (text_of ps).
Proof.
  induction ps as [|[k v] ps IH]; [reflexivity|].
  cbn [str_dict map dict_get fst snd text_of].
  destruct (String.eqb k "text"); [reflexivity|exact IH].
Qed.

Lemma MessageSegment_str_code (str_of_ref : heap -> nat -> result string)
    (h : heap) (v : val) (l : nat) (d : desc) :
  described h v l d ->
  MessageSegment_str str_of_ref v h = (h, Ok (cq_code d)).
Proof.
  intros Hd. destruct (getattr_described h v l d Hd) as [Ht Hdata].
  destruct Hd as [Hs Hl]. destruct d as [t ps].
  unfold cq_code, is_text_desc in *. cbn [fst snd] in *.
  unfold MessageSegment_str, bind, reads, ret. rewrite Ht.
  cbn [val_eqb fst snd]. destruct (String.eqb t "text") eqn:Et.
  - rewrite Hdata. cbn [fst snd]. unfold dict_method_get, as_dict.
    rewrite Hl. pose proof (dict_get_text_of ps) as Hg.
    destruct (dict_get (str_dict ps) "text") as [x|]; cbn [fst snd];
      rewrite Hg; reflexivity.
  - rewrite Hdata. cbn [fst snd]. unfold dict_method_items, as_dict.
    rewrite Hl. cbn [fst snd]. rewrite render_params_values.
    cbn [fst snd]. rewrite Ht. cbn [str_of_val fst snd]. unfold token_text.
    destruct ps as [|kv ps]; [reflexivity|].
    change (escape_values (kv :: ps))
      with ((fst kv, escape (snd kv) true) :: escape_values ps).
    rewrite pair_text_join_nonempty.
    cbn [params_text]. rewrite params_text_join.
    rewrite !string_app_assoc. reflexivity.
Qed.

Lemma Message_str_codes (str_of_ref : heap -> nat -> result string)
    (h : heap) (ds : list desc) :
  forall (self : list val) (locs : list nat),
    represents h self locs ds ->
    Message_str str_of_ref self h = (h, Ok (cq_codes ds)).
Proof.
  induction ds as [|d ds IH]; intros self locs Hr.
  - apply represents_nil_inv in Hr as [-> _]. reflexivity.
  - apply represents_cons_inv in Hr
      as [v [self' [l [locs' [-> [-> [Hd Hr]]]]]]].
    cbn [Message_str cq_codes]. unfold bind, ret.
    unfold str_of_elem. destruct Hd as [Hs Hl]. rewrite Hs.
    rewrite (MessageSegment_str_code str_of_ref h v l d (conj Hs Hl)).
    rewrite (IH self' locs' Hr). reflexivity.
Qed.

Lemma cq_codes_app (a b : list desc) :
  cq_codes (a ++ b) = (cq_codes a ++ cq_codes b)%string.
Proof.
  induction a as [|d a IH]; [reflexivity|].
  cbn [app cq_codes]. now rewrite IH, string_app_assoc.
Qed.

Lemma cq_code_text (s : string) : cq_code (text_desc s) = escape s false.
Proof. reflexivity. Qed.

Lemma cq_codes_merge_step (dd : list desc) (d : desc) :
  forallb text_shape dd = true -> text_shape d = true ->
  cq_codes (merge_step dd d) = (cq_codes dd ++ cq_code d)%string
  /\ forallb text_shape (merge_step dd d) = true.
Proof.
  intros Hdd Hd. unfold merge_step.
  destruct (rev dd) as [|p before] eqn:E.
  - apply (f_equal (@rev desc)) in E. rewrite rev_involutive in E.
    cbn in E. subst dd. cbn [cq_codes forallb]. rewrite Hd.
    now rewrite string_app_empty_r.
  - apply (f_equal (@rev desc)) in E. rewrite rev_involutive in E.
    cbn [rev] in E. subst dd.
    rewrite forallb_app in Hdd. apply andb_prop in Hdd as [Hb Hp].
    cbn [forallb] in Hp. apply andb_prop in Hp as [Hp _].
    destruct (is_text_desc p && is_text_desc d) eqn:Eboth.
    + apply andb_prop in Eboth as [Tp Td].
      rewrite (text_desc_shape p Tp Hp) at 2.
      rewrite (text_desc_shape d Td Hd) at 2.
      rewrite !cq_codes_app. cbn [cq_codes].
      rewrite !cq_code_text, escape_concat. split.
      * now rewrite !string_app_empty_r, string_app_assoc.
      * rewrite forallb_app, Hb. reflexivity.
    + split.
      * rewrite (cq_codes_app _ [d]). cbn [cq_codes].
        now rewrite string_app_empty_r.
      * rewrite !forallb_app, Hb. cbn [forallb]. now rewrite Hp, Hd.
Qed.

Lemma cq_codes_fold (rd : list desc) :
  forall dd : list desc,
    forallb text_shape (dd ++ rd) = true ->
    cq_codes (fold_left merge_step rd dd) = (cq_codes dd ++ cq_codes rd)%string.
Proof.
  induction rd as [|d rd IH]; intros dd H.
  - cbn [fold_left cq_codes]. now rewrite string_app_empty_r.
  - rewrite forallb_app in H. apply andb_prop in H as [Hdd Hrd].
    cbn [forallb] in Hrd. apply andb_prop in Hrd as [Hd Hrd].
    destruct (cq_codes_merge_step dd d Hdd Hd) as [E S].
    cbn [fold_left cq_codes]. rewrite IH.
    + now rewrite E, string_app_assoc.
    + now rewrite forallb_app, S, Hrd.
Qed.

(** X20: [str(message)] is the concatenation of the CQ codes of the segments:
    a text segment gives its text with ampersand and brackets escaped and
    commas kept; any other segment gives its type and its entries between
    brackets, every value escaped with the comma rule, the keys as they
    are.  The heap is not changed. *)
Theorem str_of_message (str_of_ref : heap -> nat -> result string)
    (h : heap) (self : list val) (locs : list nat) (ds : list desc) :
  represents h self locs ds ->
  Message_str str_of_ref self h = (h, Ok (cq_codes ds)).
Proof. apply Message_str_codes. Qed.

Lemma str_of_message_witness :
  Message_str (fun _ _ => Ok "") [VRef 1] share_with_comma
  = (share_with_comma, Ok (cq_codes [("share", [("title", "a,b")])])).
Proof.
  apply (str_of_message (fun _ _ => Ok "") share_with_comma [VRef 1] [0]
           [("share", [("title", "a,b")])]).
  cbn. repeat split.
Defined.

(** X21: [reduce] does not change what [str(message)] gives.  The message
    is one of segments made with type and data (their own entries are
    type, a string, and data), whose data dicts hold strings, each segment
    with a data dict of its own, and whose text segments hold exactly the
    one entry text: then [reduce] returns, and the message renders to the
    same string before and after. *)
Theorem reduce_keeps_str (str_of_ref : heap -> nat -> result string)
    (h : heap) (self : list val) (locs : list nat) (ds : list desc) :
  represents h self locs ds -> NoDup locs ->
  forallb text_shape ds = true ->
  exists h' self' s,
    reduce (h, self) = ((h', self'), Ok tt)
    /\ Message_str str_of_ref self h = (h, Ok s)
    /\ Message_str str_of_ref self' h' = (h', Ok s).
Proof.
  intros Hr Hnd Hshape.
  destruct (reduce_loop_descs ds self locs [] [] [] h (List.length self)
              I Hr Hnd Hshape (le_n _)) as (h' & self' & locs' & Hred & Hr').
  exists h', self', (cq_codes ds). split; [|split].
  - rewrite reduce_unfold. exact Hred.
  - exact (Message_str_codes str_of_ref h ds self locs Hr).
  - rewrite (Message_str_codes str_of_ref h' _ self' locs' Hr').
    now rewrite (cq_codes_fold ds [] Hshape).
Qed.

Lemma reduce_keeps_str_witness :
  exists h' self' s,
    reduce (two_texts "a[" "b", [VRef 1; VRef 3]) = ((h', self'), Ok tt)
    /\ Message_str (fun _ _ => Ok "") [VRef 1; VRef 3] (two_texts "a[" "b")
       = (two_texts "a[" "b", Ok s)
    /\ Message_str (fun _ _ => Ok "") self' h' = (h', Ok s).
Proof.
  apply (reduce_keeps_str (fun _ _ => Ok "") (two_texts "a[" "b")
           [VRef 1; VRef 3] [0; 2] [text_desc "a["; text_desc "b"]).
  - cbn. repeat split.
  - repeat constructor; cbn; intuition discriminate.
  - reflexivity.
Defined.

Lemma append_text_described (h : heap) (self0 : list val) (prev seg : val)
    (locs0 : list nat) (lp lc : nat) (ds0 : list desc) (a b : string) :
  represents h (self0 ++ [prev]) (locs0 ++ [lp]) (ds0 ++ [text_desc a]) ->
  NoDup (locs0 ++ [lp]) ->
  described h seg lc (text_desc b) ->
  exists h',
    append (AVal seg) (h, self0 ++ [prev]) = ((h', self0 ++ [prev]), Ok tt)
    /\ represents h' (self0 ++ [prev]) (locs0 ++ [lp])
         (ds0 ++ [text_desc (a ++ b)]).
Proof.
  intros Hr Hnd Hseg.
  destruct (represents_snoc_inv _ _ _ _ _ Hr)
    as (locs1 & lp1 & ds1 & dp & El & Ed & Hr0 & Hprev).
  apply app_inj_tail in El as [<- <-]. apply app_inj_tail in Ed as [<- <-].
  set (h' := heap_set h lp (ODict [("text", VStr (a ++ b)%string)])).
  exists h'. split.
  - unfold append, try_except. cbn [fst].
    destruct Hseg as [Hs Hl]. rewrite Hs.
    unfold append_segment, bind, get_self, lift. cbn [fst snd].
    rewrite last_elem_app. cbn [fst snd].
    rewrite (both_text_described h prev seg lp lc _ _ Hprev (conj Hs Hl)).
    change (is_text_desc (text_desc a) && is_text_desc (text_desc b))
      with true.
    cbn [fst snd].
    rewrite (merge_text_described h prev seg lp lc a b Hprev (conj Hs Hl)).
    reflexivity.
  - assert (Hlp : heap_get h lp = Some (ODict (str_dict (snd (text_desc a)))))
      by apply Hprev.
    assert (Hnot0 : ~ In lp locs0).
    { apply NoDup_remove_2 in Hnd. now rewrite app_nil_r in Hnd. }
    apply represents_app.
    + apply (represents_set h lp _ _ ds0 self0 locs0 Hr0 Hnot0 Hlp).
    + cbn. split; [|exact I]. split.
      * destruct Hprev as [Hs _].
        destruct prev as [| |lv]; try discriminate. cbn in *.
        unfold h'. rewrite heap_get_set.
        destruct (Nat.eqb_spec lv lp) as [->|_]; [|exact Hs].
        rewrite Hlp in Hs. discriminate.
      * unfold h'. rewrite heap_get_set, Nat.eqb_refl, Hlp. reflexivity.
Qed.

(** X22: [append] adds the CQ code of the segment at the end of
    [str(message)], whether the segment becomes a new element or its text
    is merged into the last one.  The message is as in X21 (segments made
    with type and data, data dicts of strings, one for each segment, text
    segments with exactly the entry text), and so is the appended
    segment: made with type and data, its data dict holding strings, and
    exactly the entry text if it is a text segment. *)
Theorem append_keeps_str (str_of_ref : heap -> nat -> result string)
    (h : heap) (self : list val) (locs : list nat) (ds : list desc)
    (seg : val) (l : nat) (d : desc) :
  represents h self locs ds -> NoDup locs ->
  forallb text_shape ds = true ->
  described h seg l d -> text_shape d = true ->
  exists h' self' s t,
    append (AVal seg) (h, self) = ((h', self'), Ok tt)
    /\ Message_str str_of_ref self h = (h, Ok s)
    /\ MessageSegment_str str_of_ref seg h = (h, Ok t)
    /\ Message_str str_of_ref self' h' = (h', Ok (s ++ t)%string).
Proof.
  intros Hr Hnd Hshape Hseg Hd.
  pose proof (Message_str_codes str_of_ref h ds self locs Hr) as Hstr.
  pose proof (MessageSegment_str_code str_of_ref h seg l d Hseg) as Hcode.
  destruct (last_not_text ds) eqn:Elast.
  2: destruct (is_text_desc d) eqn:Etext.
  - destruct (append_described h self locs ds seg l d Hr Hseg (or_introl Elast))
      as [Happ Hr'].
    exists h, (self ++ [seg]), (cq_codes ds), (cq_code d).
    repeat split; try assumption.
    rewrite (Message_str_codes str_of_ref h _ _ _ Hr'), cq_codes_app.
    cbn [cq_codes]. now rewrite string_app_empty_r.
  - unfold last_not_text in Elast.
    destruct (rev ds) as [|dp rds0] eqn:Erev; [discriminate|].
    apply negb_false_iff in Elast.
    apply (f_equal (@rev desc)) in Erev. rewrite rev_involutive in Erev.
    cbn [rev] in Erev. subst ds. set (ds0 := rev rds0) in *.
    rewrite forallb_app in Hshape. apply andb_prop in Hshape as [_ Hp].
    cbn [forallb] in Hp. apply andb_prop in Hp as [Hp _].
    pose proof (text_desc_shape dp Elast Hp) as Ep.
    pose proof (text_desc_shape d Etext Hd) as Ed.
    set (a := desc_payload dp) in *. set (b := desc_payload d) in *.
    destruct (represents_length h _ self locs Hr) as [Ls Ll].
    assert (Hself : exists self0 prev, self = self0 ++ [prev]).
    { destruct (rev self) as [|prev r] eqn:E.
      - apply (f_equal (@rev val)) in E. rewrite rev_involutive in E.
        subst self. rewrite length_app in Ls. cbn in Ls. lia.
      - apply (f_equal (@rev val)) in E. rewrite rev_involutive in E.
        exists (rev r), prev. exact E. }
    destruct Hself as (self0 & prev & ->).
    destruct (represents_snoc_inv _ _ _ _ _ Hr)
      as (locs0 & lp & ds1 & dp1 & -> & Eds & Hr0 & Hprev).
    apply app_inj_tail in Eds as [<- <-].
    rewrite Ep in Hr. rewrite Ed in Hseg.
    destruct (append_text_described h self0 prev seg locs0 lp l ds0 a b
                Hr Hnd Hseg) as (h' & Happ & Hr').
    exists h', (self0 ++ [prev]), (cq_codes (ds0 ++ [dp])), (cq_code d).
    repeat split; try assumption.
    rewrite (Message_str_codes str_of_ref h' _ _ _ Hr').
    rewrite !cq_codes_app. cbn [cq_codes].
    rewrite Ep at 1. rewrite Ed at 1.
    rewrite !cq_code_text, escape_concat.
    now rewrite !string_app_empty_r, string_app_assoc.
  - destruct (append_described h self locs ds seg l d Hr Hseg (or_intror Etext))
      as [Happ Hr'].
    exists h, (self ++ [seg]), (cq_codes ds), (cq_code d).
    repeat split; try assumption.
    rewrite (Message_str_codes str_of_ref h _ _ _ Hr'), cq_codes_app.
    cbn [cq_codes]. now rewrite string_app_empty_r.
Qed.

Lemma append_keeps_str_witness :
  exists h' self' s t,
    append (AVal (VRef 3)) (two_texts "a" "b,", [VRef 1])
    = ((h', self'), Ok tt)
    /\ Message_str (fun _ _ => Ok "") [VRef 1] (two_texts "a" "b,")
       = (two_texts "a" "b,", Ok s)
    /\ MessageSegment_str (fun _ _ => Ok "") (VRef 3) (two_texts "a" "b,")
       = (two_texts "a" "b,", Ok t)
    /\ Message_str (fun _ _ => Ok "") self' h' = (h', Ok (s ++ t)%string).
Proof.
  apply (append_keeps_str (fun _ _ => Ok "") (two_texts "a" "b,")
           [VRef 1] [0] [text_desc "a"] (VRef 3) 2 (text_desc "b,")).
  - cbn. repeat split.
  - repeat constructor; cbn; intuition discriminate.
  - reflexivity.
  - cbn. repeat split.
  - reflexivity.
Defined.

(** ** The builders *)

Lemma heap_get_second (h : heap) (a b : obj) :
  heap_get (h ++ [a; b]) (List.length h) = Some a
  /\ heap_get (h ++ [a; b]) (S (List.length h)) = Some b.
Proof.
  unfold heap_get. split.
  - rewrite nth_error_app2 by lia. now rewrite Nat.sub_diag.
  - rewrite nth_error_app2 by lia.
    now replace (S (List.length h) - List.length h) with 1 by lia.
Qed.

Lemma keyword_segment (t : string) (ps : list (string * string)) :
  t <> EmptyString -> ps <> [] ->
  builds (data <- alloc (ODict (str_dict ps)) ;;
          MessageSegment VNone (VStr t) data) (t, ps).
Proof.
  intros Ht Hps h. unfold bind, alloc. cbn [fst snd].
  unfold MessageSegment. cbn [as_dict truthy].
  destruct (String.eqb_spec t ""); [contradiction|]. cbn [negb].
  rewrite heap_get_alloc.
  destruct ps as [|kv ps]; [contradiction|].
  cbn [str_dict map List.length Nat.eqb negb]. unfold bind, ret, alloc.
  rewrite length_app, <- app_assoc. cbn [List.length app].
  now rewrite Nat.add_1_r.
Qed.

Lemma bare_segment (t : string) :
  t <> EmptyString -> builds (MessageSegment VNone (VStr t) VNone) (t, []).
Proof.
  intros Ht h. unfold MessageSegment. cbn [as_dict truthy].
  destruct (String.eqb_spec t ""); [contradiction|]. cbn [negb].
  unfold bind, ret, alloc. cbn [fst snd str_dict map].
  rewrite length_app, <- app_assoc. cbn [List.length app].
  now rewrite Nat.add_1_r.
Qed.

Lemma builds_described (c : M heap val) (d : desc) (h : heap) :
  builds c d ->
  exists h' seg,
    c h = (h', Ok seg) /\ described h' seg (List.length h) d.
Proof.
  intros Hc. eexists. eexists. split; [apply Hc|].
  destruct (heap_get_second h (ODict (str_dict (snd d)))
              (OSeg [("type", VStr (fst d)); ("data", VRef (List.length h))]))
    as [Ha Hb].
  split; [|exact Ha]. unfold as_segment. now rewrite Hb.
Qed.

Lemma builds_str (str_of_ref : heap -> nat -> result string)
    (c : M heap val) (d : desc) (h : heap) :
  builds c d -> str_of_built str_of_ref c h = Ok (cq_code d).
Proof.
  intros Hc. destruct (builds_described c d h Hc) as (h' & seg & E & Hd).
  unfold str_of_built, bind. rewrite E.
  now rewrite (MessageSegment_str_code str_of_ref h' seg _ d Hd).
Qed.

Lemma digits_plain (d : Decimal.uint) :
  plain_value (DecimalString.NilEmpty.string_of_uint d) = true.
Proof. induction d; [reflexivity|exact IHd..]. Qed.

Lemma str_of_int_plain (n : BinNums.Z) : plain_value (str_of_int n) = true.
Proof.
  unfold str_of_int.
  assert (H : forall d, plain_value (DecimalString.NilZero.string_of_uint d)
                        = true).
  { intros d. destruct d; [reflexivity|apply digits_plain..]. }
  destruct n as [|p|p]; cbn [BinInt.Z.to_int DecimalString.NilZero.string_of_int].
  - reflexivity.
  - apply H.
  - exact (H (BinPos.Pos.to_uint p)).
Qed.

Ltac norm_str :=
  repeat (progress (rewrite ?string_app_assoc, ?string_app_empty_r;
                    cbn [String.append])).

Ltac code_of_builder H :=
  intros; rewrite (builds_str _ _ _ _ H);
  unfold cq_code, is_text_desc, token_text;
  cbn [fst snd escape_values map params_text pair_text text_of String.eqb
       Ascii.eqb Bool.eqb];
  rewrite ?(escape_plain_value _ (str_of_int_plain _));
  norm_str; try reflexivity.

(** X23: The CQ code of what each builder returns: [str(MessageSegment.at(n))]
    is the token at with the decimal digits of [n], and so on; a string
    argument is escaped with the comma rule, the text of a text segment
    without it. *)
Theorem builder_codes (str_of_ref : heap -> nat -> result string) (h : heap) :
  (forall text,
      str_of_built str_of_ref (MessageSegment_text text) h
      = Ok (escape text false))
  /\ (forall id_,
      str_of_built str_of_ref (MessageSegment_emoji id_) h
      = Ok ("[CQ:emoji,id=" ++ str_of_int id_ ++ "]")%string)
  /\ (forall id_,
      str_of_built str_of_ref (MessageSegment_face id_) h
      = Ok ("[CQ:face,id=" ++ str_of_int id_ ++ "]")%string)
  /\ (forall file,
      str_of_built str_of_ref (MessageSegment_image file) h
      = Ok ("[CQ:image,file=" ++ escape file true ++ "]")%string)
  /\ (forall file magic,
      str_of_built str_of_ref (MessageSegment_record file magic) h
      = Ok ("[CQ:record,file=" ++ escape file true
            ++ ",magic=" ++ _b2s magic ++ "]")%string)
  /\ (forall user_id,
      str_of_built str_of_ref (MessageSegment_at user_id) h
      = Ok ("[CQ:at,qq=" ++ str_of_int user_id ++ "]")%string)
  /\ str_of_built str_of_ref MessageSegment_rps h = Ok "[CQ:rps]"
  /\ str_of_built str_of_ref MessageSegment_dice h = Ok "[CQ:dice]"
  /\ str_of_built str_of_ref MessageSegment_shake h = Ok "[CQ:shake]"
  /\ (forall ignore_failure,
      str_of_built str_of_ref (MessageSegment_anonymous ignore_failure) h
      = Ok ("[CQ:anonymous,ignore=" ++ _b2s ignore_failure ++ "]")%string)
  /\ (forall url title content image_url,
      str_of_built str_of_ref
        (MessageSegment_share url title content image_url) h
      = Ok ("[CQ:share,url=" ++ escape url true
            ++ ",title=" ++ escape title true
            ++ ",content=" ++ escape content true
            ++ ",image=" ++ escape image_url true ++ "]")%string)
  /\ (forall id_,
      str_of_built str_of_ref (MessageSegment_contact_user id_) h
      = Ok ("[CQ:contact,type=qq,id=" ++ str_of_int id_ ++ "]")%string)
  /\ (forall id_,
      str_of_built str_of_ref (MessageSegment_contact_group id_) h
      = Ok ("[CQ:contact,type=group,id=" ++ str_of_int id_ ++ "]")%string)
  /\ (forall type_ id_,
      str_of_built str_of_ref (MessageSegment_music type_ id_) h
      = Ok ("[CQ:music,type=" ++ escape type_ true
            ++ ",id=" ++ str_of_int id_ ++ "]")%string)
  /\ (forall url audio_url title content image_url,
      str_of_built str_of_ref
        (MessageSegment_music_custom url audio_url title content image_url) h
      = Ok ("[CQ:music,type=custom,url=" ++ escape url true
            ++ ",audio=" ++ escape audio_url true
            ++ ",title=" ++ escape title true
            ++ ",content=" ++ escape content true
            ++ ",image=" ++ escape image_url true ++ "]")%string).
Proof.
  repeat match goal with |- _ /\ _ => split end.
  - intros text. code_of_builder
      (keyword_segment "text" [("text", text)] ltac:(discriminate)
         ltac:(discriminate)).
  - intros id_. code_of_builder
      (keyword_segment "emoji" [("id", str_of_int id_)] ltac:(discriminate)
         ltac:(discriminate)).
  - intros id_. code_of_builder
      (keyword_segment "face" [("id", str_of_int id_)] ltac:(discriminate)
         ltac:(discriminate)).
  - intros file. code_of_builder
      (keyword_segment "image" [("file", file)] ltac:(discriminate)
         ltac:(discriminate)).
  - intros file magic. code_of_builder
      (keyword_segment "record" [("file", file); ("magic", _b2s magic)]
         ltac:(discriminate) ltac:(discriminate)).
    now destruct magic.
  - intros user_id. code_of_builder
      (keyword_segment "at" [("qq", str_of_int user_id)] ltac:(discriminate)
         ltac:(discriminate)).
  - code_of_builder (bare_segment "rps" ltac:(discriminate)).
  - code_of_builder (bare_segment "dice" ltac:(discriminate)).
  - code_of_builder (bare_segment "shake" ltac:(discriminate)).
  - intros ignore_failure. code_of_builder
      (keyword_segment "anonymous" [("ignore", _b2s ignore_failure)]
         ltac:(discriminate) ltac:(discriminate)).
    now destruct ignore_failure.
  - intros url title content image_url. code_of_builder
      (keyword_segment "share"
         [("url", url); ("title", title); ("content", content);
          ("image", image_url)] ltac:(discriminate) ltac:(discriminate)).
  - intros id_. code_of_builder
      (keyword_segment "contact" [("type", "qq"); ("id", str_of_int id_)]
         ltac:(discriminate) ltac:(discriminate)).
  - intros id_. code_of_builder
      (keyword_segment "contact" [("type", "group"); ("id", str_of_int id_)]
         ltac:(discriminate) ltac:(discriminate)).
  - intros type_ id_. code_of_builder
      (keyword_segment "music" [("type", type_); ("id", str_of_int id_)]
         ltac:(discriminate) ltac:(discriminate)).
  - intros url audio_url title content image_url. code_of_builder
      (keyword_segment "music"
         [("type", "custom"); ("url", url); ("audio", audio_url);
          ("title", title); ("content", content); ("image", image_url)]
         ltac:(discriminate) ltac:(discriminate)).
Qed.

Lemma builds_round_trips (str_of_ref : heap -> nat -> result string)
    (c : M heap val) (d : desc) :
  builds c d -> desc_ok d = true -> round_trips str_of_ref c d.
Proof.
  intros Hc Hok h h0.
  destruct (builds_described c d h Hc) as (h' & seg & E & Hd).
  assert (Hall : forallb desc_ok [d] = true) by (cbn; now rewrite Hok).
  destruct (desc_ok_chunks [d] Hall) as (Hck & Htk & _).
  destruct (Message_parsed (map chunk_of [d]) h0 Hck Htk)
    as (more & self & locs & HM & Hr).
  rewrite <- (merge_adjacent_parsed [d] Hall) in Hr.
  change (merge_adjacent [d]) with [d] in Hr.
  apply represents_cons_inv in Hr
    as (v & self' & l & locs' & -> & -> & Hv & Hr).
  apply represents_nil_inv in Hr as [-> ->].
  exists (chunk_text (chunk_of d)), (h0 ++ more), v, l.
  split; [|split].
  - unfold str_of_built, bind. rewrite E.
    now rewrite (MessageSegment_str_described str_of_ref h' seg _ d Hd Hok).
  - cbn [map chunks_text] in HM. rewrite string_app_empty_r in HM. exact HM.
  - exact Hv.
Qed.

Ltac plain_desc :=
  unfold desc_ok, is_text_desc; cbn [fst snd String.eqb Ascii.eqb Bool.eqb
    forallb map];
  repeat match goal with
         | H : plain_value _ = true |- _ => rewrite H; clear H
         | H : plain _ = true |- _ => rewrite H; clear H
         end;
  rewrite ?str_of_int_plain; try reflexivity.

(** X24: A segment made by a builder comes back from its CQ code: for every
    int and bool argument, and for string arguments without reserved
    characters, [Message(str(segment))] holds exactly one segment, with
    the type and the data of the one built. *)
Theorem builder_round_trips (str_of_ref : heap -> nat -> result string) :
  (forall text, text <> EmptyString -> plain text = true ->
      round_trips str_of_ref (MessageSegment_text text) (text_desc text))
  /\ (forall id_,
      round_trips str_of_ref (MessageSegment_emoji id_)
        ("emoji", [("id", str_of_int id_)]))
  /\ (forall id_,
      round_trips str_of_ref (MessageSegment_face id_)
        ("face", [("id", str_of_int id_)]))
  /\ (forall file, plain_value file = true ->
      round_trips str_of_ref (MessageSegment_image file)
        ("image", [("file", file)]))
  /\ (forall file magic, plain_value file = true ->
      round_trips str_of_ref (MessageSegment_record file magic)
        ("record", [("file", file); ("magic", _b2s magic)]))
  /\ (forall user_id,
      round_trips str_of_ref (MessageSegment_at user_id)
        ("at", [("qq", str_of_int user_id)]))
  /\ round_trips str_of_ref MessageSegment_rps ("rps", [])
  /\ round_trips str_of_ref MessageSegment_dice ("dice", [])
  /\ round_trips str_of_ref MessageSegment_shake ("shake", [])
  /\ (forall ignore_failure,
      round_trips str_of_ref (MessageSegment_anonymous ignore_failure)
        ("anonymous", [("ignore", _b2s ignore_failure)]))
  /\ (forall url title content image_url,
      plain_value url = true -> plain_value title = true ->
      plain_value content = true -> plain_value image_url = true ->
      round_trips str_of_ref
        (MessageSegment_share url title content image_url)
        ("share", [("url", url); ("title", title); ("content", content);
                   ("image", image_url)]))
  /\ (forall id_,
      round_trips str_of_ref (MessageSegment_contact_user id_)
        ("contact", [("type", "qq"); ("id", str_of_int id_)]))
  /\ (forall id_,
      round_trips str_of_ref (MessageSegment_contact_group id_)
        ("contact", [("type", "group"); ("id", str_of_int id_)]))
  /\ (forall type_ id_, plain_value type_ = true ->
      round_trips str_of_ref (MessageSegment_music type_ id_)
        ("music", [("type", type_); ("id", str_of_int id_)]))
  /\ (forall url audio_url title content image_url,
      plain_value url = true -> plain_value audio_url = true ->
      plain_value title = true -> plain_value content = true ->
      plain_value image_url = true ->
      round_trips str_of_ref
        (MessageSegment_music_custom url audio_url title content image_url)
        ("music", [("type", "custom"); ("url", url); ("audio", audio_url);
                   ("title", title); ("content", content);
                   ("image", image_url)])).
Proof.
  repeat match goal with |- _ /\ _ => split end.
  - intros text Hne Hp.
    apply (builds_round_trips str_of_ref _ _
             (keyword_segment "text" [("text", text)] ltac:(discriminate)
                ltac:(discriminate))).
    unfold desc_ok, text_desc, is_text_desc. cbn [fst snd].
    change (String.eqb "text" "text") with true. cbn [andb].
    rewrite Hp. destruct (String.eqb_spec text ""); [contradiction|reflexivity].
  - intros id_.
    apply (builds_round_trips str_of_ref _ _
             (keyword_segment "emoji" [("id", str_of_int id_)]
                ltac:(discriminate) ltac:(discriminate))).
    plain_desc.
  - intros id_.
    apply (builds_round_trips str_of_ref _ _
             (keyword_segment "face" [("id", str_of_int id_)]
                ltac:(discriminate) ltac:(discriminate))).
    plain_desc.
  - intros file Hf.
    apply (builds_round_trips str_of_ref _ _
             (keyword_segment "image" [("file", file)]
                ltac:(discriminate) ltac:(discriminate))).
    plain_desc.
  - intros file magic Hf.
    apply (builds_round_trips str_of_ref _ _
             (keyword_segment "record" [("file", file); ("magic", _b2s magic)]
                ltac:(discriminate) ltac:(discriminate))).
    plain_desc. now destruct magic.
  - intros user_id.
    apply (builds_round_trips str_of_ref _ _
             (keyword_segment "at" [("qq", str_of_int user_id)]
                ltac:(discriminate) ltac:(discriminate))).
    plain_desc.
  - apply (builds_round_trips str_of_ref _ _
             (bare_segment "rps" ltac:(discriminate))). reflexivity.
  - apply (builds_round_trips str_of_ref _ _
             (bare_segment "dice" ltac:(discriminate))). reflexivity.
  - apply (builds_round_trips str_of_ref _ _
             (bare_segment "shake" ltac:(discriminate))). reflexivity.
  - intros ignore_failure.
    apply (builds_round_trips str_of_ref _ _
             (keyword_segment "anonymous" [("ignore", _b2s ignore_failure)]
                ltac:(discriminate) ltac:(discriminate))).
    now destruct ignore_failure.
  - intros url title content image_url H1 H2 H3 H4.
    apply (builds_round_trips str_of_ref _ _
             (keyword_segment "share"
                [("url", url); ("title", title); ("content", content);
                 ("image", image_url)]
                ltac:(discriminate) ltac:(discriminate))).
    plain_desc.
  - intros id_.
    apply (builds_round_trips str_of_ref _ _
             (keyword_segment "contact"
                [("type", "qq"); ("id", str_of_int id_)]
                ltac:(discriminate) ltac:(discriminate))).
    plain_desc.
  - intros id_.
    apply (builds_round_trips str_of_ref _ _
             (keyword_segment "contact"
                [("type", "group"); ("id", str_of_int id_)]
                ltac:(discriminate) ltac:(discriminate))).
    plain_desc.
  - intros type_ id_ H1.
    apply (builds_round_trips str_of_ref _ _
             (keyword_segment "music"
                [("type", type_); ("id", str_of_int id_)]
                ltac:(discriminate) ltac:(discriminate))).
    plain_desc.
  - intros url audio_url title content image_url H1 H2 H3 H4 H5.
    apply (builds_round_trips str_of_ref _ _
             (keyword_segment "music"
                [("type", "custom"); ("url", url); ("audio", audio_url);
                 ("title", title); ("content", content);
                 ("image", image_url)]
                ltac:(discriminate) ltac:(discriminate))).
    plain_desc.
Qed.

Lemma builder_round_trips_witness :
  round_trips (fun _ _ => Ok "") (MessageSegment_image "a.png")
    ("image", [("file", "a.png")]).
Proof.
  apply (proj1 (proj2 (proj2 (proj2
           (builder_round_trips (fun _ _ => Ok "")))))).
  reflexivity.
Defined.

(** ** Every string: what the matcher can return *)

Lemma star_loop_sound {A : Type}
    (body : string -> Re.captures -> (string -> Re.captures -> option A)
            -> option A)
    (names : list string) :
  (forall s caps k x, body s caps k = Some x ->
      exists s' new, k s' (new ++ caps) = Some x
        /\ String.length s' <= String.length s
        /\ incl (map fst new) names) ->
  forall (n : nat) (k : string -> Re.captures -> option A)
         (s : string) (caps : Re.captures) (x : A),
    Re.star_loop body k n s caps = Some x ->
    exists s' new, k s' (new ++ caps) = Some x
      /\ String.length s' <= String.length s
      /\ incl (map fst new) names.
Proof.
  intros Hbody. induction n as [|n IH]; intros k s caps x H.
  - exists s, []. repeat split; [exact H|lia|intros a []].
  - cbn [Re.star_loop] in H.
    destruct (body s caps
                (fun s' caps' =>
                   if (String.length s' <? String.length s)%nat
                   then Re.star_loop body k n s' caps' else None))
      as [x0|] eqn:E.
    + injection H as ->.
      destruct (Hbody _ _ _ _ E) as (s1 & new1 & Hk & Hlen & Hin).
      destruct (Nat.ltb_spec (String.length s1) (String.length s));
        [|discriminate].
      destruct (IH _ _ _ _ Hk) as (s2 & new2 & Hk2 & Hlen2 & Hin2).
      exists s2, (new2 ++ new1). rewrite <- app_assoc.
      repeat split; [exact Hk2|lia|].
      rewrite map_app. now apply incl_app.
    + exists s, []. repeat split; [exact H|lia|intros a []].
Qed.

Lemma run_sound {A : Type} (r : Re.regex) :
  forall (s : string) (caps : Re.captures)
         (k : string -> Re.captures -> option A) (x : A),
    Re.run r s caps k = Some x ->
    exists s' new, k s' (new ++ caps) = Some x
      /\ String.length s' <= String.length s
      /\ incl (map fst new) (group_names r).
Proof.
  induction r as [|c|p|r1 IH1 r2 IH2|r1 IH1|r1 IH1|name r1 IH1];
    intros s caps k x H; cbn [group_names].
  - exists s, []. repeat split; [exact H|lia|intros a []].
  - cbn [Re.run] in H. destruct s as [|c' s']; [discriminate|].
    destruct (Ascii.eqb c' c); [|discriminate].
    exists s', []. repeat split; [exact H|cbn; lia|intros a []].
  - cbn [Re.run] in H. destruct s as [|c' s']; [discriminate|].
    destruct (p c'); [|discriminate].
    exists s', []. repeat split; [exact H|cbn; lia|intros a []].
  - rewrite run_seq in H.
    destruct (IH1 _ _ _ _ H) as (s1 & new1 & H1 & L1 & I1).
    destruct (IH2 _ _ _ _ H1) as (s2 & new2 & H2 & L2 & I2).
    exists s2, (new2 ++ new1). rewrite <- app_assoc.
    repeat split; [exact H2|lia|].
    rewrite map_app. apply incl_app.
    + now apply incl_appr.
    + now apply incl_appl.
  - cbn [Re.run] in H.
    exact (star_loop_sound (Re.run r1) (group_names r1) IH1 _ _ _ _ _ H).
  - rewrite run_opt in H.
    destruct (Re.run r1 s caps k) as [x0|] eqn:E.
    + injection H as ->. exact (IH1 _ _ _ _ E).
    + exists s, []. repeat split; [exact H|lia|intros a []].
  - rewrite run_group in H.
    destruct (IH1 _ _ _ _ H) as (s1 & new1 & H1 & L1 & I1).
    exists s1, ((name, Re.consumed s s1) :: new1).
    repeat split; [exact H1|lia|].
    cbn [map fst]. intros a [<-|Ha]; [now left|right; now apply I1].
Qed.

Lemma group_skips (name : string) (new caps : Re.captures) :
  ~ In name (map fst new) ->
  Re.group name (new ++ caps) = Re.group name caps.
Proof.
  induction new as [|[n v] new IH]; intros H; [reflexivity|].
  cbn [app Re.group]. destruct (String.eqb_spec n name) as [->|_].
  - exfalso. apply H. now left.
  - apply IH. intros Hin. apply H. now right.
Qed.

Lemma match_here_type (s rest : string) (caps : Re.captures) :
  Re.match_here cq_regex s = Some (rest, caps) ->
  Re.group "type" caps <> EmptyString.
Proof.
  unfold Re.match_here, cq_regex. rewrite run_seq. intros H.
  destruct (run_sound _ _ _ _ _ H) as (s1 & new1 & H1 & _ & I1).
  assert (new1 = []) as ->.
  { destruct new1 as [|[n v] new1]; [reflexivity|].
    destruct (I1 n (or_introl eq_refl)). }
  cbn [app] in H1. rewrite run_seq, run_group in H1.
  unfold Re.Plus in H1. rewrite run_seq in H1.
  destruct s1 as [|c t]; [discriminate|].
  rewrite run_cls_cons in H1. destruct (is_name_char c); [|discriminate].
  destruct (run_sound _ _ _ _ _ H1) as (s2 & new2 & H2 & L2 & I2).
  assert (new2 = []) as ->.
  { destruct new2 as [|[n v] new2]; [reflexivity|].
    destruct (I2 n (or_introl eq_refl)). }
  cbn [app] in H2.
  destruct (run_sound _ _ _ _ _ H2) as (s3 & new3 & H3 & _ & I3).
  injection H3 as _ <-.
  rewrite group_skips.
  - cbn [Re.group String.eqb Ascii.eqb Bool.eqb]. unfold Re.consumed.
    cbn [String.length].
    replace (S (String.length t) - String.length s2)
      with (S (String.length t - String.length s2)) by lia.
    discriminate.
  - intros Hin. apply I3 in Hin. cbn in Hin.
    destruct Hin as [Hin|[]]. discriminate.
Qed.

Lemma finditer_from_types (s : string) :
  forall (pos skip : nat) (m : Re.rmatch),
    In m (Re.finditer_from cq_regex pos skip s) ->
    Re.group "type" (Re.m_caps m) <> EmptyString.
Proof.
  induction s as [|c t IH]; intros pos skip m Hin.
  - cbn [Re.finditer_from] in Hin. destruct skip; [|destruct Hin].
    destruct (Re.match_here cq_regex "") as [[rest caps]|] eqn:E;
      [|destruct Hin].
    destruct Hin as [<-|[]]. exact (match_here_type _ _ _ E).
  - cbn [Re.finditer_from] in Hin. destruct skip as [|n].
    + destruct (Re.match_here cq_regex (String c t)) as [[rest caps]|] eqn:E.
      * destruct Hin as [<-|Hin]; [exact (match_here_type _ _ _ E)|].
        exact (IH _ _ _ Hin).
      * exact (IH _ _ _ Hin).
    + exact (IH _ _ _ Hin).
Qed.

Lemma spans_names (msg : string) (ms : list Re.rmatch) :
  (forall m, In m ms -> Re.group "type" (Re.m_caps m) <> EmptyString) ->
  forall text_begin : nat,
    Forall (fun p => fst p <> EmptyString) (spans msg text_begin ms).
Proof.
  induction ms as [|m ms IH]; intros H tb; cbn [spans].
  - constructor; [discriminate|constructor].
  - constructor; [discriminate|]. constructor.
    + apply H. now left.
    + apply IH. intros m' Hm. apply H. now right.
Qed.

Lemma scan_names (s : string) :
  Forall (fun p => fst p <> EmptyString) (iter_function_name_and_extra s).
Proof.
  unfold iter_function_name_and_extra, Re.finditer.
  apply spans_names. intros m. apply finditer_from_types.
Qed.

(** ** Every string: what the parser does *)

Lemma str_dict_set_pair (ps : list (string * string)) (k v : string) :
  str_dict (set_pair ps k v) = dict_set (str_dict ps) k (VStr v).
Proof.
  induction ps as [|[k' v'] ps IH]; [reflexivity|].
  cbn [set_pair str_dict map dict_set fst snd].
  destruct (String.eqb k' k); [reflexivity|].
  cbn [map fst snd]. f_equal. exact IH.
Qed.

Lemma dict_of_pairs_set_pairs (kvs : list (string * string)) :
  forall ps : list (string * string),
    dict_of_pairs kvs (str_dict ps) = str_dict (set_pairs kvs ps).
Proof.
  induction kvs as [|[k v] kvs IH]; intros ps; [reflexivity|].
  unfold dict_of_pairs, set_pairs in *. cbn [fold_left fst snd].
  rewrite <- str_dict_set_pair. apply IH.
Qed.

Lemma data_item_described (t : string) (ps : list (string * string))
    (h : heap) :
  t <> EmptyString ->
  exists more seg l,
    (data <- alloc (ODict (str_dict ps)) ;;
     MessageSegment VNone (VStr t) data) h = (h ++ more, Ok seg)
    /\ described (h ++ more) seg l (t, ps)
    /\ List.length h <= l < List.length (h ++ more).
Proof.
  intros Ht. destruct ps as [|kv ps].
  - exists [ODict []; ODict [];
            OSeg [("type", VStr t); ("data", VRef (S (List.length h)))]],
      (VRef (S (S (List.length h)))), (S (List.length h)).
    assert (E : h ++ [ODict []; ODict [];
                      OSeg [("type", VStr t); ("data", VRef (S (List.length h)))]]
                = ((h ++ [ODict []]) ++ [ODict []])
                    ++ [OSeg [("type", VStr t); ("data", VRef (S (List.length h)))]])
      by now rewrite <- !app_assoc.
    split; [|split].
    + unfold bind, alloc, MessageSegment. cbn [as_dict truthy str_dict map].
      destruct (String.eqb_spec t ""); [contradiction|]. cbn [negb].
      rewrite heap_get_alloc. cbn [List.length Nat.eqb negb].
      unfold bind, alloc.
      rewrite !length_app. cbn [List.length]. rewrite !Nat.add_1_r, E.
      reflexivity.
    + rewrite E. split.
      * replace (S (S (List.length h)))
          with (List.length ((h ++ [ODict []]) ++ [ODict []]))
          by (rewrite !length_app; cbn; lia).
        apply as_segment_alloc.
      * apply heap_get_old.
        replace (S (List.length h)) with (List.length (h ++ [ODict []]))
          by (rewrite length_app; cbn; lia).
        apply heap_get_alloc.
    + rewrite length_app. cbn [List.length]. lia.
  - pose proof (keyword_segment t (kv :: ps) Ht ltac:(discriminate)) as Hb.
    destruct (builds_described _ _ h Hb) as (h' & seg & E & Hd).
    rewrite (Hb h) in E. injection E as <- <-.
    eexists. exists (VRef (S (List.length h))), (List.length h).
    split; [apply Hb|]. split; [exact Hd|].
    rewrite length_app. cbn [List.length]. lia.
Qed.

Lemma merge_step_push (ds : list desc) (d : desc) :
  last_not_text ds = true \/ is_text_desc d = false ->
  merge_step ds d = ds ++ [d].
Proof.
  unfold merge_step, last_not_text. intros H.
  destruct (rev ds) as [|p before] eqn:E.
  - apply (f_equal (@rev desc)) in E. rewrite rev_involutive in E.
    now subst ds.
  - destruct H as [H|H].
    + apply negb_true_iff in H. now rewrite H.
    + now rewrite H, andb_false_r.
Qed.

Lemma append_merge_described (h : heap) (self : list val) (locs : list nat)
    (ds : list desc) (seg : val) (l : nat) (d : desc) :
  represents h self locs ds -> NoDup locs ->
  forallb text_shape ds = true ->
  described h seg l d -> text_shape d = true ->
  last_not_text ds = false -> is_text_desc d = true ->
  exists h',
    append (AVal seg) (h, self) = ((h', self), Ok tt)
    /\ represents h' self locs (merge_step ds d)
    /\ List.length h' = List.length h.
Proof.
  intros Hr Hnd Hshape Hseg Hd Elast Etext.
  unfold last_not_text in Elast. unfold merge_step.
  destruct (rev ds) as [|dp rds0] eqn:Erev; [discriminate|].
  apply negb_false_iff in Elast. rewrite Elast, Etext. cbn [andb].
  apply (f_equal (@rev desc)) in Erev. rewrite rev_involutive in Erev.
  cbn [rev] in Erev. subst ds. set (ds0 := rev rds0) in *.
  rewrite forallb_app in Hshape. apply andb_prop in Hshape as [_ Hp].
  cbn [forallb] in Hp. apply andb_prop in Hp as [Hp _].
  pose proof (text_desc_shape dp Elast Hp) as Ep.
  pose proof (text_desc_shape d Etext Hd) as Ed.
  set (a := desc_payload dp) in *. set (b := desc_payload d) in *.
  destruct (represents_length h _ self locs Hr) as [Ls Ll].
  assert (Hself : exists self0 prev, self = self0 ++ [prev]).
  { destruct (rev self) as [|prev r] eqn:E.
    - apply (f_equal (@rev val)) in E. rewrite rev_involutive in E.
      subst self. rewrite length_app in Ls. cbn in Ls. lia.
    - apply (f_equal (@rev val)) in E. rewrite rev_involutive in E.
      exists (rev r), prev. exact E. }
  destruct Hself as (self0 & prev & ->).
  destruct (represents_snoc_inv _ _ _ _ _ Hr)
    as (locs0 & lp & ds1 & dp1 & -> & Eds & Hr0 & Hprev).
  apply app_inj_tail in Eds as [<- <-].
  rewrite Ep in Hr. rewrite Ed in Hseg.
  destruct (append_text_described h self0 prev seg locs0 lp l ds0 a b
              Hr Hnd Hseg) as (h' & Happ & Hr').
  exists h'. split; [exact Happ|]. split; [exact Hr'|].
  destruct Hseg as [Hs _].
  unfold append, try_except in Happ. cbn [fst] in Happ. rewrite Hs in Happ.
  pose proof (append_segment_outcome seg h (self0 ++ [prev])) as Ho.
  unfold mstate, heap in *.
  destruct (append_segment seg (h, self0 ++ [prev])) as [[h2 self2] [[]|e]];
    [|discriminate].
  injection Happ as <- _.
  destruct Ho as [(_ & Hl & _)|(_ & ->)]; [exact Hl|reflexivity].
Qed.

Lemma append_inv (h : heap) (self : list val) (locs : list nat)
    (ds : list desc) (seg : val) (l : nat) (d : desc) :
  parse_inv h self locs ds ->
  described h seg l d -> ~ In l locs -> l < List.length h ->
  text_shape d = true ->
  exists h' self' locs',
    append (AVal seg) (h, self) = ((h', self'), Ok tt)
    /\ parse_inv h' self' locs' (merge_step ds d).
Proof.
  intros (Hr & Hnd & Hshape & Hlt) Hseg Hnotin Hl Hd.
  destruct (last_not_text ds) eqn:Elast.
  2: destruct (is_text_desc d) eqn:Etext.
  - destruct (append_described h self locs ds seg l d Hr Hseg (or_introl Elast))
      as [Happ Hr'].
    exists h, (self ++ [seg]), (locs ++ [l]).
    rewrite (merge_step_push ds d (or_introl Elast)).
    split; [exact Happ|]. split; [exact Hr'|]. split; [|split].
    + apply NoDup_app; [exact Hnd|repeat constructor; intros []|].
      intros x Hx [<-|[]]. contradiction.
    + rewrite forallb_app, Hshape. cbn [forallb]. now rewrite Hd.
    + apply Forall_app. split; [exact Hlt|]. now repeat constructor.
  - destruct (append_merge_described h self locs ds seg l d
                Hr Hnd Hshape Hseg Hd Elast Etext) as (h' & Happ & Hr' & Hlen).
    exists h', self, locs.
    split; [exact Happ|]. split; [exact Hr'|]. split; [exact Hnd|]. split.
    + exact (proj2 (cq_codes_merge_step ds d Hshape Hd)).
    + now rewrite Hlen.
  - destruct (append_described h self locs ds seg l d Hr Hseg (or_intror Etext))
      as [Happ Hr'].
    exists h, (self ++ [seg]), (locs ++ [l]).
    rewrite (merge_step_push ds d (or_intror Etext)).
    split; [exact Happ|]. split; [exact Hr'|]. split; [|split].
    + apply NoDup_app; [exact Hnd|repeat constructor; intros []|].
      intros x Hx [<-|[]]. contradiction.
    + rewrite forallb_app, Hshape. cbn [forallb]. now rewrite Hd.
    + apply Forall_app. split; [exact Hlt|]. now repeat constructor.
Qed.

Lemma parse_inv_extends (h more : heap) (self : list val) (locs : list nat)
    (ds : list desc) :
  parse_inv h self locs ds -> parse_inv (h ++ more) self locs ds.
Proof.
  intros (Hr & Hnd & Hshape & Hlt).
  split; [now apply represents_extends|]. split; [exact Hnd|].
  split; [exact Hshape|].
  apply Forall_forall. intros x Hx.
  rewrite Forall_forall in Hlt. specialize (Hlt x Hx).
  rewrite length_app. lia.
Qed.

Lemma item_step (c : M heap val) (rest : iterable) (h more : heap)
    (self : list val) (locs : list nat) (ds : list desc)
    (seg : val) (l : nat) (d : desc) :
  parse_inv h self locs ds ->
  c h = (h ++ more, Ok seg) ->
  described (h ++ more) seg l d ->
  List.length h <= l < List.length (h ++ more) ->
  text_shape d = true ->
  exists h' self' locs',
    for_each_append (c :: rest) (h, self)
    = for_each_append rest (h', self')
    /\ parse_inv h' self' locs' (merge_step ds d).
Proof.
  intros Hinv Hc Hseg [Hlo Hhi] Hd.
  assert (Hnotin : ~ In l locs).
  { intros Hin. destruct Hinv as (_ & _ & _ & Hlt).
    rewrite Forall_forall in Hlt. specialize (Hlt l Hin). lia. }
  destruct (append_inv (h ++ more) self locs ds seg l d
              (parse_inv_extends h more self locs ds Hinv)
              Hseg Hnotin Hhi Hd) as (h' & self' & locs' & Happ & Hinv').
  exists h', self', locs'. split; [|exact Hinv'].
  cbn [for_each_append]. unfold bind, lift. cbn [fst snd].
  rewrite Hc. unfold mstate, heap in *. now rewrite Happ.
Qed.

Lemma for_each_items (l : list (string * string)) :
  Forall (fun p => fst p <> EmptyString) l ->
  forall (h : heap) (self : list val) (locs : list nat) (ds : list desc),
    parse_inv h self locs ds ->
    if forallb item_good l
    then exists h' self' locs',
        for_each_append (split_items l) (h, self) = ((h', self'), Ok tt)
        /\ parse_inv h' self' locs'
             (fold_left merge_step (flat_map item_descs l) ds)
    else exists st' e,
        for_each_append (split_items l) (h, self) = (st', Raise e).
Proof.
  induction l as [|[name extra] l IH]; intros Hnames h self locs ds Hinv.
  - cbn. exists h, self, locs. now split.
  - inversion Hnames as [|? ? Hname Hnames']; subst. cbn [fst] in Hname.
    cbn [split_items forallb flat_map].
    unfold split_item, item_good at 1, item_descs at 1. cbn [fst snd].
    destruct (String.eqb name "text") eqn:Et; cbn [orb andb].
    + apply String.eqb_eq in Et. subst name. unfold emit.
      destruct (String.eqb extra "") eqn:Ee; cbn [negb app].
      * exact (IH Hnames' h self locs ds Hinv).
      * destruct (data_item_described "text" [("text", extra)] h
                    ltac:(discriminate)) as (more & seg & lc & Hc & Hseg & Hb).
        destruct (item_step _ (split_items l) h more self locs ds seg lc
                    (text_desc extra) Hinv Hc Hseg Hb eq_refl)
          as (h1 & self1 & locs1 & Estep & Hinv1).
        specialize (IH Hnames' h1 self1 locs1 _ Hinv1).
        change (str_dict [("text", extra)]) with [("text", VStr extra)]
          in Estep.
        cbn [fold_left]. unfold mstate, heap in *. rewrite Estep.
        exact IH.
    + destruct (forallb (has_chr "=") (cq_pieces extra)) eqn:Eg.
      * assert (Hdata : cq_data extra
                        = Ok (str_dict
                                (set_pairs (map halves (cq_pieces extra)) []))).
        { unfold cq_data.
          change (filter _ (map lstrip (split_chr "," extra)))
            with (cq_pieces extra).
          rewrite collect_pairs_halves, Eg.
          now rewrite <- dict_of_pairs_set_pairs. }
        set (ps := set_pairs (map halves (cq_pieces extra)) []) in *.
        destruct (data_item_described name ps h Hname)
          as (more & seg & lc & Hc & Hseg & Hb).
        assert (Hc' : (d <- reads (fun _ => cq_data extra) ;;
                       data <- alloc (ODict d) ;;
                       MessageSegment VNone (VStr name) data) h
                      = (h ++ more, Ok seg)).
        { unfold bind at 1, reads. rewrite Hdata. exact Hc. }
        assert (Hshape : text_shape (name, ps) = true).
        { unfold text_shape, is_text_desc. cbn [fst]. now rewrite Et. }
        destruct (item_step _ (split_items l) h more self locs ds seg lc
                    (name, ps) Hinv Hc' Hseg Hb Hshape)
          as (h1 & self1 & locs1 & Estep & Hinv1).
        specialize (IH Hnames' h1 self1 locs1 _ Hinv1).
        cbn [fold_left app]. unfold mstate, heap in *. rewrite Estep.
        exact IH.
      * exists (h, self), unpack_error.
        cbn [for_each_append]. unfold bind, lift, reads. cbn [fst snd].
        assert (Hdata : cq_data extra = Raise unpack_error).
        { unfold cq_data.
          change (filter _ (map lstrip (split_chr "," extra)))
            with (cq_pieces extra).
          now rewrite collect_pairs_halves, Eg. }
        now rewrite Hdata.
Qed.

(** X25: What [Message(s)] does for every string [s].  When each token of a
    type other than text has an equals sign in each of its non-empty
    parameters, the call returns: every non-empty piece of text and every
    token of type text is a text segment, merged with a text segment just
    before it; every other token is a segment of its type, each parameter
    cut at its first equals sign, a later key replacing an earlier one.
    Otherwise the call raises the ValueError of the constructor. *)
Theorem parse_any_string (s : string) (h : heap) :
  if forallb item_good (iter_function_name_and_extra s)
  then exists h' self locs,
      Message (AVal (VStr s)) h = (h', Ok self)
      /\ represents h' self locs (scanned s)
  else exists h', Message (AVal (VStr s)) h = (h', Raise init_msg_error).
Proof.
  assert (Hinv : parse_inv h [] [] []).
  { split; [exact I|]. split; [constructor|]. split; [reflexivity|constructor]. }
  pose proof (for_each_items (iter_function_name_and_extra s) (scan_names s)
                h [] [] [] Hinv) as H.
  unfold Message, Message_init, extend, try_except, bind, lift, reads.
  cbn [fst snd iter_of]. unfold _split_iter, scanned.
  destruct (forallb item_good (iter_function_name_and_extra s)).
  - destruct H as (h' & self' & locs' & E & (Hr & _)).
    exists h', self', locs'. unfold mstate, heap in *. rewrite E.
    now split.
  - destruct H as ([h' self'] & e & E).
    exists h'. unfold mstate, heap in *. now rewrite E.
Qed.

(** ** Reduce merges every run *)

Lemma item_of_text_inv (h : heap) (v v' : val) (l : nat) (s : string) :
  item_of h v = Some (Text v' l s) ->
  v' = v
  /\ has_type h v = true /\ is_text h v = true
  /\ getattr v "data" h = Ok (VRef l)
  /\ exists d, heap_get h l = Some (ODict d)
               /\ dict_get d "text" = Some (VStr s).
Proof.
  unfold item_of, has_type.
  destruct (getattr v "type" h) as [t|e] eqn:Et; [|discriminate].
  rewrite (getattr_type_is_text v t h Et).
  destruct (val_eqb t (VStr "text")); [|discriminate].
  destruct (getattr v "data" h) as [[| |l0]|e]; try discriminate.
  destruct (heap_get h l0) as [[d|d]|] eqn:El; try discriminate.
  destruct (dict_get d "text") as [[|s0|]|] eqn:Ed; try discriminate.
  intros [= <- <- <-]. repeat split. now exists d.
Qed.

Lemma item_of_other_inv (h : heap) (v v' : val) :
  item_of h v = Some (Other v') ->
  v' = v /\ has_type h v = true /\ is_text h v = false.
Proof.
  unfold item_of, has_type.
  destruct (getattr v "type" h) as [t|e] eqn:Et; [|discriminate].
  rewrite (getattr_type_is_text v t h Et).
  destruct (val_eqb t (VStr "text")).
  - destruct (getattr v "data" h) as [[| |l0]|e]; try discriminate.
    destruct (heap_get h l0) as [[d|d]|]; try discriminate.
    destruct (dict_get d "text") as [[|s0|]|]; discriminate.
  - intros [= <-]. now repeat split.
Qed.

Lemma item_of_facts (h : heap) (v : val) (x : item) :
  item_of h v = Some x ->
  has_type h v = true /\ is_text h v = text_item x.
Proof.
  destruct x as [v' l s|v']; intros H.
  - destruct (item_of_text_inv h v v' l s H) as (_ & Ht & Hi & _).
    now split.
  - destruct (item_of_other_inv h v v' H) as (_ & Ht & Hi). now split.
Qed.

Lemma items_app_inv (h : heap) (a : list val) :
  forall (b : list val) (xs : list item),
    items h (a ++ b) = Some xs ->
    exists xa xb, xs = xa ++ xb /\ items h a = Some xa /\ items h b = Some xb.
Proof.
  induction a as [|v a IH]; intros b xs H.
  - exists [], xs. now repeat split.
  - cbn [app items] in *.
    destruct (item_of h v) as [x|]; [|discriminate].
    destruct (items h (a ++ b)) as [xs'|] eqn:E; [|discriminate].
    injection H as <-.
    destruct (IH b xs' E) as (xa & xb & -> & Ha & Hb).
    exists (x :: xa), xb. rewrite Ha. now repeat split.
Qed.

Lemma items_app (h : heap) (a b : list val) (xa xb : list item) :
  items h a = Some xa -> items h b = Some xb ->
  items h (a ++ b) = Some (xa ++ xb).
Proof.
  revert xa. induction a as [|v a IH]; intros xa Ha Hb.
  - injection Ha as <-. exact Hb.
  - cbn [app items] in *.
    destruct (item_of h v) as [x|]; [|discriminate].
    destruct (items h a) as [xa'|]; [|discriminate].
    injection Ha as <-. now rewrite (IH xa' eq_refl Hb).
Qed.

Lemma text_locs_app (a b : list item) :
  text_locs (a ++ b) = text_locs a ++ text_locs b.
Proof.
  induction a as [|[v l s|v] a IH]; cbn [app text_locs]; [reflexivity| |exact IH].
  now rewrite IH.
Qed.

Lemma as_segment_set_dict (h : heap) (l : nat) (d0 d1 : dict) (v : val) :
  heap_get h l = Some (ODict d0) ->
  as_segment (heap_set h l (ODict d1)) v = as_segment h v.
Proof.
  intros Hl. destruct v as [| |l']; cbn; try reflexivity.
  rewrite heap_get_set. destruct (Nat.eqb_spec l' l) as [->|_]; [|reflexivity].
  now rewrite Hl.
Qed.

Lemma item_of_set (h : heap) (lp : nat) (d0 d1 : dict) (v : val) (x : item) :
  heap_get h lp = Some (ODict d0) ->
  item_of h v = Some x -> ~ In lp (text_locs [x]) ->
  item_of (heap_set h lp (ODict d1)) v = Some x.
Proof.
  intros Hl Hx Hnot. unfold item_of in *. unfold getattr in *.
  rewrite (as_segment_set_dict h lp d0 d1 v Hl).
  destruct (as_segment h v) as [d|]; [|discriminate].
  destruct (seg_getattr d "type") as [t|e]; [|discriminate].
  destruct (val_eqb t (VStr "text")); [|exact Hx].
  destruct (seg_getattr d "data") as [[| |l0]|e]; try discriminate.
  rewrite heap_get_set.
  destruct (Nat.eqb_spec l0 lp) as [->|_]; [|exact Hx].
  exfalso. rewrite Hl in Hx.
  destruct (dict_get d0 "text") as [[|s0|]|]; try discriminate.
  injection Hx as <-. apply Hnot. now left.
Qed.

Lemma items_set (h : heap) (lp : nat) (d0 d1 : dict) (vs : list val) :
  heap_get h lp = Some (ODict d0) ->
  forall xs : list item,
    items h vs = Some xs -> ~ In lp (text_locs xs) ->
    items (heap_set h lp (ODict d1)) vs = Some xs.
Proof.
  intros Hl. induction vs as [|v vs IH]; intros xs H Hnot; [exact H|].
  cbn [items] in *.
  destruct (item_of h v) as [x|] eqn:Ex; [|discriminate].
  destruct (items h vs) as [xs'|] eqn:Exs; [|discriminate].
  injection H as <-.
  rewrite (item_of_set h lp d0 d1 v x Hl Ex).
  - rewrite (IH xs' eq_refl); [reflexivity|].
    intros Hin. apply Hnot.
    change (x :: xs') with ([x] ++ xs'). rewrite text_locs_app.
    apply in_or_app. now right.
  - intros Hin. apply Hnot.
    change (x :: xs') with ([x] ++ xs'). rewrite text_locs_app.
    apply in_or_app. now left.
Qed.

Lemma merge_runs_tail (a r1 r2 : list item) :
  merge_runs r1 = merge_runs r2 ->
  merge_runs (a ++ r1) = merge_runs (a ++ r2).
Proof.
  intros H. induction a as [|x a IH]; [exact H|].
  cbn [app merge_runs]. now rewrite IH.
Qed.

Lemma merge_runs_pair (v1 v2 : val) (l1 l2 : nat) (s1 s2 : string)
    (r : list item) :
  merge_runs (Text v1 l1 (s1 ++ s2) :: r)
  = merge_runs (Text v1 l1 s1 :: Text v2 l2 s2 :: r).
Proof.
  cbn [merge_runs]. destruct (merge_runs r) as [|[v l s|v] r'];
    try reflexivity.
  now rewrite string_app_assoc.
Qed.

Lemma merge_runs_fixed (h : heap) (self : list val) :
  forall xs : list item,
    items h self = Some xs -> adjacent_text h self = false ->
    merge_runs xs = xs.
Proof.
  induction self as [|v rest IH]; intros xs H Hadj.
  - injection H as <-. reflexivity.
  - cbn [items] in H.
    destruct (item_of h v) as [x|] eqn:Ex; [|discriminate].
    destruct (items h rest) as [xs'|] eqn:Exs; [|discriminate].
    injection H as <-.
    destruct rest as [|w rest'].
    + injection Exs as <-. destruct x; reflexivity.
    + rewrite adjacent_text_cons2 in Hadj.
      apply orb_false_elim in Hadj as [Hboth Hadj].
      cbn [merge_runs]. rewrite (IH xs' eq_refl Hadj).
      cbn [items] in Exs.
      destruct (item_of h w) as [y|] eqn:Ey; [|discriminate].
      destruct (items h rest') as [ys|]; [|discriminate].
      injection Exs as <-.
      rewrite (proj2 (item_of_facts h v x Ex)) in Hboth.
      rewrite (proj2 (item_of_facts h w y Ey)) in Hboth.
      destruct x, y; try reflexivity. discriminate.
Qed.

(** One turn of the loop on a message that can be read. *)
Lemma reduce_step_items (j : nat) (h : heap) (self : list val)
    (xs : list item) (prev cur : val) :
  items h self = Some xs -> NoDup (text_locs xs) ->
  nth_error self j = Some prev -> nth_error self (S j) = Some cur ->
  reduce_step (S j) (h, self) = ((h, self), Ok (S (S j)))
  \/ exists h' xs',
       reduce_step (S j) (h, self) = ((h', del_at (S j) self), Ok (S j))
       /\ items h' (del_at (S j) self) = Some xs'
       /\ NoDup (text_locs xs')
       /\ merge_runs xs' = merge_runs xs.
Proof.
  intros Hxs Hnd Hp Hc.
  rewrite (reduce_step_cases j h self prev cur Hp Hc).
  destruct (nth_error_split self j Hp) as (a & r & -> & Hlen).
  rewrite nth_error_app2 in Hc by lia.
  replace (S j - List.length a) with 1 in Hc by lia.
  destruct r as [|c b]; [discriminate|]. injection Hc as ->.
  destruct (items_app_inv h a _ xs Hxs) as (xa & xr & -> & Ha & Hr).
  cbn [items] in Hr.
  destruct (item_of h prev) as [xp|] eqn:Ep; [|discriminate].
  destruct (item_of h cur) as [xc|] eqn:Ec; [|discriminate].
  destruct (items h b) as [xb|] eqn:Eb; [|discriminate].
  injection Hr as <-.
  destruct (item_of_facts h prev xp Ep) as [Tp Ip].
  destruct (item_of_facts h cur xc Ec) as [Tc Ic].
  rewrite (both_text_typed prev cur h Tp Tc), Ip, Ic. cbn [snd].
  destruct xp as [vp lp sp|vp]; [|now left].
  destruct xc as [vc lc sc|vc]; [|now left].
  cbn [text_item andb]. right.
  destruct (item_of_text_inv h prev vp lp sp Ep)
    as (-> & _ & _ & Dp & dp & Hlp & Hsp).
  destruct (item_of_text_inv h cur vc lc sc Ec)
    as (-> & _ & _ & Dc & dc & Hlc & Hsc).
  set (h' := heap_set h lp (ODict (dict_set dp "text" (VStr (sp ++ sc))))).
  assert (Hm : merge_text prev cur h = (h', Ok tt)).
  { unfold merge_text, bind, reads. rewrite Dp. cbn [fst snd].
    unfold getitem at 1. rewrite Hlp, Hsp. cbn [fst snd].
    rewrite Dc. cbn [fst snd]. unfold getitem. rewrite Hlc, Hsc.
    cbn [fst snd add]. unfold setitem. now rewrite Hlp. }
  rewrite Hm. rewrite text_locs_app in Hnd. cbn [text_locs] in Hnd.
  assert (Hnd' : NoDup (text_locs xa ++ lp :: text_locs xb)).
  { change (text_locs xa ++ lp :: lc :: text_locs xb)
      with (text_locs xa ++ [lp] ++ lc :: text_locs xb) in Hnd.
    rewrite app_assoc in Hnd. apply NoDup_remove_1 in Hnd.
    now rewrite <- app_assoc in Hnd. }
  assert (Hna : ~ In lp (text_locs xa)).
  { apply NoDup_remove_2 in Hnd'. intros Hin. apply Hnd'.
    apply in_or_app. now left. }
  assert (Hnb : ~ In lp (text_locs xb)).
  { apply NoDup_remove_2 in Hnd'. intros Hin. apply Hnd'.
    apply in_or_app. now right. }
  assert (Hdel : del_at (S j) (a ++ prev :: cur :: b) = a ++ prev :: b).
  { replace (S j) with (List.length (a ++ [prev]))
      by (rewrite length_app; cbn; lia).
    change (a ++ prev :: cur :: b) with (a ++ [prev] ++ cur :: b).
    rewrite app_assoc, del_at_app, <- app_assoc. reflexivity. }
  rewrite Hdel.
  exists h', (xa ++ Text prev lp (sp ++ sc) :: xb).
  split; [reflexivity|]. split; [|split].
  - apply items_app.
    + exact (items_set h lp dp _ a Hlp xa Ha Hna).
    + cbn [items]. unfold h'.
      rewrite (items_set h lp dp _ b Hlp xb Eb Hnb).
      assert (Hprev : item_of (heap_set h lp
                                 (ODict (dict_set dp "text" (VStr (sp ++ sc)))))
                        prev
                      = Some (Text prev lp (sp ++ sc))).
      { unfold item_of, getattr in *.
        rewrite (as_segment_set_dict h lp dp _ prev Hlp).
        destruct (as_segment h prev) as [d|]; [|discriminate].
        destruct (seg_getattr d "type") as [t|e]; [|discriminate].
        destruct (val_eqb t (VStr "text")); [|discriminate].
        rewrite Dp. rewrite heap_get_set, Nat.eqb_refl, Hlp.
        now rewrite dict_get_set_same. }
      now rewrite Hprev.
  - rewrite text_locs_app. exact Hnd'.
  - apply merge_runs_tail, merge_runs_pair.
Qed.

Lemma reduce_loop_items (turns : nat) :
  forall (idx : nat) (h : heap) (self : list val) (xs : list item),
    items h self = Some xs -> NoDup (text_locs xs) ->
    List.length self - idx <= turns ->
    exists h' self' xs',
      reduce_loop turns idx (h, self) = ((h', self'), Ok tt)
      /\ items h' self' = Some xs'
      /\ merge_runs xs' = merge_runs xs.
Proof.
  induction turns as [|turns IH]; intros idx h self xs Hxs Hnd Hfuel.
  - exists h, self, xs. now repeat split.
  - rewrite reduce_loop_S. cbn [snd].
    destruct (Nat.ltb_spec idx (List.length self)) as [Hlt|Hge].
    2:{ exists h, self, xs. now repeat split. }
    destruct idx as [|j].
    + rewrite reduce_step_zero.
      apply (IH 1 h self xs Hxs Hnd). lia.
    + destruct (nth_error self j) as [prev|] eqn:Ep.
      2:{ apply nth_error_None in Ep. lia. }
      destruct (nth_error self (S j)) as [cur|] eqn:Ec.
      2:{ apply nth_error_None in Ec. lia. }
      destruct (reduce_step_items j h self xs prev cur Hxs Hnd Ep Ec)
        as [E|(h' & xs' & E & Hxs' & Hnd' & Hm)].
      * unfold mstate, heap in *. rewrite E.
        apply (IH (S (S j)) h self xs Hxs Hnd). lia.
      * unfold mstate, heap in *. rewrite E.
        destruct (IH (S j) h' (del_at (S j) self) xs' Hxs' Hnd')
          as (h2 & self2 & xs2 & E2 & Hxs2 & Hm2).
        { rewrite length_del_at by exact Hlt. lia. }
        exists h2, self2, xs2. split; [exact E2|]. split; [exact Hxs2|].
        now rewrite Hm2.
Qed.

Lemma reduce_merges_runs (h : heap) (self : list val) (xs : list item) :
  items h self = Some xs -> NoDup (text_locs xs) ->
  snd (reduce (h, self)) = Ok tt
  /\ items (fst (fst (reduce (h, self)))) (snd (fst (reduce (h, self))))
     = Some (merge_runs xs).
Proof.
  intros Hxs Hnd.
  destruct (reduce_loop_items (List.length self) 0 h self xs Hxs Hnd
              ltac:(lia)) as (h' & self' & xs' & E & Hxs' & Hm).
  pose proof (reduce_settled (h, self)) as Hs.
  rewrite reduce_unfold in *. cbn [snd] in *.
  unfold mstate, heap in *. rewrite E in *. cbn [fst snd] in *.
  split; [reflexivity|].
  destruct Hs as [n [_ [Hp Hn]]]. subst n.
  pose proof (passes_no_adjacent h' self' Hp) as Hadj.
  rewrite <- Hm, (merge_runs_fixed h' self' xs' Hxs' Hadj). exact Hxs'.
Qed.

(** C9: [reduce] merges every run of adjacent text segments and is
    idempotent.  Running it a second time changes nothing: the second run
    leaves the state the first run left and ends the same way; when
    [reduce] returns, no two neighbours are both text segments; and on
    every message whose elements have a type, each text segment with a
    data dict of its own that holds a string under text, [reduce]
    returns and leaves exactly the merged runs: of each run the first
    segment, holding the payloads of the run one after the other, and
    every other element where it was.  The loop of the model makes at
    most [len(self)] turns, one for each index or removed element. *)
Theorem reduce_idempotent (st : mstate) :
  reduce (fst (reduce st)) = reduce st
  /\ (snd (reduce st) = Ok tt ->
      adjacent_text (fst (fst (reduce st))) (snd (fst (reduce st))) = false)
  /\ (forall xs : list item,
      items (fst st) (snd st) = Some xs -> NoDup (text_locs xs) ->
      snd (reduce st) = Ok tt
      /\ items (fst (fst (reduce st))) (snd (fst (reduce st)))
         = Some (merge_runs xs)).
Proof.
  pose proof (reduce_settled st) as Hs. split; [|split].
  - rewrite (settled_reduce _ _ Hs). destruct (reduce st); reflexivity.
  - intros Hr. rewrite Hr in Hs. destruct Hs as [n [_ [Hp Hn]]].
    destruct (fst (reduce st)) as [h self]. cbn [fst snd] in *. subst n.
    apply passes_no_adjacent. exact Hp.
  - intros xs Hxs Hnd. destruct st as [h self].
    exact (reduce_merges_runs h self xs Hxs Hnd).
Qed.

Lemma reduce_idempotent_witness :
  adjacent_text
    (fst (fst (reduce (fst (text_image_text "a" "f" "b"),
                       [VRef 1; VRef 5; VRef 3; VRef 5; VRef 1]))))
    (snd (fst (reduce (fst (text_image_text "a" "f" "b"),
                       [VRef 1; VRef 5; VRef 3; VRef 5; VRef 1]))))
  = false
  /\ snd (reduce (fst (text_image_text "a" "f" "b"),
                  [VRef 1; VRef 5; VRef 3])) = Ok tt
  /\ items
       (fst (fst (reduce (fst (text_image_text "a" "f" "b"),
                          [VRef 1; VRef 5; VRef 3]))))
       (snd (fst (reduce (fst (text_image_text "a" "f" "b"),
                          [VRef 1; VRef 5; VRef 3]))))
     = Some (merge_runs
               [Text (VRef 1) 0 "a"; Text (VRef 5) 4 "b"; Other (VRef 3)]).
Proof.
  split.
  - apply (proj1 (proj2 (reduce_idempotent
                           (fst (text_image_text "a" "f" "b"),
                            [VRef 1; VRef 5; VRef 3; VRef 5; VRef 1])))).
    reflexivity.
  - apply (proj2 (proj2 (reduce_idempotent
                           (fst (text_image_text "a" "f" "b"),
                            [VRef 1; VRef 5; VRef 3])))
             [Text (VRef 1) 0 "a"; Text (VRef 5) 4 "b"; Other (VRef 3)]).
    + reflexivity.
    + repeat constructor; cbn; intuition discriminate.
Defined.
